(** * PorePy: degree-of-freedom layout and AD equation assembly

    A shallow embedding of
      - [porepy/numerics/mixed_dim/dof_manager.py]  (class [DofManager])
      - [porepy/numerics/ad/equation_manager.py]    (classes [Equation] and
        [EquationManager])
    together with the properties of the global block layout, of variable
    discovery, of operator-tree evaluation and of the global assembly.

    Conventions of the embedding.
      - Python exceptions are values of [exn]; a computation that may raise
        returns a [result].
      - A Python [dict] is an association list in insertion order ([Dict.t]).
      - Counts of cells, faces, nodes and degrees of freedom are natural
        numbers (the 64-bit range of the numpy arrays is not modelled).
      - Entries of numpy arrays and scipy sparse matrices are integers; the
        properties below use only 0, 1, negation and exact sums.
      - [assert] statements are executed. *)

From Stdlib Require Import ZArith Lia List Sorted Permutation.
From stdpp Require Import base decidable option list strings pretty.

Set Default Proof Using "Type".

(** ** Python dictionaries *)

Module Dict.
Section dict.
Context {K V : Type} `{EqDecision K}.

Definition t := list (K * V).

Fixpoint get (k : K) (d : t) : option V :=
  match d with
  | [] => None
  | (k', v) :: d' => if decide (k = k') then Some v else get k d'
  end.

(** [d[k] = v]: an existing key keeps its position. *)
Fixpoint set (k : K) (v : V) (d : t) : t :=
  match d with
  | [] => [(k, v)]
  | (k', v') :: d' =>
      if decide (k = k') then (k, v) :: d' else (k', v') :: set k v d'
  end.

Definition keys (d : t) : list K := map fst d.

End dict.
Arguments t : clear implicits.
End Dict.

(** ** Grids *)

Record Grid := {
  g_id : nat;          (* identity of the grid object *)
  num_cells : nat;
  num_faces : nat;
  num_nodes : nat
}.

Record MortarGrid := { mortar_num_cells : nat }.

(** A node of the grid bucket is a grid, an edge is a pair of grids. *)
Inductive grid_like :=
  | GNode (g : Grid)
  | GEdge (g1 g2 : Grid).

#[global] Instance Grid_eq_dec : EqDecision Grid.
Proof. solve_decision. Defined.
#[global] Instance grid_like_eq_dec : EqDecision grid_like.
Proof. solve_decision. Defined.

(** ** Exceptions *)

Inductive pykey :=
  | KBlock (g : grid_like) (name : string)   (* key of [block_dof] *)
  | KEntity (g : grid_like)                  (* node or edge of the bucket *)
  | KStr (s : string)
  | KId (n : nat).

Inductive exn :=
  | KeyError (k : pykey)
  | IndexError
  | ValueError (msg : string)
  | TypeError (msg : string)
  | AttributeError (attr : string)
  | AssertionError.

Inductive result (A : Type) :=
  | Ok (a : A)
  | Raise (e : exn).
Arguments Ok {A} a.
Arguments Raise {A} e.

Definition rbind {A B} (r : result A) (f : A -> result B) : result B :=
  match r with
  | Ok a => f a
  | Raise e => Raise e
  end.

Notation "x <- r ;; k" := (rbind r (fun x => k))
  (at level 100, r at next level, right associativity).

(** [[f(x) for x in l]] where [f] may raise: the first exception wins. *)
Fixpoint rmap {A B} (f : A -> result B) (l : list A) : result (list B) :=
  match l with
  | [] => Ok []
  | x :: l' => y <- f x ;; ys <- rmap f l' ;; Ok (y :: ys)
  end.

(** ** numpy arrays and scipy sparse matrices *)

Definition vec := list Z.

(** A sparse matrix in coordinate form: a shape and a list of
    [(row, column, value)] triples; an entry of the matrix is the sum of the
    triples stored at its position. *)
Record spmatrix := {
  nrows : nat;
  ncols : nat;
  entries : list (nat * nat * Z)
}.

(** ** The grid bucket *)

(** The data dictionary [d] of a node, as far as the code reads it. *)
Record node_data := {
  PRIMARY_VARIABLES : option (Dict.t string (Dict.t string nat));
  PARAMETERS : option (Dict.t string (Dict.t string vec));
  DISCRETIZATION_MATRICES : option (Dict.t string (Dict.t string spmatrix))
}.

(** The data dictionary of an edge; every edge carries its mortar grid. *)
Record edge_data := {
  e_PRIMARY_VARIABLES : option (Dict.t string (Dict.t string nat));
  mortar_grid : MortarGrid;
  e_PARAMETERS : option (Dict.t string (Dict.t string vec));
  e_DISCRETIZATION_MATRICES : option (Dict.t string (Dict.t string spmatrix))
}.

Record GridBucket := {
  gb_nodes : list (Grid * node_data);            (* [for g, d in gb] *)
  gb_edges : list ((Grid * Grid) * edge_data)    (* [for e, d in gb.edges()] *)
}.

(** ** DofManager *)

Module DofManager.

Record t := {
  full_dof : list nat;
  block_dof : Dict.t (grid_like * string) nat
}.

(** [local_dofs.get(kind, 0)] *)
Definition get0 (local_dofs : Dict.t string nat) (kind : string) : nat :=
  default 0 (Dict.get kind local_dofs).

(** State of the two loops of [__init__]. *)
Record build := {
  block_dof_counter : nat;
  b_block_dof : Dict.t (grid_like * string) nat;
  b_full_dof : list nat
}.

(** One pass through the body of an inner loop: assign the block index,
    advance the counter, store the number of dofs. *)
Definition assign (key : grid_like * string) (total_local_dofs : nat)
    (st : build) : build :=
  {| block_dof_counter := block_dof_counter st + 1;
     b_block_dof := Dict.set key (block_dof_counter st) (b_block_dof st);
     b_full_dof := b_full_dof st ++ [total_local_dofs] |}.

Definition node_body (st : build) (gd : Grid * node_data) : build :=
  let '(g, d) := gd in
  match PRIMARY_VARIABLES d with
  | None => st
  | Some vars =>
      fold_left (fun st '(local_var, local_dofs) =>
        assign (GNode g, local_var)
          (num_cells g * get0 local_dofs "cells"
           + num_faces g * get0 local_dofs "faces"
           + num_nodes g * get0 local_dofs "nodes") st) vars st
  end.

Definition edge_body (st : build) (ed : (Grid * Grid) * edge_data) : build :=
  let '((g1, g2), d) := ed in
  match e_PRIMARY_VARIABLES d with
  | None => st
  | Some vars =>
      let mg := mortar_grid d in
      fold_left (fun st '(local_var, local_dofs) =>
        assign (GEdge g1 g2, local_var)
          (mortar_num_cells mg * get0 local_dofs "cells") st) vars st
  end.

Definition init (gb : GridBucket) : t :=
  let st0 := {| block_dof_counter := 0; b_block_dof := []; b_full_dof := [] |} in
  let st1 := fold_left node_body (gb_nodes gb) st0 in
  let st2 := fold_left edge_body (gb_edges gb) st1 in
  {| full_dof := b_full_dof st2; block_dof := b_block_dof st2 |}.

(** [np.cumsum], with the sums as natural numbers. [self.full_dof] is an
    array of 64-bit integers, and the sums that numpy forms on it wrap around
    at [2^63]: the sums below are the sums of the code for a layout with fewer
    than [2^63] dofs ([fits_int64]). The arithmetic of the array is written
    out in [cumsum_int64], [sum_int64] and [dof_ind_int64] below. *)
Fixpoint cumsum_from (acc : nat) (l : list nat) : list nat :=
  match l with
  | [] => []
  | x :: l' => (acc + x) :: cumsum_from (acc + x) l'
  end.
Definition cumsum (l : list nat) : list nat := cumsum_from 0 l.

(** [np.arange(a, b)] *)
Definition arange (a b : nat) : list nat := seq a (b - a).

(** [dof_ind] for a layout that [fits_int64]: the lookup of the block index,
    which comes first, is the one of the code for every layout. *)
Definition dof_ind (dm : t) (g : grid_like) (name : string) : result (list nat) :=
  match Dict.get (g, name) (block_dof dm) with
  | None => Raise (KeyError (KBlock g name))
  | Some block_ind =>
      let dof_start := 0 :: cumsum (full_dof dm) in
      match dof_start !! block_ind, dof_start !! (block_ind + 1) with
      | Some a, Some b => Ok (arange a b)
      | _, _ => Raise IndexError
      end
  end.

(** *** The arithmetic of the int64 array *)

(** The value that a 64-bit integer holds for the integer [z]. *)
Definition wrap_int64 (z : Z) : Z := ((z + 2 ^ 63) mod 2 ^ 64 - 2 ^ 63)%Z.

(** The layouts on which no sum of the code wraps around: the total number of
    dofs is below [2^63]. Every entry of [full_dof] is then below [2^63], and
    [np.array(full_dof)] is an array of 64-bit integers. *)
Definition fits_int64 (full_dof : list nat) : Prop :=
  (Z.of_nat (sum_list full_dof) < 2 ^ 63)%Z.

(** [np.cumsum(self.full_dof)] on the array of 64-bit integers. *)
Fixpoint cumsum_int64_from (acc : Z) (l : list nat) : list Z :=
  match l with
  | [] => []
  | x :: l' =>
      wrap_int64 (acc + Z.of_nat x)
      :: cumsum_int64_from (wrap_int64 (acc + Z.of_nat x)) l'
  end.
Definition cumsum_int64 (l : list nat) : list Z := cumsum_int64_from 0 l.

(** [self.full_dof.sum()] *)
Definition sum_int64 (l : list nat) : Z :=
  fold_left (fun acc x => wrap_int64 (acc + Z.of_nat x)) l 0%Z.

(** [np.arange(a, b)] for 64-bit integers [a] and [b]: empty when [b <= a]. *)
Definition arange_int64 (a b : Z) : list Z :=
  map (fun i => (a + Z.of_nat i)%Z) (seq 0 (Z.to_nat (b - a))).

(** [dof_ind] with the arithmetic of the array. *)
Definition dof_ind_int64 (dm : t) (g : grid_like) (name : string) : result (list Z) :=
  match Dict.get (g, name) (block_dof dm) with
  | None => Raise (KeyError (KBlock g name))
  | Some block_ind =>
      let dof_start := 0%Z :: cumsum_int64 (full_dof dm) in
      match dof_start !! block_ind, dof_start !! (block_ind + 1) with
      | Some a, Some b => Ok (arange_int64 a b)
      | _, _ => Raise IndexError
      end
  end.

(** *** The declarations of a grid bucket, in iteration order *)

(** Number of dofs of a variable on a grid: every kind of geometric entity
    counts. *)
Definition grid_block_size (g : Grid) (local_dofs : Dict.t string nat) : nat :=
  num_cells g * get0 local_dofs "cells"
  + num_faces g * get0 local_dofs "faces"
  + num_nodes g * get0 local_dofs "nodes".

(** Number of dofs of a variable on an interface: a mortar grid has cells
    only. *)
Definition mortar_block_size (mg : MortarGrid) (local_dofs : Dict.t string nat) : nat :=
  mortar_num_cells mg * get0 local_dofs "cells".

Definition node_declared (gd : Grid * node_data) : list ((grid_like * string) * nat) :=
  match PRIMARY_VARIABLES gd.2 with
  | None => []
  | Some vars => map (fun vd => ((GNode gd.1, vd.1), grid_block_size gd.1 vd.2)) vars
  end.

Definition edge_declared (ed : (Grid * Grid) * edge_data) : list ((grid_like * string) * nat) :=
  match e_PRIMARY_VARIABLES ed.2 with
  | None => []
  | Some vars =>
      map (fun vd => ((GEdge ed.1.1 ed.1.2, vd.1),
                      mortar_block_size (mortar_grid ed.2) vd.2)) vars
  end.

(** All declared [(entity, name)] pairs with their sizes, nodes first and
    then edges, each entity's variables in the order of its dictionary. *)
Definition declared (gb : GridBucket) : list ((grid_like * string) * nat) :=
  flat_map node_declared (gb_nodes gb) ++ flat_map edge_declared (gb_edges gb).

(** The nodes and edges of the bucket are pairwise distinct and the variable
    dictionaries have pairwise distinct keys. *)
Definition vars_wf (o : option (Dict.t string (Dict.t string nat))) : Prop :=
  match o with None => True | Some vars => NoDup (Dict.keys vars) end.

Record gb_wf (gb : GridBucket) : Prop := {
  wf_nodes : NoDup (map fst (gb_nodes gb));
  wf_edges : NoDup (map fst (gb_edges gb));
  wf_node_vars : Forall (fun gd => vars_wf (PRIMARY_VARIABLES gd.2)) (gb_nodes gb);
  wf_edge_vars : Forall (fun ed => vars_wf (e_PRIMARY_VARIABLES ed.2)) (gb_edges gb)
}.

(** Assigning block indices to a list of declarations, one after the other. *)
Definition assign_all (decls : list ((grid_like * string) * nat)) (st : build) : build :=
  fold_left (fun st kd => assign kd.1 kd.2 st) decls st.

(** The consecutive ranges of a list of block sizes, from a start offset. *)
Fixpoint ranges_from (off : nat) (sizes : list nat) : list (list nat) :=
  match sizes with
  | [] => []
  | x :: sizes' => seq off x :: ranges_from (off + x) sizes'
  end.

End DofManager.

(** ** numpy and scipy.sparse, as far as the code uses them *)

Module Np.

(** [np.hstack(arrs)] on a list of one-dimensional arrays. *)
Definition hstack {A} (arrs : list (list A)) : result (list A) :=
  match arrs with
  | [] => Raise (ValueError "need at least one array to concatenate")
  | _ => Ok (concat arrs)
  end.

(** [np.ones(n)] *)
Definition ones (n : nat) : vec := replicate n 1%Z.

(** [state[ind]] for an index array [ind]. *)
Definition take_indices (state : vec) (ind : list nat) : result vec :=
  rmap (fun i => match state !! i with
                 | Some x => Ok x
                 | None => Raise IndexError
                 end) ind.

(** [-a] *)
Definition neg (a : vec) : vec := map Z.opp a.

End Np.

Module Sparse.

Definition sumZ (l : list Z) : Z := fold_right Z.add 0%Z l.

(** The value a stored triple contributes to position [(i, j)]. *)
Definition at_pos (i j : nat) (e : nat * nat * Z) : Z :=
  if decide (e.1.1 = i /\ e.1.2 = j) then e.2 else 0%Z.

(** [M[i, j]] *)
Definition get (M : spmatrix) (i j : nat) : Z :=
  sumZ (map (at_pos i j) (entries M)).

(** Every stored triple lies inside the shape. *)
Definition wf (M : spmatrix) : Prop :=
  Forall (fun e => e.1.1 < nrows M /\ e.1.2 < ncols M) (entries M).

(** [sps.coo_matrix((data, (row, col)), shape=shape)]; the constructor
    checks the indices against the shape. *)
Definition coo_matrix (data : vec) (row col : list nat) (shape : nat * nat)
    : result spmatrix :=
  if negb ((length row =? length data) && (length col =? length data)) then
    Raise (ValueError "row, column, and data array must all be the same length")
  else if existsb (fun r => shape.1 <=? r) row then
    Raise (ValueError "row index exceeds matrix dimensions")
  else if existsb (fun c => shape.2 <=? c) col then
    Raise (ValueError "column index exceeds matrix dimensions")
  else
    Ok {| nrows := shape.1; ncols := shape.2; entries := zip (zip row col) data |}.

(** [A * B] for two sparse matrices. *)
Definition mul_entries (A B : list (nat * nat * Z)) : list (nat * nat * Z) :=
  flat_map (fun ea =>
    flat_map (fun eb =>
      if decide (ea.1.2 = eb.1.1) then [(ea.1.1, eb.1.2, (ea.2 * eb.2)%Z)] else [])
      B) A.

Definition mul (A B : spmatrix) : result spmatrix :=
  if decide (ncols A = nrows B) then
    Ok {| nrows := nrows A; ncols := ncols B;
          entries := mul_entries (entries A) (entries B) |}
  else Raise (ValueError "dimension mismatch").

Definition shift (roff coff : nat) (e : nat * nat * Z) : nat * nat * Z :=
  (roff + e.1.1, coff + e.1.2, e.2).

(** [sps.bmat([[m] for m in mat])]: one column of blocks, stacked from the
    top in the order of the list. *)
Fixpoint vstack_entries (roff : nat) (blocks : list spmatrix) : list (nat * nat * Z) :=
  match blocks with
  | [] => []
  | M :: blocks' =>
      map (shift roff 0) (entries M) ++ vstack_entries (roff + nrows M) blocks'
  end.

Definition bmat_column (blocks : list spmatrix) : result spmatrix :=
  match blocks with
  | [] => Raise (ValueError "blocks must be 2-D")
  | M :: blocks' =>
      if forallb (fun M' => ncols M' =? ncols M) blocks' then
        Ok {| nrows := sum_list (map nrows blocks); ncols := ncols M;
              entries := vstack_entries 0 blocks |}
      else Raise (ValueError "blocks[:,0] has incompatible column dimensions")
  end.

(** [M.tocsr()] changes the storage format, not the matrix. *)
Definition tocsr (M : spmatrix) : spmatrix := M.

(** [sps.block_diag(mats)]: the blocks on the diagonal, through [bmat]; an
    empty list of blocks is refused. *)
Fixpoint block_diag_entries (roff coff : nat) (mats : list spmatrix)
    : list (nat * nat * Z) :=
  match mats with
  | [] => []
  | M :: mats' =>
      map (shift roff coff) (entries M)
      ++ block_diag_entries (roff + nrows M) (coff + ncols M) mats'
  end.

Definition block_diag (mats : list spmatrix) : result spmatrix :=
  match mats with
  | [] => Raise (ValueError "blocks must be 2-D")
  | _ =>
      Ok {| nrows := sum_list (map nrows mats); ncols := sum_list (map ncols mats);
            entries := block_diag_entries 0 0 mats |}
  end.

End Sparse.

(** ** Operator trees *)

(** [operators.Variable]: a variable on one grid or interface. *)
Record Var := {
  var_name : string;      (* [_name] *)
  var_id : nat;           (* [id] *)
  var_g : grid_like       (* [g] *)
}.

(** A merged variable: the list [sub_vars], which has a first element. *)
Record MergedVariable := {
  sub_vars_head : Var;
  sub_vars_tail : list Var
}.
Definition sub_vars (mv : MergedVariable) : list Var :=
  sub_vars_head mv :: sub_vars_tail mv.

(** A discretization object: its [keyword] and its attributes
    [<name>_matrix_key]. *)
Record Discretization := {
  keyword : string;
  matrix_keys : Dict.t string string
}.

(** A discretization-bound leaf. Python compares and hashes these objects by
    identity; [mo_ref] stands for the identity of the object. *)
Record MergedOperator := {
  mo_ref : nat;
  grid_discr : Dict.t grid_like Discretization;
  key : string;
  mat_dict_key : option string
}.

Record BoundaryCondition := {
  bc_g : list Grid;
  bc_keyword : string
}.

Record Divergence := {
  div_g : list Grid;
  scalar : bool
}.

#[global] Instance Var_eq_dec : EqDecision Var.
Proof. solve_decision. Defined.
#[global] Instance Discretization_eq_dec : EqDecision Discretization.
Proof. solve_decision. Defined.
#[global] Instance MergedOperator_eq_dec : EqDecision MergedOperator.
Proof. solve_decision. Defined.

(** The tags of [operators.Operation]; [other] stands for any tag that
    [_parse_operator] does not know. *)
Module Operation.
Inductive t := add | sub | mul | div | evaluate | other (tag : nat).
End Operation.

(** The class of an operator object. *)
Inductive OperatorClass :=
  | IsVariable (v : Var)
  | IsMergedVariable (mv : MergedVariable)
  | IsBoundaryCondition (bc : BoundaryCondition)
  | IsMatrix (mat : spmatrix)
  | IsArray (values : vec)
  | IsFunction (func : nat)         (* the name of the wrapped callable *)
  | IsScalar (value : Z)
  | IsDivergence (d : Divergence)
  | IsMergedOperator (mo : MergedOperator)
  | IsOperator.                     (* a plain [Operator] *)

(** An operator object with its tree [_tree = (_op, _children)]. *)
#[warnings="-register-all"]
Inductive Operator :=
  | Node (cls : OperatorClass) (_op : Operation.t) (_children : list Operator).

(** ** Values of the evaluation *)

Inductive value :=
  | VAd (val : vec) (jac : spmatrix)   (* a forward-mode [Ad_array] *)
  | VMat (m : spmatrix)                (* a sparse matrix *)
  | VArr (a : vec)                     (* a numpy array *)
  | VNum (x : Z)                       (* a number *)
  | VFunction (func : nat).            (* a [pp.ad.Function] operator *)

(** The arithmetic of the values ([forward_mode], numpy and scipy), the
    callables wrapped by [pp.ad.Function], [initAdArrays] and the divergence
    matrices of [pp.fvutils] are not part of the two files; the evaluation is
    given relative to them. *)
Record Numerics := {
  py_add : value -> value -> result value;
  py_sub : value -> value -> result value;
  py_mul : value -> value -> result value;
  py_div : value -> value -> result value;
  py_call : nat -> list value -> result value;
  initAdArrays : list vec -> result (list value);
  scalar_divergence : Grid -> spmatrix;
  vector_divergence : Grid -> spmatrix
}.

(** [ad.jac], [ad.val] and [op.func]. *)
Definition attr_jac (v : value) : result spmatrix :=
  match v with VAd _ jac => Ok jac | _ => Raise (AttributeError "jac") end.
Definition attr_val (v : value) : result vec :=
  match v with VAd val _ => Ok val | _ => Raise (AttributeError "val") end.
Definition attr_func (v : value) : result nat :=
  match v with VFunction f => Ok f | _ => Raise (AttributeError "func") end.

(** ** Access to the grid bucket *)

Module Gb.

(** [gb.node_props(g)] and [gb.edge_props(e)] *)
Definition node_props (gb : GridBucket) (g : Grid) : result node_data :=
  match Dict.get g (gb_nodes gb) with
  | Some d => Ok d
  | None => Raise (KeyError (KEntity (GNode g)))
  end.

Definition edge_props (gb : GridBucket) (e : Grid * Grid) : result edge_data :=
  match Dict.get e (gb_edges gb) with
  | Some d => Ok d
  | None => Raise (KeyError (KEntity (GEdge e.1 e.2)))
  end.

(** [d[k]] for a string key. *)
Definition getitem {V} (d : Dict.t string V) (k : string) : result V :=
  match Dict.get k d with
  | Some v => Ok v
  | None => Raise (KeyError (KStr k))
  end.

Definition required {V} (field : string) (o : option V) : result V :=
  match o with
  | Some v => Ok v
  | None => Raise (KeyError (KStr field))
  end.

End Gb.

(** ** Equation *)

(** A variable leaf of a tree: an object of class [Variable] or of its
    subclass [MergedVariable]. *)
Inductive var_leaf :=
  | Plain (v : Var)
  | Merged (mv : MergedVariable).

(** Modelled from the spec: the class [MergedVariable] of
    [porepy/numerics/ad/operators.py], whose attribute [id] is read by the
    sort key of [_identify_variables]. "Its id is defined as the id of its
    first constituent." *)
Definition merged_id (mv : MergedVariable) : nat := var_id (sub_vars_head mv).

(** [var.id] *)
Definition leaf_id (x : var_leaf) : nat :=
  match x with
  | Plain v => var_id v
  | Merged mv => merged_id mv
  end.

(** Modelled from the spec: equality and hash of the variable objects of
    [porepy/numerics/ad/operators.py], which decide what [set(...)] keeps.
    Variables are "deduplicated by id": two variable objects are the same
    element of a set when their ids are equal. *)
Definition same_variable (x y : var_leaf) : bool := leaf_id x =? leaf_id y.

(** ** The variable leaves of a tree *)

(** All leaves of class [Variable] or [MergedVariable] below a node, from
    left to right. *)
Fixpoint variable_leaves (op : Operator) : list var_leaf :=
  match op with
  | Node (IsVariable v) _ _ => [Plain v]
  | Node (IsMergedVariable mv) _ _ => [Merged mv]
  | Node _ _ _children => flat_map variable_leaves _children
  end.

Definition ids_of (l : list var_leaf) : list nat := map leaf_id l.

Module Equation.

Record t := {
  _operator : Operator;
  name : option string;
  _variable_dofs : list (list nat);
  _variable_ids : list nat;
  _stored_matrices : Dict.t MergedOperator spmatrix;
  _ad : option (Dict.t nat value)   (* set by [to_ad]; absent before *)
}.

(** The first argument of the constructor: an operator, or a tuple of
    operators. *)
Inductive operator_arg :=
  | AnOperator (op : Operator)
  | ATuple (ops : list Operator).

(** What [_find_subtree_variables] returns: the variable itself at a variable
    leaf, a list of variables elsewhere. *)
Inductive found :=
  | FoundVariable (x : var_leaf)
  | FoundList (l : list var_leaf).

Fixpoint _find_subtree_variables (op : Operator) : found :=
  match op with
  | Node (IsVariable v) _ _ => FoundVariable (Plain v)
  | Node (IsMergedVariable mv) _ _ => FoundVariable (Merged mv)
  | Node _ _ _children =>
      let sub_variables := map _find_subtree_variables _children in
      FoundList
        (flat_map (fun var =>
           match var with
           | FoundVariable x => [x]
           | FoundList sub => sub
           end) sub_variables)
  end.

(** [set(l)]: the elements are added one after the other; an element that is
    already present is not added again. The set is represented by its
    elements in the order of their insertion. *)
Fixpoint set_update (s : list var_leaf) (l : list var_leaf) : list var_leaf :=
  match l with
  | [] => s
  | x :: l' =>
      if existsb (same_variable x) s then set_update s l'
      else set_update (s ++ [x]) l'
  end.
Definition set_of (l : list var_leaf) : list var_leaf := set_update [] l.

(** [sorted(l, key=lambda var: var.id)]: a stable sort. *)
Fixpoint insert_by_id (x : var_leaf) (l : list var_leaf) : list var_leaf :=
  match l with
  | [] => [x]
  | y :: l' =>
      if leaf_id x <=? leaf_id y then x :: l else y :: insert_by_id x l'
  end.
Definition sorted_by_id (l : list var_leaf) : list var_leaf :=
  fold_right insert_by_id [] l.

(** The body of the loop of [_identify_variables] for one variable: its global
    indices and its id. *)
Definition variable_inds (dof_manager : DofManager.t) (variable : var_leaf)
    : result (list nat * nat) :=
  match variable with
  | Merged mv =>
      ind_var <- rmap (fun sub_var =>
                   DofManager.dof_ind dof_manager (var_g sub_var) (var_name sub_var))
                 (sub_vars mv) ;;
      inds <- Np.hstack ind_var ;;
      Ok (inds, var_id (sub_vars_head mv))
  | Plain v =>
      ind <- DofManager.dof_ind dof_manager (var_g v) (var_name v) ;;
      inds <- Np.hstack [ind] ;;
      Ok (inds, var_id v)
  end.

Definition _identify_variables (_operator : Operator) (dof_manager : DofManager.t)
    : result (list (list nat) * list nat) :=
  match _find_subtree_variables _operator with
  | FoundVariable _ => Raise (TypeError "object is not iterable")
  | FoundList l =>
      let variables := sorted_by_id (set_of l) in
      found <- rmap (variable_inds dof_manager) variables ;;
      Ok (map fst found, map snd found)
  end.

Definition init (operator : operator_arg) (dof_manager : DofManager.t)
    (name : option string) : result t :=
  op <- match operator with
        | AnOperator op => Ok op
        | ATuple [op] => Ok op
        | ATuple _ => Raise (AttributeError "_tree")
        end ;;
  dofs_ids <- _identify_variables op dof_manager ;;
  Ok {| _operator := op;
        name := name;
        _variable_dofs := dofs_ids.1;
        _variable_ids := dofs_ids.2;
        _stored_matrices := [];
        _ad := None |}.

Definition local_dofs (eq : t) : result (list nat) :=
  Np.hstack (_variable_dofs eq).

(** *** Evaluation of the tree *)

Section parse.
Context (N : Numerics).

Definition cache := Dict.t MergedOperator spmatrix.

(** A list comprehension whose body updates the cache and may raise. *)
Fixpoint smap {A B} (f : A -> cache -> result B * cache) (l : list A) (c : cache)
    : result (list B) * cache :=
  match l with
  | [] => (Ok [], c)
  | x :: l' =>
      let '(r, c1) := f x c in
      match r with
      | Raise e => (Raise e, c1)
      | Ok y =>
          let '(rs, c2) := smap f l' c1 in
          (ys <- rs ;; Ok (y :: ys), c2)
      end
  end.

(** The boundary values of one grid:
    [data[pp.PARAMETERS][op.keyword]["bc_values"]]. *)
Definition bc_values (gb : GridBucket) (op : BoundaryCondition) (g : Grid) : result vec :=
  data <- Gb.node_props gb g ;;
  params <- Gb.required "parameters" (PARAMETERS data) ;;
  p <- Gb.getitem params (bc_keyword op) ;;
  Gb.getitem p "bc_values".

(** The matrix of a discretization-bound leaf on one grid or interface. *)
Definition discr_matrix (gb : GridBucket) (op : MergedOperator)
    (gd : grid_like * Discretization) : result spmatrix :=
  let '(g, discr) := gd in
  matrices <- match g with
              | GNode g => data <- Gb.node_props gb g ;;
                  Gb.required "discretization_matrices" (DISCRETIZATION_MATRICES data)
              | GEdge g1 g2 => data <- Gb.edge_props gb (g1, g2) ;;
                  Gb.required "discretization_matrices" (e_DISCRETIZATION_MATRICES data)
              end ;;
  let mat_dict_key := match mat_dict_key op with
                      | Some k => k
                      | None => keyword discr
                      end in
  mat_dict <- Gb.getitem matrices mat_dict_key ;;
  mat_key <- match Dict.get (key op +:+ "_matrix_key") (matrix_keys discr) with
             | Some k => Ok k
             | None => Raise (AttributeError (key op +:+ "_matrix_key"))
             end ;;
  Gb.getitem mat_dict mat_key.

(** The block-diagonal matrix of a discretization-bound leaf, looked up in
    the matrix store. *)
Definition merged_matrix (gb : GridBucket) (op : MergedOperator) : result spmatrix :=
  mat <- rmap (discr_matrix gb op) (grid_discr op) ;;
  Sparse.block_diag mat.

(** The combination of the results of the children of a composite node. *)
Definition combine (_op : Operation.t) (results : list value) : result value :=
  match _op with
  | Operation.add =>
      if decide (length results = 2) then
        match results with
        | r0 :: r1 :: _ => py_add N r0 r1
        | _ => Raise IndexError
        end
      else Raise AssertionError
  | Operation.sub =>
      if decide (length results = 2) then
        match results with
        | r0 :: r1 :: _ => py_sub N r0 r1
        | _ => Raise IndexError
        end
      else Raise AssertionError
  | Operation.mul =>
      match results with
      | r0 :: r1 :: _ => py_mul N r0 r1
      | _ => Raise IndexError
      end
  | Operation.evaluate =>
      match results with
      | r0 :: rest => f <- attr_func r0 ;; py_call N f rest
      | [] => Raise IndexError
      end
  | Operation.div =>
      match results with
      | r0 :: r1 :: _ => py_div N r0 r1
      | _ => Raise IndexError
      end
  | Operation.other _ => Raise (ValueError "Should not happen")
  end.

(** [self._ad[id]] *)
Definition ad_lookup (ad : Dict.t nat value) (id : nat) : result value :=
  match Dict.get id ad with
  | Some v => Ok v
  | None => Raise (KeyError (KId id))
  end.

(** The leaf branch of a discretization-bound operator: the matrix is
    taken from [_stored_matrices] when it is there, and is looked up and
    stored otherwise. *)
Definition stored (gb : GridBucket) (op : MergedOperator) (c : cache)
    : result value * cache :=
  match Dict.get op c with
  | Some matrix => (Ok (VMat matrix), c)
  | None =>
      match merged_matrix gb op with
      | Ok matrix => (Ok (VMat matrix), Dict.set op matrix c)
      | Raise e => (Raise e, c)
      end
  end.

(** The composite branch, given the evaluation of the children. *)
Definition composite (_op : Operation.t) (children : result (list value) * cache)
    : result value * cache :=
  let '(rs, c') := children in
  (results <- rs ;; combine _op results, c').

Fixpoint _parse_operator (ad : Dict.t nat value) (gb : GridBucket)
    (op : Operator) (c : cache) {struct op} : result value * cache :=
  match op with
  | Node cls _op _children =>
      match cls with
      | IsVariable v =>
          match _children with
          | [] => (ad_lookup ad (var_id v), c)
          | _ => (Raise AssertionError, c)
          end
      | IsMergedVariable mv =>
          match _children with
          | [] => (ad_lookup ad (var_id (sub_vars_head mv)), c)
          | _ => (Raise AssertionError, c)
          end
      | IsBoundaryCondition bc =>
          (val <- rmap (bc_values gb bc) (bc_g bc) ;;
           a <- Np.hstack val ;; Ok (VArr a), c)
      | IsMatrix mat => (Ok (VMat mat), c)
      | IsArray values => (Ok (VArr values), c)
      | IsFunction func => (Ok (VFunction func), c)
      | IsScalar value => (Ok (VNum value), c)
      | IsDivergence d =>
          let mat := if scalar d then map (scalar_divergence N) (div_g d)
                     else map (vector_divergence N) (div_g d) in
          (matrix <- Sparse.block_diag mat ;; Ok (VMat matrix), c)
      | IsMergedOperator mo =>
          match _children with
          | [] => stored gb mo c
          | _ => composite _op (smap (_parse_operator ad gb) _children c)
          end
      | IsOperator =>
          match _children with
          | [] => (Raise AssertionError, c)
          | _ => composite _op (smap (_parse_operator ad gb) _children c)
          end
      end
  end.

(** [dict(zip(keys, values))]: a later pair overwrites an earlier one with
    the same key. *)
Definition dict_of_zip {K V} `{EqDecision K} (ks : list K) (vs : list V) : Dict.t K V :=
  fold_left (fun d kv => Dict.set kv.1 kv.2 d) (zip ks vs) [].

Definition to_ad (eq : t) (assembler_gb : GridBucket) (state : vec) : result value * t :=
  match (slices <- rmap (Np.take_indices state) (_variable_dofs eq) ;;
         initAdArrays N slices) with
  | Raise e => (Raise e, eq)
  | Ok ad_vars =>
      let ad := dict_of_zip (_variable_ids eq) ad_vars in
      let '(r, c) := _parse_operator ad assembler_gb (_operator eq) (_stored_matrices eq) in
      (r, {| _operator := _operator eq;
             name := name eq;
             _variable_dofs := _variable_dofs eq;
             _variable_ids := _variable_ids eq;
             _stored_matrices := c;
             _ad := Some ad |})
  end.
End parse.

End Equation.

(** ** Notions used in the further properties of equations *)

(** The [(entity, name)] pairs that [_identify_variables] looks up for a
    variable leaf: the pair of the variable, or those of the sub-variables of
    a merged variable, in their order. *)
Definition leaf_pairs (x : var_leaf) : list (grid_like * string) :=
  match x with
  | Plain v => [(var_g v, var_name v)]
  | Merged mv => map (fun v => (var_g v, var_name v)) (sub_vars mv)
  end.

(** Whether the root of a tree is a variable. *)
Definition is_variable_class (cls : OperatorClass) : bool :=
  match cls with
  | IsVariable _ | IsMergedVariable _ => true
  | _ => false
  end.

(** Every matrix of the cache is the one that the matrix store of the bucket
    gives for its operator. *)
Definition cache_consistent (gb : GridBucket) (c : Equation.cache) : Prop :=
  forall mo m, Dict.get mo c = Some m -> Equation.merged_matrix gb mo = Ok m.

(** The class of the node of a variable leaf. *)
Definition leaf_class (x : var_leaf) : OperatorClass :=
  match x with
  | Plain v => IsVariable v
  | Merged mv => IsMergedVariable mv
  end.

(** The discretization-bound leaves that the evaluation of a tree reaches:
    the childless nodes of class [MergedOperator] at the root or below
    composite nodes. *)
Fixpoint merged_leaves (op : Operator) : list MergedOperator :=
  match op with
  | Node (IsMergedOperator mo) _ _children =>
      match _children with
      | [] => [mo]
      | _ => flat_map merged_leaves _children
      end
  | Node IsOperator _ _children => flat_map merged_leaves _children
  | Node _ _ _ => []
  end.

(** ** EquationManager *)

Module EquationManager.

(** Modelled from the spec: the class [pp.Assembler], which is not part of the
    two files. The manager holds a "reference to the DofManager/assembler":
    the assembler of a bucket gives access to the bucket ([gb]) and to the
    layout of its [DofManager] ([full_dof], [dof_ind]). *)
Record Assembler := {
  assembler_gb : GridBucket;
  dof_manager : DofManager.t
}.
Definition Assembler_init (gb : GridBucket) : Assembler :=
  {| assembler_gb := gb; dof_manager := DofManager.init gb |}.

(** The equations are objects that the manager refers to: [_equations] is a
    list of references into the store of [Equation] objects; an object that
    occurs twice in the list is one object. The registry [variables] of the
    manager is not read by the assembly; it is kept beside the record below,
    in [Registry.Manager]. *)
Definition store := nat -> Equation.t.

Definition store_set (h : store) (a : nat) (eq : Equation.t) : store :=
  fun a' => if decide (a' = a) then eq else h a'.

Record t := {
  gb : GridBucket;
  _equations : list nat;
  _assembler : Assembler
}.

(** The attributes [gb], [_equations] and [_assembler] as [__init__] assigns
    them. This is not the constructor: [__init__] calls [_set_variables]
    before it assigns [_equations] and [_assembler], and raises when that call
    raises; the constructor is [Registry.__init__]. *)
Definition attributes (gb : GridBucket) (equations : option (list nat)) : t :=
  {| gb := gb;
     _equations := default [] equations;
     _assembler := Assembler_init gb |}.

Section assemble.
Context (N : Numerics).

(** The scatter matrix from the local columns of an equation to the
    global ones. *)
Definition projection (local_dofs : list nat) (num_global_dofs : nat) : result spmatrix :=
  let num_local_dofs := length local_dofs in
  Sparse.coo_matrix (Np.ones num_local_dofs)
    (DofManager.arange 0 num_local_dofs) local_dofs
    (num_local_dofs, num_global_dofs).

(** The body of the loop of [assemble_matrix_rhs] for one equation: the
    block appended to [mat] and the vector appended to [b].
    [num_global_dofs] is [self._assembler.full_dof.sum()], written as a sum
    of natural numbers: the sum of the code in a layout that
    [DofManager.fits_int64]. *)
Definition equation_row (em : t) (state : vec) (eq : Equation.t)
    : result (spmatrix * vec) * Equation.t :=
  let num_global_dofs := sum_list (DofManager.full_dof (dof_manager (_assembler em))) in
  let '(r, eq') := Equation.to_ad N eq (assembler_gb (_assembler em)) state in
  (ad <- r ;;
   local_dofs <- Equation.local_dofs eq' ;;
   projection <- projection local_dofs num_global_dofs ;;
   jac <- attr_jac ad ;;
   m <- Sparse.mul jac projection ;;
   val <- attr_val ad ;;
   Ok (m, Np.neg val),
   eq').

(** The loop over [self._equations]. *)
Fixpoint rows (em : t) (state : vec) (refs : list nat) (h : store)
    : result (list (spmatrix * vec)) * store :=
  match refs with
  | [] => (Ok [], h)
  | a :: refs' =>
      let '(r, eq') := equation_row em state (h a) in
      let h' := store_set h a eq' in
      match r with
      | Raise e => (Raise e, h')
      | Ok row =>
          let '(rs, h'') := rows em state refs' h' in
          (l <- rs ;; Ok (row :: l), h'')
      end
  end.

Definition assemble_matrix_rhs (em : t) (state : vec) (h : store)
    : result (spmatrix * vec) * store :=
  let '(rs, h') := rows em state (_equations em) h in
  (l <- rs ;;
   A <- Sparse.bmat_column (map fst l) ;;
   rhs <- Np.hstack (map snd l) ;;
   Ok (Sparse.tocsr A, rhs),
   h').
End assemble.

End EquationManager.

(** ** DofManager: the textual summary *)

(** Whether a grid-like object is a grid, and whether a data dictionary
    declares at least one variable. *)
Definition is_grid (g : grid_like) : bool :=
  match g with GNode _ => true | GEdge _ _ => false end.

Definition has_variables (o : option (Dict.t string (Dict.t string nat))) : bool :=
  match o with Some (_ :: _) => true | _ => false end.


Module DofManagerRepr.
Import DofManager.

Section repr.
(** [g.dim]: the dimension of a grid, which the layout itself does not read. *)
Context (dim : Grid -> Z).

(** The counters of the loop of [__repr__]. *)
Record summary := {
  num_grids : nat;
  num_interfaces : nat;
  dim_max : Z;
  dim_min : Z
}.

(** [list(set(grid_likes))], with [grid_likes = [key[0] for key in
    self.block_dof]]; grids and edges are compared by identity. The order of
    the list is the order in which the set happens to be iterated. *)
Definition unique_grids (dm : t) : list grid_like :=
  remove_dups (map fst (Dict.keys (block_dof dm))).

(** The body of the loop over [unique_grids]. *)
Definition count_grid (st : summary) (g : grid_like) : summary :=
  match g with
  | GNode g =>
      {| num_grids := num_grids st + 1;
         num_interfaces := num_interfaces st;
         dim_max := Z.max (dim_max st) (dim g);
         dim_min := Z.min (dim_min st) (dim g) |}
  | GEdge _ _ =>
      {| num_grids := num_grids st;
         num_interfaces := num_interfaces st + 1;
         dim_max := dim_max st;
         dim_min := dim_min st |}
  end.

Definition summarize (grids : list grid_like) : summary :=
  fold_left count_grid grids
    {| num_grids := 0; num_interfaces := 0; dim_max := (-1)%Z; dim_min := 4%Z |}.

(** [self.full_dof.sum()] as the f-string prints it: the array of an empty
    list is an array of floats, whose sum prints as [0.0]. *)
Definition total_dofs_str (full_dof : list nat) : string :=
  match full_dof with
  | [] => "0.0"
  | _ => pretty (sum_list full_dof)
  end.

Definition newline : string := String (Ascii.ascii_of_nat 10) EmptyString.

Definition __repr__ (dm : t) : string :=
  let s := summarize (unique_grids dm) in
  "Degree of freedom manager with in total " +:+ total_dofs_str (full_dof dm)
  +:+ " dofs on " +:+ pretty (num_grids s) +:+ " subdomains and "
  +:+ pretty (num_interfaces s) +:+ " interface variables." +:+ newline
  +:+ "Maximum grid dimension: " +:+ pretty (dim_max s) +:+ newline
  +:+ "Minimum grid dimension: " +:+ pretty (dim_min s) +:+ newline.
End repr.

End DofManagerRepr.

(** ** EquationManager: the registry of variables and the state of a variable *)

Module Registry.
Import EquationManager.

(** [self.variables]: for every node and edge the dictionary from the names
    of its variables to the variable objects. *)
Definition registry := Dict.t grid_like (Dict.t string Var).

Section variables.
(** The id that the constructor of [operators.Variable] gives to the
    variable it creates, as a function of the number of variables created
    before. *)
Context (fresh : nat -> nat).

(** Modelled from the spec: the constructor [operators.Variable(name, info,
    g, num_cells)] of [porepy/numerics/ad/operators.py]. A variable is
    "(name, id, entity, dof-kind counts)"; the counts are not read by the code
    of the two files. *)
Definition new_variable (created : nat) (name : string) (info : Dict.t string nat)
    (g : grid_like) (num_cells : option nat) : Var :=
  {| var_name := name; var_id := fresh created; var_g := g |}.

(** [variables[g] = {}] followed by the inner loop
    [variables[g][var] = operators.Variable(var, info, g, ...)]. *)
Definition register_entity (g : grid_like) (num_cells : option nat)
    (vars : Dict.t string (Dict.t string nat)) (st : registry * nat) : registry * nat :=
  fold_left (fun st vi =>
      let inner := default [] (Dict.get g st.1) in
      (Dict.set g (Dict.set vi.1 (new_variable st.2 vi.1 vi.2 g num_cells) inner) st.1,
       st.2 + 1))
    vars (Dict.set g [] st.1, st.2).

(** The loop over the nodes: [d[pp.PRIMARY_VARIABLES]] is read without a
    test for its presence. *)
Fixpoint set_node_variables (nodes : list (Grid * node_data)) (st : registry * nat)
    : result (registry * nat) :=
  match nodes with
  | [] => Ok st
  | (g, d) :: nodes' =>
      vars <- Gb.required "primary_variables" (PRIMARY_VARIABLES d) ;;
      set_node_variables nodes' (register_entity (GNode g) None vars st)
  end.

(** The loop over the edges. *)
Fixpoint set_edge_variables (edges : list ((Grid * Grid) * edge_data)) (st : registry * nat)
    : result (registry * nat) :=
  match edges with
  | [] => Ok st
  | (e, d) :: edges' =>
      let num_cells := mortar_num_cells (mortar_grid d) in
      vars <- Gb.required "primary_variables" (e_PRIMARY_VARIABLES d) ;;
      set_edge_variables edges'
        (register_entity (GEdge e.1 e.2) (Some num_cells) vars st)
  end.

(** [_set_variables(gb)], started when [created] variables exist: the
    registry and the number of variables that exist afterwards. *)
Definition _set_variables (gb : GridBucket) (created : nat) : result (registry * nat) :=
  st <- set_node_variables (gb_nodes gb) ([], created) ;;
  set_edge_variables (gb_edges gb) st.

(** An [EquationManager] with its registry. *)
Record Manager := {
  manager : EquationManager.t;
  variables : registry
}.

(** [EquationManager.__init__(gb, equations)] *)
Definition __init__ (gb : GridBucket) (equations : option (list nat)) (created : nat)
    : result (Manager * nat) :=
  st <- _set_variables gb created ;;
  Ok ({| manager := EquationManager.attributes gb equations; variables := st.1 |}, st.2).
End variables.

(** [variables[g][name]] *)
Definition registered (reg : registry) (g : grid_like) (name : string) : option Var :=
  match Dict.get g reg with
  | Some inner => Dict.get name inner
  | None => None
  end.

(** [variable_state(grid_var, state)] *)
Definition variable_state (em : EquationManager.t) (grid_var : list (grid_like * string))
    (state : vec) : result (list vec) :=
  rmap (fun item =>
          ind <- DofManager.dof_ind (dof_manager (_assembler em)) item.1 item.2 ;;
          Np.take_indices state ind)
       grid_var.

End Registry.

(** ** The entities of a bucket, as the registry sees them *)

(** The nodes and the edges of a bucket in the order of the two loops of
    [_set_variables], each with the number of mortar cells that is passed to
    the constructor of its variables and with its declaration of variables. *)
Definition entities (gb : GridBucket)
    : list (grid_like * option nat * option (Dict.t string (Dict.t string nat))) :=
  map (fun gd : Grid * node_data => (GNode gd.1, None, PRIMARY_VARIABLES gd.2))
    (gb_nodes gb)
  ++ map (fun ed : (Grid * Grid) * edge_data =>
            (GEdge ed.1.1 ed.1.2, Some (mortar_num_cells (mortar_grid ed.2)),
             e_PRIMARY_VARIABLES ed.2))
       (gb_edges gb).

(** The two loops of [_set_variables] as one loop over the entities. *)
Fixpoint set_entities (fresh : nat -> nat)
    (ents : list (grid_like * option nat * option (Dict.t string (Dict.t string nat))))
    (st : Registry.registry * nat) : result (Registry.registry * nat) :=
  match ents with
  | [] => Ok st
  | (g, num_cells, o) :: ents' =>
      vars <- Gb.required "primary_variables" o ;;
      set_entities fresh ents' (Registry.register_entity fresh g num_cells vars st)
  end.

(** The number of variables that an entity declares. *)
Definition num_declared (o : option (Dict.t string (Dict.t string nat))) : nat :=
  match o with Some vars => length vars | None => 0 end.

(** ** A small instance *)

Module Example.
Import DofManager.

(** A small bucket: a grid with a cell and a face variable, a grid without
    variables, and the interface between them with a mortar variable. *)
Definition example_g1 : Grid := {| g_id := 1; num_cells := 4; num_faces := 10; num_nodes := 9 |}.
Definition example_g2 : Grid := {| g_id := 2; num_cells := 2; num_faces := 3; num_nodes := 4 |}.
Definition example_flux_matrix : spmatrix :=
  {| nrows := 2; ncols := 4; entries := [(0, 0, 1%Z); (0, 1, (-1)%Z); (1, 2, 2%Z)] |}.
Definition example_gb : GridBucket :=
  {| gb_nodes :=
       [ (example_g1,
          {| PRIMARY_VARIABLES :=
               Some [("pressure", [("cells", 1)]); ("flux", [("faces", 1)])];
             PARAMETERS := None;
             DISCRETIZATION_MATRICES := Some [("flow", [("flux", example_flux_matrix)])] |});
         (example_g2,
          {| PRIMARY_VARIABLES := None;
             PARAMETERS := None; DISCRETIZATION_MATRICES := None |}) ];
     gb_edges :=
       [ ((example_g1, example_g2),
          {| e_PRIMARY_VARIABLES := Some [("mortar_flux", [("cells", 1); ("faces", 3)])];
             mortar_grid := {| mortar_num_cells := 4 |};
             e_PARAMETERS := None; e_DISCRETIZATION_MATRICES := None |}) ] |}.

(** The bucket [example_gb] with an empty declaration of variables on the
    second grid: every node and edge has a declaration, as the constructor of
    the manager requires, and the layout is the one of [example_gb]. *)
Definition example_gb_all : GridBucket :=
  {| gb_nodes :=
       [ (example_g1,
          {| PRIMARY_VARIABLES :=
               Some [("pressure", [("cells", 1)]); ("flux", [("faces", 1)])];
             PARAMETERS := None;
             DISCRETIZATION_MATRICES := Some [("flow", [("flux", example_flux_matrix)])] |});
         (example_g2,
          {| PRIMARY_VARIABLES := Some [];
             PARAMETERS := None; DISCRETIZATION_MATRICES := None |}) ];
     gb_edges :=
       [ ((example_g1, example_g2),
          {| e_PRIMARY_VARIABLES := Some [("mortar_flux", [("cells", 1); ("faces", 3)])];
             mortar_grid := {| mortar_num_cells := 4 |};
             e_PARAMETERS := None; e_DISCRETIZATION_MATRICES := None |}) ] |}.

(** A bucket in which every node and edge declares its variables: the first
    grid with its pressure, and no interface. *)
Definition example_gb_single : GridBucket :=
  {| gb_nodes :=
       [ (example_g1,
          {| PRIMARY_VARIABLES := Some [("pressure", [("cells", 1)])];
             PARAMETERS := None; DISCRETIZATION_MATRICES := None |}) ];
     gb_edges := [] |}.

(** The seed of the [i]-th variable: its slice of the state and the identity
    on its own columns of the local column space. *)
Fixpoint seeds (off total : nat) (slices : list vec) : list value :=
  match slices with
  | [] => []
  | s :: slices' =>
      VAd s {| nrows := length s; ncols := total;
               entries := map (fun r => (r, off + r, 1%Z)) (seq 0 (length s)) |}
      :: seeds (off + length s) total slices'
  end.

(** [M * v] for a sparse matrix and a vector. *)
Definition matvec (M : spmatrix) (v : vec) : vec :=
  map (fun r =>
         Sparse.sumZ (map (fun e : nat * nat * Z =>
           if decide (e.1.1 = r) then (e.2 * nth e.1.2 v 0)%Z else 0%Z) (entries M)))
      (seq 0 (nrows M)).

(** Modelled from the spec: an instance of the arithmetic, of
    [forward_mode.initAdArrays] and of the divergence matrices, none of which
    is part of the two files. Dual values are seeded with "the identity
    restricted to that variable's local column range and zero elsewhere";
    sums and differences add and subtract values and Jacobians; a constant
    matrix multiplies the value and the Jacobian from the left; numbers are
    multiplied as numbers. Everything else is left out and raises. *)
Definition numerics : Numerics :=
  {| py_add := fun a b =>
       match a, b with
       | VAd v1 j1, VAd v2 j2 =>
           if decide (length v1 = length v2 /\ nrows j1 = nrows j2 /\ ncols j1 = ncols j2)
           then Ok (VAd (zip_with Z.add v1 v2)
                      {| nrows := nrows j1; ncols := ncols j1;
                         entries := entries j1 ++ entries j2 |})
           else Raise (ValueError "operands could not be broadcast together")
       | VNum x, VNum y => Ok (VNum (x + y))
       | _, _ => Raise (TypeError "unsupported operand")
       end;
     py_sub := fun a b =>
       match a, b with
       | VAd v1 j1, VAd v2 j2 =>
           if decide (length v1 = length v2 /\ nrows j1 = nrows j2 /\ ncols j1 = ncols j2)
           then Ok (VAd (zip_with Z.sub v1 v2)
                      {| nrows := nrows j1; ncols := ncols j1;
                         entries := entries j1
                                    ++ map (fun e => (e.1, (- e.2)%Z)) (entries j2) |})
           else Raise (ValueError "operands could not be broadcast together")
       | VNum x, VNum y => Ok (VNum (x - y))
       | _, _ => Raise (TypeError "unsupported operand")
       end;
     py_mul := fun a b =>
       match a, b with
       | VNum x, VNum y => Ok (VNum (x * y))
       | VMat M, VAd v j =>
           if decide (ncols M = length v) then
             jac <- Sparse.mul M j ;; Ok (VAd (matvec M v) jac)
           else Raise (ValueError "dimension mismatch")
       | _, _ => Raise (TypeError "unsupported operand")
       end;
     py_div := fun _ _ => Raise (TypeError "unsupported operand");
     py_call := fun _ _ => Raise (TypeError "object is not callable");
     initAdArrays := fun slices =>
       Ok (seeds 0 (sum_list (map (@length Z) slices)) slices);
     scalar_divergence := fun g =>
       {| nrows := num_cells g; ncols := num_faces g; entries := [] |};
     vector_divergence := fun g =>
       {| nrows := num_cells g; ncols := num_faces g; entries := [] |} |}.

(** The variables of [example_gb]. *)
Definition pressure : Var :=
  {| var_name := "pressure"; var_id := 0; var_g := GNode example_g1 |}.
Definition flux : Var :=
  {| var_name := "flux"; var_id := 1; var_g := GNode example_g1 |}.
Definition mortar_flux : Var :=
  {| var_name := "mortar_flux"; var_id := 2; var_g := GEdge example_g1 example_g2 |}.

(** A leaf: no children, and a tag that is none of the five operations. *)
Definition leaf (cls : OperatorClass) : Operator := Node cls (Operation.other 0) [].
Definition binary (_op : Operation.t) (a b : Operator) : Operator := Node IsOperator _op [a; b].

(** [mortar_flux + pressure] and [pressure - pressure] *)
Definition tree1 : Operator :=
  binary Operation.add (leaf (IsVariable mortar_flux)) (leaf (IsVariable pressure)).
Definition tree2 : Operator :=
  binary Operation.sub (leaf (IsVariable pressure)) (leaf (IsVariable pressure)).

(** The equation objects of the two trees, as the constructor leaves them. *)
Definition eq1 : Equation.t :=
  {| Equation._operator := tree1;
     Equation.name := Some "eq1";
     Equation._variable_dofs := [[0; 1; 2; 3]; [14; 15; 16; 17]];
     Equation._variable_ids := [0; 2];
     Equation._stored_matrices := [];
     Equation._ad := None |}.
Definition eq2 : Equation.t :=
  {| Equation._operator := tree2;
     Equation.name := None;
     Equation._variable_dofs := [[0; 1; 2; 3]];
     Equation._variable_ids := [0];
     Equation._stored_matrices := [];
     Equation._ad := None |}.

(** [flux_operator * pressure], with the flux matrix of the discretization
    ["flow"] on the first grid. *)
Definition flux_operator : MergedOperator :=
  {| mo_ref := 0;
     grid_discr := [(GNode example_g1,
                     {| keyword := "flow"; matrix_keys := [("flux_matrix_key", "flux")] |})];
     key := "flux";
     mat_dict_key := None |}.
Definition tree3 : Operator :=
  binary Operation.mul (leaf (IsMergedOperator flux_operator)) (leaf (IsVariable pressure)).
Definition eq3 : Equation.t :=
  {| Equation._operator := tree3;
     Equation.name := Some "eq3";
     Equation._variable_dofs := [[0; 1; 2; 3]];
     Equation._variable_ids := [0];
     Equation._stored_matrices := [];
     Equation._ad := None |}.

Definition example_store : EquationManager.store :=
  fun a => if decide (a = 0) then eq1 else if decide (a = 1) then eq2 else eq3.

(** The manager that the constructor returns for [example_gb_all] and the
    equations of [example_store], the third one listed twice. *)
Definition example_em : EquationManager.t :=
  EquationManager.attributes example_gb_all (Some [0; 1; 2; 2]).

Definition example_state : vec :=
  [1; 2; 3; 4; 0; 0; 0; 0; 0; 0; 0; 0; 0; 0; 10; 20; 30; 40]%Z.

End Example.

(** ** Relations between caches, equations and stores *)

Module Rel.
Import Equation.

(** [c'] agrees with [c] where [c] has an entry, and what [c'] has beyond [c]
    is what the matrix store gives. *)
Definition cache_le (gb : GridBucket) (c c' : cache) : Prop :=
  forall mo,
    match Dict.get mo c with
    | Some m => Dict.get mo c' = Some m
    | None => forall m, Dict.get mo c' = Some m -> merged_matrix gb mo = Ok m
    end.

(** The order that [sorted] sorts by. *)
Definition id_le (x y : var_leaf) : Prop := leaf_id x <= leaf_id y.

(** An evaluation step respects [cache_le]: from related caches it gives the
    same result and related caches. It extends the cache it starts from. *)
Definition respects {A B} (gb : GridBucket)
    (f : A -> cache -> result B * cache) (x : A) : Prop :=
  forall c c', cache_le gb c c' ->
    (f x c).1 = (f x c').1 /\ cache_le gb (f x c).2 (f x c').2.

Definition extends {A B} (gb : GridBucket)
    (f : A -> cache -> result B * cache) (x : A) : Prop :=
  forall c, cache_le gb c (f x c).2.

(** The fields of an equation that are set by the constructor and read by
    the evaluation. *)
Definition same_frame (eq eq' : Equation.t) : Prop :=
  _operator eq' = _operator eq /\
  name eq' = name eq /\
  _variable_dofs eq' = _variable_dofs eq /\
  _variable_ids eq' = _variable_ids eq.

(** No field other than the matrix cache differs. *)
Definition unchanged_but_cache (eq eq' : Equation.t) : Prop :=
  same_frame eq eq' /\ _ad eq' = _ad eq.

Definition eq_le (gb : GridBucket) (eq eq' : Equation.t) : Prop :=
  same_frame eq eq' /\ cache_le gb (_stored_matrices eq) (_stored_matrices eq').

Definition store_le (gb : GridBucket) (h h' : EquationManager.store) : Prop :=
  forall a, eq_le gb (h a) (h' a).

End Rel.

(** * Properties *)

(** ** Dictionaries *)

Module DictFacts.
Section dict.
Context {K V : Type} `{EqDecision K}.
Implicit Types (k : K) (v : V) (d : Dict.t K V).
Import Dict.

Lemma get_set_eq k v d : get k (set k v d) = Some v.
Proof.
  induction d as [|[k' v'] d IH]; simpl.
  - by rewrite decide_True.
  - destruct (decide (k = k')) as [->|Hne]; simpl.
    + by rewrite decide_True.
    + by rewrite decide_False.
Qed.

Lemma get_set_ne k k' v d : k <> k' -> get k' (set k v d) = get k' d.
Proof.
  intros Hne. induction d as [|[k0 v0] d IH]; simpl.
  - by rewrite decide_False.
  - destruct (decide (k = k0)) as [->|Hne0]; simpl.
    + by rewrite !decide_False.
    + destruct (decide (k' = k0)); auto.
Qed.

Lemma get_None k d : get k d = None <-> k ∉ keys d.
Proof.
  unfold keys. induction d as [|[k' v'] d IH]; simpl.
  - split; [intros _; apply not_elem_of_nil | done].
  - rewrite not_elem_of_cons. destruct (decide (k = k')) as [->|Hne].
    + split; [done | intros [? _]; done].
    + rewrite IH. tauto.
Qed.

Lemma set_fresh k v d : k ∉ keys d -> set k v d = d ++ [(k, v)].
Proof.
  unfold keys. induction d as [|[k' v'] d IH]; simpl; [done|].
  rewrite not_elem_of_cons. intros [Hne Hnin].
  rewrite decide_False by done. by rewrite IH.
Qed.

Lemma get_app_fresh k d d' : k ∉ keys d -> get k (d ++ d') = get k d'.
Proof.
  unfold keys. induction d as [|[k' v'] d IH]; simpl; [done|].
  rewrite not_elem_of_cons. intros [Hne Hnin].
  rewrite decide_False by done. auto.
Qed.

Lemma get_app_l k v d d' : get k d = Some v -> get k (d ++ d') = Some v.
Proof.
  induction d as [|[k' v'] d IH]; simpl; [done|].
  destruct (decide (k = k')); auto.
Qed.
End dict.
End DictFacts.

(** ** The block layout built by [DofManager.__init__] *)

Module DofManagerFacts.
Import DofManager.

Lemma node_body_assign st gd : node_body st gd = assign_all (node_declared gd) st.
Proof.
  destruct gd as [g d]. unfold node_body, node_declared, assign_all. simpl.
  destruct (PRIMARY_VARIABLES d) as [vars|]; [|done].
  revert st. induction vars as [|[v ld] vars IH]; intros st; simpl; [done|].
  apply IH.
Qed.

Lemma edge_body_assign st ed : edge_body st ed = assign_all (edge_declared ed) st.
Proof.
  destruct ed as [[g1 g2] d]. unfold edge_body, edge_declared, assign_all. simpl.
  destruct (e_PRIMARY_VARIABLES d) as [vars|]; [|done].
  revert st. induction vars as [|[v ld] vars IH]; intros st; simpl; [done|].
  apply IH.
Qed.

Lemma assign_all_app l1 l2 st : assign_all (l1 ++ l2) st = assign_all l2 (assign_all l1 st).
Proof. unfold assign_all. apply fold_left_app. Qed.

Lemma fold_node_body nodes st :
  fold_left node_body nodes st = assign_all (flat_map node_declared nodes) st.
Proof.
  revert st. induction nodes as [|gd nodes IH]; intros st; simpl; [done|].
  by rewrite IH, assign_all_app, node_body_assign.
Qed.

Lemma fold_edge_body edges st :
  fold_left edge_body edges st = assign_all (flat_map edge_declared edges) st.
Proof.
  revert st. induction edges as [|ed edges IH]; intros st; simpl; [done|].
  by rewrite IH, assign_all_app, edge_body_assign.
Qed.

Lemma init_assign_all gb :
  init gb =
    let st := assign_all (declared gb)
                {| block_dof_counter := 0; b_block_dof := []; b_full_dof := [] |} in
    {| full_dof := b_full_dof st; block_dof := b_block_dof st |}.
Proof.
  unfold init, declared. simpl.
  by rewrite fold_node_body, fold_edge_body, assign_all_app.
Qed.

(** Assigning a list of pairwise distinct fresh keys appends them, numbered
    consecutively from the current counter. *)
Lemma assign_all_spec decls st :
  NoDup (map fst decls) ->
  (forall k, k ∈ map fst decls -> k ∉ Dict.keys (b_block_dof st)) ->
  block_dof_counter (assign_all decls st) = block_dof_counter st + length decls /\
  b_block_dof (assign_all decls st)
    = b_block_dof st ++ zip (map fst decls) (seq (block_dof_counter st) (length decls)) /\
  b_full_dof (assign_all decls st) = b_full_dof st ++ map snd decls.
Proof.
  revert st. induction decls as [|[key sz] decls IH]; intros st Hnd Hfresh; simpl.
  - by rewrite Nat.add_0_r, !app_nil_r.
  - apply NoDup_cons in Hnd as [Hkey Hnd].
    assert (Hk : key ∉ Dict.keys (b_block_dof st)) by (apply Hfresh; simpl; left).
    destruct (IH (assign key sz st) Hnd) as (Hc & Hb & Hf).
    { intros k Hin. simpl. rewrite DictFacts.set_fresh by done.
      unfold Dict.keys. rewrite map_app. simpl.
      rewrite not_elem_of_app, not_elem_of_cons. split; [|split].
      - apply Hfresh. simpl. by right.
      - intros ->. done.
      - apply not_elem_of_nil. }
    unfold assign_all in *. simpl (fold_left _ (_ :: _) _).
    rewrite Hc, Hb, Hf. simpl. split; [lia|]. split.
    + rewrite DictFacts.set_fresh by done. rewrite <- app_assoc. simpl.
      by replace (block_dof_counter st + 1) with (S (block_dof_counter st)) by lia.
    + by rewrite <- app_assoc.
Qed.

Lemma init_spec gb :
  NoDup (map fst (declared gb)) ->
  full_dof (init gb) = map snd (declared gb) /\
  block_dof (init gb) = zip (map fst (declared gb)) (seq 0 (length (declared gb))).
Proof.
  intros Hnd. rewrite init_assign_all. simpl.
  destruct (assign_all_spec (declared gb)
              {| block_dof_counter := 0; b_block_dof := []; b_full_dof := [] |} Hnd)
    as (_ & Hb & Hf).
  { intros k _. apply not_elem_of_nil. }
  by rewrite Hb, Hf.
Qed.

Lemma get_zip_seq {K} `{EqDecision K} (keys : list K) (start k : nat) (key : K) :
  NoDup keys -> keys !! k = Some key ->
  Dict.get key (zip keys (seq start (length keys))) = Some (start + k).
Proof.
  revert start k. induction keys as [|key' keys IH]; intros start k Hnd Hk; [done|].
  apply NoDup_cons in Hnd as [Hnin Hnd]. simpl.
  destruct k as [|k]; simpl in Hk.
  - injection Hk as ->. rewrite decide_True by done. f_equal. lia.
  - rewrite decide_False.
    + rewrite (IH (S start) k Hnd Hk). f_equal. lia.
    + intros ->. apply Hnin. by eapply list_elem_of_lookup_2.
Qed.

Lemma keys_zip_seq {K} (keys : list K) (start : nat) :
  Dict.keys (zip keys (seq start (length keys))) = keys.
Proof.
  unfold Dict.keys. revert start. induction keys as [|key keys IH]; intros start; simpl; [done|].
  by rewrite IH.
Qed.

Lemma elem_of_keys_set {K V} `{EqDecision K} (k k' : K) (v : V) (d : Dict.t K V) :
  k ∈ Dict.keys (Dict.set k' v d) <-> k = k' \/ k ∈ Dict.keys d.
Proof.
  unfold Dict.keys. induction d as [|[k0 v0] d IH]; simpl.
  - rewrite list_elem_of_singleton. split; [auto|]. intros [?|H0]; [done|].
    by apply not_elem_of_nil in H0.
  - destruct (decide (k' = k0)) as [->|Hne]; simpl.
    + rewrite !elem_of_cons. tauto.
    + rewrite !elem_of_cons, IH. tauto.
Qed.

Lemma keys_assign_all decls st k :
  k ∈ Dict.keys (b_block_dof (assign_all decls st)) <->
  k ∈ Dict.keys (b_block_dof st) \/ k ∈ map fst decls.
Proof.
  revert st. induction decls as [|[key sz] decls IH]; intros st.
  - simpl. split; [auto|]. intros [?|H0]; [done|]. by apply not_elem_of_nil in H0.
  - unfold assign_all in *. simpl (fold_left _ (_ :: _) _). rewrite IH.
    simpl. rewrite elem_of_keys_set, elem_of_cons. tauto.
Qed.

Lemma keys_init gb k :
  k ∈ Dict.keys (block_dof (init gb)) <-> k ∈ map fst (declared gb).
Proof.
  rewrite init_assign_all. simpl. rewrite keys_assign_all. simpl.
  split; [|auto]. intros [H0|?]; [|done]. by apply not_elem_of_nil in H0.
Qed.

(** Keys declared by the nodes are grids, keys declared by the edges are
    pairs of grids. *)
Lemma elem_of_node_declared key nodes :
  key ∈ map fst (flat_map node_declared nodes) ->
  exists g d vars name, key = (GNode g, name) /\ (g, d) ∈ nodes /\
    PRIMARY_VARIABLES d = Some vars /\ name ∈ Dict.keys vars.
Proof.
  intros Hin. apply list_elem_of_In, in_map_iff in Hin as ([key' sz] & <- & Hin).
  apply in_flat_map in Hin as ([g d] & Hgd & Hin).
  unfold node_declared in Hin. simpl in Hin.
  destruct (PRIMARY_VARIABLES d) as [vars|] eqn:Hv; [|done].
  apply in_map_iff in Hin as ([name ld] & Heq & Hin). simpl in Heq.
  injection Heq as <- <-. exists g, d, vars, name. repeat split; try done.
  - by apply list_elem_of_In.
  - unfold Dict.keys. apply list_elem_of_In, in_map_iff. by exists (name, ld).
Qed.

Lemma elem_of_edge_declared key edges :
  key ∈ map fst (flat_map edge_declared edges) ->
  exists g1 g2 d vars name, key = (GEdge g1 g2, name) /\ ((g1, g2), d) ∈ edges /\
    e_PRIMARY_VARIABLES d = Some vars /\ name ∈ Dict.keys vars.
Proof.
  intros Hin. apply list_elem_of_In, in_map_iff in Hin as ([key' sz] & <- & Hin).
  apply in_flat_map in Hin as ([[g1 g2] d] & Hgd & Hin).
  unfold edge_declared in Hin. simpl in Hin.
  destruct (e_PRIMARY_VARIABLES d) as [vars|] eqn:Hv; [|done].
  apply in_map_iff in Hin as ([name ld] & Heq & Hin). simpl in Heq.
  injection Heq as <- <-. exists g1, g2, d, vars, name. repeat split; try done.
  - by apply list_elem_of_In.
  - unfold Dict.keys. apply list_elem_of_In, in_map_iff. by exists (name, ld).
Qed.

Lemma node_declared_NoDup gd :
  vars_wf (PRIMARY_VARIABLES gd.2) -> NoDup (map fst (node_declared gd)).
Proof.
  unfold node_declared, vars_wf. destruct (PRIMARY_VARIABLES gd.2) as [vars|]; [|constructor].
  intros Hnd. rewrite map_map. simpl.
  unfold Dict.keys in Hnd.
  rewrite <- (map_map fst (fun name => (GNode gd.1, name))).
  by apply (NoDup_fmap_2 (fun name => (GNode gd.1, name))).
Qed.

Lemma edge_declared_NoDup ed :
  vars_wf (e_PRIMARY_VARIABLES ed.2) -> NoDup (map fst (edge_declared ed)).
Proof.
  unfold edge_declared, vars_wf. destruct (e_PRIMARY_VARIABLES ed.2) as [vars|]; [|constructor].
  intros Hnd. rewrite map_map. simpl. unfold Dict.keys in Hnd.
  rewrite <- (map_map fst (fun name => (GEdge ed.1.1 ed.1.2, name))).
  by apply (NoDup_fmap_2 (fun name => (GEdge ed.1.1 ed.1.2, name))).
Qed.

Lemma nodes_declared_NoDup nodes :
  NoDup (map fst nodes) ->
  Forall (fun gd => vars_wf (PRIMARY_VARIABLES gd.2)) nodes ->
  NoDup (map fst (flat_map node_declared nodes)).
Proof.
  induction nodes as [|[g d] nodes IH]; simpl; intros Hnd Hwf; [constructor|].
  apply NoDup_cons in Hnd as [Hg Hnd]. apply Forall_cons in Hwf as [Hd Hwf].
  rewrite map_app. apply NoDup_app. split; [by apply node_declared_NoDup|].
  split; [|by apply IH].
  intros key Hin1 Hin2.
  apply elem_of_node_declared in Hin2 as (g' & d' & vars' & name' & -> & Hin2 & _).
  assert (Hin1' : (GNode g', name') ∈ map fst (flat_map node_declared [(g, d)])).
  { simpl. by rewrite app_nil_r. }
  apply elem_of_node_declared in Hin1' as (g0 & d0 & vars0 & name0 & Heq & Hin0 & _).
  injection Heq as -> ->. apply list_elem_of_singleton in Hin0. injection Hin0 as -> ->.
  apply Hg. apply list_elem_of_In, in_map_iff. exists (g, d'). split; [done|].
  by apply list_elem_of_In.
Qed.

Lemma edges_declared_NoDup edges :
  NoDup (map fst edges) ->
  Forall (fun ed => vars_wf (e_PRIMARY_VARIABLES ed.2)) edges ->
  NoDup (map fst (flat_map edge_declared edges)).
Proof.
  induction edges as [|[[g1 g2] d] edges IH]; simpl; intros Hnd Hwf; [constructor|].
  apply NoDup_cons in Hnd as [Hg Hnd]. apply Forall_cons in Hwf as [Hd Hwf].
  rewrite map_app. apply NoDup_app. split; [by apply edge_declared_NoDup|].
  split; [|by apply IH].
  intros key Hin1 Hin2.
  apply elem_of_edge_declared in Hin2 as (h1 & h2 & d' & vars' & name' & -> & Hin2 & _).
  assert (Hin1' : (GEdge h1 h2, name') ∈ map fst (flat_map edge_declared [((g1, g2), d)])).
  { simpl. by rewrite app_nil_r. }
  apply elem_of_edge_declared in Hin1' as (k1 & k2 & d0 & vars0 & name0 & Heq & Hin0 & _).
  injection Heq as -> -> ->. apply list_elem_of_singleton in Hin0. injection Hin0 as -> -> ->.
  apply Hg. apply list_elem_of_In, in_map_iff. exists ((g1, g2), d'). split; [done|].
  by apply list_elem_of_In.
Qed.

Lemma declared_NoDup gb : gb_wf gb -> NoDup (map fst (declared gb)).
Proof.
  intros [Hn He Hnv Hev]. unfold declared. rewrite map_app. apply NoDup_app.
  split; [by apply nodes_declared_NoDup|]. split; [|by apply edges_declared_NoDup].
  intros key Hin1 Hin2.
  apply elem_of_node_declared in Hin1 as (g & d & vars & name & -> & _).
  apply elem_of_edge_declared in Hin2 as (g1 & g2 & d' & vars' & name' & Heq & _).
  discriminate.
Qed.

(** *** Offsets *)

Lemma cumsum_from_lookup acc l b :
  b <= length l ->
  (acc :: cumsum_from acc l) !! b = Some (acc + sum_list (take b l)).
Proof.
  revert acc b. induction l as [|x l IH]; intros acc b Hb; simpl in *.
  - assert (b = 0) as -> by lia. simpl. f_equal. lia.
  - destruct b as [|b]; simpl; [f_equal; lia|].
    rewrite (IH (acc + x) b) by lia. f_equal. lia.
Qed.

Lemma dof_start_lookup fd b :
  b <= length fd -> (0 :: cumsum fd) !! b = Some (sum_list (take b fd)).
Proof. intros Hb. unfold cumsum. by rewrite cumsum_from_lookup. Qed.

Lemma elem_of_arange a b i : i ∈ arange a b <-> a <= i < b.
Proof. unfold arange. rewrite elem_of_seq. lia. Qed.

Lemma sum_list_take_S (l : list nat) b x :
  l !! b = Some x -> sum_list (take (b + 1) l) = sum_list (take b l) + x.
Proof.
  revert b. induction l as [|y l IH]; intros b Hb; [done|].
  destruct b as [|b]; simpl in *.
  - injection Hb as ->. lia.
  - rewrite (IH b Hb). lia.
Qed.

Lemma sum_list_take_le (l : list nat) b : sum_list (take b l) <= sum_list l.
Proof.
  revert b. induction l as [|y l IH]; intros b; [by rewrite take_nil|].
  destruct b as [|b]; simpl; [lia|]. specialize (IH b). lia.
Qed.

Lemma dof_ind_block dm g name b :
  Dict.get (g, name) (block_dof dm) = Some b -> b < length (full_dof dm) ->
  dof_ind dm g name
    = Ok (arange (sum_list (take b (full_dof dm))) (sum_list (take (b + 1) (full_dof dm)))).
Proof.
  intros Hget Hb. unfold dof_ind. rewrite Hget.
  by rewrite !dof_start_lookup by lia.
Qed.

Lemma concat_ranges_from off sizes :
  concat (ranges_from off sizes) = seq off (sum_list sizes).
Proof.
  revert off. induction sizes as [|x sizes IH]; intros off; simpl; [done|].
  by rewrite IH, seq_app.
Qed.

Lemma ranges_from_lookup off sizes b x :
  sizes !! b = Some x ->
  ranges_from off sizes !! b = Some (seq (off + sum_list (take b sizes)) x).
Proof.
  revert off b. induction sizes as [|y sizes IH]; intros off b Hb; [done|].
  destruct b as [|b]; simpl in *.
  - injection Hb as ->. by rewrite Nat.add_0_r.
  - rewrite (IH (off + y) b Hb). do 2 f_equal. lia.
Qed.

Lemma length_ranges_from off sizes : length (ranges_from off sizes) = length sizes.
Proof. revert off. induction sizes; intros; simpl; auto. Qed.

Lemma rmap_Ok_lookup {A B} (f : A -> result B) (l : list A) (l' : list B) :
  length l = length l' ->
  (forall k x, l !! k = Some x -> exists y, l' !! k = Some y /\ f x = Ok y) ->
  rmap f l = Ok l'.
Proof.
  revert l'. induction l as [|x l IH]; intros [|y l'] Hlen H; simpl in *; try done.
  destruct (H 0 x eq_refl) as (y' & Hy & ->). simpl in Hy. injection Hy as ->.
  simpl. rewrite (IH l'); [done|lia|].
  intros k x' Hk. apply (H (S k) x' Hk).
Qed.

Lemma NoDup_fst_agree {A B} (l : list (A * B)) a b b' :
  NoDup (map fst l) -> (a, b) ∈ l -> (a, b') ∈ l -> b = b'.
Proof.
  induction l as [|[a0 b0] l IH]; simpl; intros Hnd H1 H2.
  - by apply not_elem_of_nil in H1.
  - apply NoDup_cons in Hnd as [Hnin Hnd].
    assert (Hfst : forall y, (a0, y) ∈ l -> False).
    { intros y Hy. apply Hnin. apply list_elem_of_In, in_map_iff.
      exists (a0, y). split; [done|]. by apply list_elem_of_In. }
    apply elem_of_cons in H1 as [H1|H1]; apply elem_of_cons in H2 as [H2|H2].
    + congruence.
    + injection H1 as -> ->. by destruct (Hfst b').
    + injection H2 as -> ->. by destruct (Hfst b).
    + by apply IH.
Qed.

Lemma declared_block gb k key size :
  gb_wf gb -> declared gb !! k = Some (key, size) ->
  Dict.get key (block_dof (init gb)) = Some k /\ full_dof (init gb) !! k = Some size.
Proof.
  intros Hwf Hk. destruct (init_spec gb (declared_NoDup gb Hwf)) as [Hf Hb].
  rewrite Hf, Hb. split.
  - rewrite <- (length_map fst).
    rewrite (get_zip_seq _ 0 k key); [done|by apply declared_NoDup|].
    change (map fst (declared gb)) with (fst <$> declared gb).
    by rewrite list_lookup_fmap, Hk.
  - change (map snd (declared gb)) with (snd <$> declared gb).
    by rewrite list_lookup_fmap, Hk.
Qed.

Lemma example_gb_wf : gb_wf Example.example_gb.
Proof.
  split; simpl.
  - apply NoDup_cons. split; [|apply NoDup_singleton].
    rewrite list_elem_of_singleton. discriminate.
  - apply NoDup_singleton.
  - repeat constructor; simpl.
    + rewrite list_elem_of_singleton. discriminate.
    + apply not_elem_of_nil.
  - repeat constructor. apply not_elem_of_nil.
Defined.

End DofManagerFacts.

(** ** The arithmetic of the int64 array, below the bound *)

Module Int64Facts.
Import DofManager DofManagerFacts.

Lemma wrap_int64_id z : (- 2 ^ 63 <= z < 2 ^ 63)%Z -> wrap_int64 z = z.
Proof.
  intros Hz. unfold wrap_int64.
  change (2 ^ 63)%Z with 9223372036854775808%Z in *.
  change (2 ^ 64)%Z with 18446744073709551616%Z.
  rewrite Z.mod_small by lia. lia.
Qed.

Lemma cumsum_int64_from_fits acc l :
  (Z.of_nat (acc + sum_list l) < 2 ^ 63)%Z ->
  cumsum_int64_from (Z.of_nat acc) l = map Z.of_nat (cumsum_from acc l).
Proof.
  revert acc. induction l as [|x l IH]; intros acc Hfit; [done|].
  cbn [cumsum_int64_from cumsum_from map]. cbn [sum_list sum_list_with] in Hfit.
  change (id x) with x in Hfit.
  assert (Hx : wrap_int64 (Z.of_nat acc + Z.of_nat x) = Z.of_nat (acc + x)).
  { rewrite wrap_int64_id; [lia|].
    change (2 ^ 63)%Z with 9223372036854775808%Z in *. lia. }
  rewrite Hx. f_equal. apply IH.
  replace (acc + x + sum_list l) with (acc + (x + sum_list l)) by lia. done.
Qed.

(** Below the bound the cumulative sums of the array are those of the
    natural numbers. *)
Lemma cumsum_int64_fits l :
  fits_int64 l -> cumsum_int64 l = map Z.of_nat (cumsum l).
Proof. intros Hfit. by apply (cumsum_int64_from_fits 0). Qed.

Lemma sum_int64_from_fits acc l :
  (Z.of_nat (acc + sum_list l) < 2 ^ 63)%Z ->
  fold_left (fun a x => wrap_int64 (a + Z.of_nat x)) l (Z.of_nat acc)
  = Z.of_nat (acc + sum_list l).
Proof.
  revert acc. induction l as [|x l IH]; intros acc Hfit.
  - cbn [fold_left sum_list sum_list_with]. f_equal. lia.
  - cbn [fold_left]. cbn [sum_list sum_list_with] in *. change (id x) with x in *.
    assert (Hx : wrap_int64 (Z.of_nat acc + Z.of_nat x) = Z.of_nat (acc + x)).
    { rewrite wrap_int64_id; [lia|].
      change (2 ^ 63)%Z with 9223372036854775808%Z in *. lia. }
    rewrite Hx, IH; [f_equal; lia|].
    replace (acc + x + sum_list l) with (acc + (x + sum_list l)) by lia. done.
Qed.

(** Below the bound [full_dof.sum()] is the sum of the sizes. *)
Lemma sum_int64_fits l : fits_int64 l -> sum_int64 l = Z.of_nat (sum_list l).
Proof. intros Hfit. by apply (sum_int64_from_fits 0). Qed.

Lemma arange_int64_of_nat a b :
  arange_int64 (Z.of_nat a) (Z.of_nat b) = map Z.of_nat (arange a b).
Proof.
  unfold arange_int64, arange.
  replace (Z.to_nat (Z.of_nat b - Z.of_nat a)) with (b - a) by lia.
  generalize (b - a). intros n. revert a. induction n as [|n IH]; intros a; [done|].
  cbn [seq map]. f_equal; [lia|].
  rewrite <- (IH (S a)), <- (seq_shift n 0), map_map.
  apply map_ext. intros i. lia.
Qed.

(** Below the bound [dof_ind] returns, as 64-bit integers, the indices that
    the sums over the natural numbers give; it raises what they raise. *)
Lemma dof_ind_int64_fits dm g name :
  fits_int64 (full_dof dm) ->
  dof_ind_int64 dm g name
  = match dof_ind dm g name with
    | Ok ind => Ok (map Z.of_nat ind)
    | Raise e => Raise e
    end.
Proof.
  intros Hfit. unfold dof_ind_int64, dof_ind.
  destruct (Dict.get (g, name) (block_dof dm)) as [b|]; [|done].
  rewrite (cumsum_int64_fits _ Hfit).
  change (0%Z :: map Z.of_nat (cumsum (full_dof dm)))
    with (Z.of_nat <$> (0 :: cumsum (full_dof dm))).
  rewrite !list_lookup_fmap.
  destruct ((0 :: cumsum (full_dof dm)) !! b) as [lo|]; [|done]. cbn [fmap option_fmap option_map].
  destruct ((0 :: cumsum (full_dof dm)) !! (b + 1)) as [hi|]; [|done].
  cbn [fmap option_fmap option_map]. by rewrite arange_int64_of_nat.
Qed.

(** Beyond the bound the sums wrap around: with blocks of 3, [2^63 - 1],
    [2^63 - 1] and 2 dofs the offsets are 0, 3, [-2^63 + 2], 1 and 3, and the
    range of the last block, 1 and 2, lies inside the range of the first. *)
Lemma cumsum_int64_wraps :
  let big := Z.to_nat (2 ^ 63 - 1) in
  cumsum_int64 [3; big; big; 2] = [3; - 2 ^ 63 + 2; 1; 3]%Z /\
  arange_int64 1 3 = [1; 2]%Z /\
  ~ fits_int64 [3; big; big; 2].
Proof.
  intros big.
  assert (Hbig : Z.of_nat big = (2 ^ 63 - 1)%Z) by (unfold big; by rewrite Z2Nat.id).
  clearbody big. split; [|split].
  - unfold cumsum_int64. cbn [cumsum_int64_from]. rewrite Hbig. reflexivity.
  - reflexivity.
  - unfold fits_int64. cbn [sum_list sum_list_with]. unfold id.
    rewrite !Nat2Z.inj_add, Hbig.
    change (2 ^ 63)%Z with 9223372036854775808%Z. lia.
Qed.

Lemma rmap_int64_fits dm (keys : list (grid_like * string)) ranges :
  fits_int64 (full_dof dm) ->
  rmap (fun key => dof_ind dm key.1 key.2) keys = Ok ranges ->
  rmap (fun key => dof_ind_int64 dm key.1 key.2) keys = Ok (map (map Z.of_nat) ranges).
Proof.
  intros Hfit. revert ranges. induction keys as [|key keys IH]; intros ranges; simpl.
  - by intros [= <-].
  - rewrite (dof_ind_int64_fits dm key.1 key.2 Hfit).
    destruct (dof_ind dm key.1 key.2) as [ind|e]; [|done]. simpl.
    destruct (rmap _ keys) as [rs|e]; [|done]. simpl. intros [= <-].
    by rewrite (IH rs eq_refl).
Qed.

Lemma example_gb_fits : fits_int64 (full_dof (init Example.example_gb)).
Proof. by vm_compute. Defined.

Lemma example_gb_all_wf : gb_wf Example.example_gb_all.
Proof.
  split; simpl.
  - apply NoDup_cons. split; [|apply NoDup_singleton].
    rewrite list_elem_of_singleton. discriminate.
  - apply NoDup_singleton.
  - repeat constructor; simpl.
    + rewrite list_elem_of_singleton. discriminate.
    + apply not_elem_of_nil.
  - repeat constructor. apply not_elem_of_nil.
Defined.

Lemma example_gb_all_fits : fits_int64 (full_dof (init Example.example_gb_all)).
Proof. by vm_compute. Defined.

End Int64Facts.

(** ** Sparse matrices *)

Module SparseFacts.
Import Sparse.

Lemma sumZ_app l1 l2 : sumZ (l1 ++ l2) = (sumZ l1 + sumZ l2)%Z.
Proof. induction l1 as [|x l1 IH]; simpl; [done|]. rewrite IH. lia. Qed.

Lemma sumZ_zero {A} (f : A -> Z) l : (forall x, x ∈ l -> f x = 0%Z) -> sumZ (map f l) = 0%Z.
Proof.
  induction l as [|x l IH]; intros H; simpl; [done|].
  rewrite H by left. rewrite IH; [done|]. intros y Hy. apply H. by right.
Qed.

Lemma sumZ_ext {A} (f g : A -> Z) l :
  (forall x, x ∈ l -> f x = g x) -> sumZ (map f l) = sumZ (map g l).
Proof.
  induction l as [|x l IH]; intros H; simpl; [done|].
  rewrite H by left. rewrite IH; [done|]. intros y Hy. apply H. by right.
Qed.

Lemma at_pos_shift roff coff i j e :
  at_pos (roff + i) (coff + j) (shift roff coff e) = at_pos i j e.
Proof.
  unfold at_pos, shift. simpl.
  destruct (decide (e.1.1 = i /\ e.1.2 = j)) as [[-> ->]|Hne].
  - by rewrite decide_True.
  - rewrite decide_False; [done|]. intros [? ?]. apply Hne. lia.
Qed.

(** *** The scatter matrix *)

(** The triples of [coo_matrix((ones(n), (arange(n), idx)))], rows counted
    from [off]. *)
Lemma get_scatter_entries off idx i j :
  sumZ (map (at_pos i j)
          (zip (zip (seq off (length idx)) idx) (replicate (length idx) 1%Z)))
  = if decide (off <= i /\ idx !! (i - off) = Some j) then 1%Z else 0%Z.
Proof.
  revert off. induction idx as [|c idx IH]; intros off; simpl.
  - rewrite decide_False; [done|]. intros [_ ?]. done.
  - rewrite IH. unfold at_pos. simpl.
    destruct (decide (off = i)) as [->|Hne].
    + replace (i - i) with 0 by lia. simpl.
      rewrite (decide_False (P := S i <= i /\ _)) by lia.
      destruct (decide (c = j)) as [->|Hcj].
      * rewrite !decide_True; [lia| |]; auto.
      * rewrite !decide_False; [lia| |]; [intros [_ [=]]; done | intros [_ ?]; done].
    + rewrite (decide_False (P := off = i /\ _)) by (intros [? _]; done).
      destruct (decide (off <= i)) as [Hle|Hgt].
      * replace (i - off) with (S (i - S off)) by lia. simpl.
        destruct (decide (S off <= i /\ idx !! (i - S off) = Some j)) as [[? ?]|Hn].
        -- rewrite decide_True by done. lia.
        -- rewrite decide_False; [lia|]. intros [_ ?]. apply Hn. split; [lia|done].
      * rewrite !decide_False; [lia| |]; intros [? _]; lia.
Qed.

Lemma existsb_false {A} (f : A -> bool) l :
  existsb f l = false <-> Forall (fun x => f x = false) l.
Proof.
  induction l as [|x l IH]; simpl.
  - split; [constructor|done].
  - rewrite orb_false_iff, IH, Forall_cons. tauto.
Qed.

Lemma coo_scatter idx g :
  coo_matrix (Np.ones (length idx)) (DofManager.arange 0 (length idx)) idx (length idx, g)
  = if decide (Forall (fun c => c < g) idx)
    then Ok {| nrows := length idx; ncols := g;
               entries := zip (zip (seq 0 (length idx)) idx)
                              (replicate (length idx) 1%Z) |}
    else Raise (ValueError "column index exceeds matrix dimensions").
Proof.
  unfold coo_matrix, Np.ones, DofManager.arange. simpl.
  rewrite Nat.sub_0_r, length_seq, length_replicate, !Nat.eqb_refl. simpl.
  assert (Hrow : existsb (fun r => length idx <=? r) (seq 0 (length idx)) = false).
  { apply existsb_false, Forall_forall. intros r Hr.
    apply elem_of_seq in Hr. apply Nat.leb_gt. lia. }
  rewrite Hrow.
  destruct (decide (Forall (fun c => c < g) idx)) as [Hall|Hnall].
  - assert (Hcol : existsb (fun c => g <=? c) idx = false).
    { apply existsb_false. eapply Forall_impl; [exact Hall|].
      intros c Hc. simpl in Hc. apply Nat.leb_gt. lia. }
    by rewrite Hcol.
  - destruct (existsb (fun c => g <=? c) idx) eqn:Hcol; [done|].
    destruct Hnall. apply existsb_false in Hcol.
    eapply Forall_impl; [exact Hcol|]. intros c Hc. simpl in Hc. by apply Nat.leb_gt in Hc.
Qed.

(** *** Products *)

Lemma get_mul_entries A B r c :
  sumZ (map (at_pos r c) (mul_entries A B))
  = sumZ (map (fun ea =>
            if decide (ea.1.1 = r)
            then (ea.2 * sumZ (map (at_pos ea.1.2 c) B))%Z else 0%Z) A).
Proof.
  unfold mul_entries. induction A as [|ea A IH]; simpl; [done|].
  rewrite map_app, sumZ_app, IH. f_equal.
  clear IH. induction B as [|eb B IHB]; simpl.
  - destruct (decide (ea.1.1 = r)); lia.
  - rewrite map_app, sumZ_app, IHB. unfold at_pos at 1 3.
    destruct (decide (ea.1.2 = eb.1.1)) as [Hk|Hk]; simpl.
    + destruct (decide (ea.1.1 = r)) as [Hr|Hr].
      * destruct (decide (eb.1.2 = c)) as [Hc|Hc].
        -- rewrite !decide_True by (split; congruence). lia.
        -- rewrite !decide_False; [lia| |]; intros [? ?]; done.
      * rewrite decide_False; [lia|]. intros [? ?]; done.
    + rewrite (decide_False (P := eb.1.1 = ea.1.2 /\ _)) by (intros [? _]; congruence).
      destruct (decide (ea.1.1 = r)); lia.
Qed.

Lemma mul_wf A B C : wf A -> wf B -> mul A B = Ok C -> wf C.
Proof.
  unfold mul, wf. intros HA HB. destruct (decide (ncols A = nrows B)) as [Hd|Hd]; [|done].
  intros [= <-]. simpl. unfold mul_entries.
  apply Forall_forall. intros e He.
  apply list_elem_of_In, in_flat_map in He as (ea & Hea & He).
  apply in_flat_map in He as (eb & Heb & He).
  destruct (decide (ea.1.2 = eb.1.1)); [|done]. destruct He as [<-|[]]. simpl.
  rewrite Forall_forall in HA, HB.
  apply list_elem_of_In in Hea, Heb. specialize (HA _ Hea). specialize (HB _ Heb). lia.
Qed.

(** *** Stacked blocks *)

Lemma vstack_entries_ge roff blocks e :
  e ∈ vstack_entries roff blocks -> roff <= e.1.1.
Proof.
  revert roff. induction blocks as [|M blocks IH]; intros roff; simpl.
  - intros H. by apply not_elem_of_nil in H.
  - rewrite elem_of_app. intros [He|He].
    + apply list_elem_of_In, in_map_iff in He as (e0 & <- & _). simpl. lia.
    + apply IH in He. lia.
Qed.

Lemma get_vstack_entries roff blocks k M r c :
  Forall wf (take k blocks) -> blocks !! k = Some M -> r < nrows M ->
  sumZ (map (at_pos (roff + sum_list (map nrows (take k blocks)) + r) c)
          (vstack_entries roff blocks))
  = get M r c.
Proof.
  revert roff k. induction blocks as [|M0 blocks IH]; intros roff k Hwf Hk Hr; [done|].
  simpl. rewrite map_app, sumZ_app. destruct k as [|k]; simpl in *.
  - injection Hk as ->. rewrite Nat.add_0_r.
    rewrite (sumZ_zero _ (vstack_entries _ _)).
    + rewrite map_map, Z.add_0_r. unfold get. apply sumZ_ext. intros e _.
      apply (at_pos_shift roff 0 r c e).
    + intros e He. apply vstack_entries_ge in He. unfold at_pos.
      rewrite decide_False; [done|]. intros [? _]. lia.
  - apply Forall_cons in Hwf as [Hwf0 Hwf].
    rewrite (sumZ_zero _ (map _ _)).
    + rewrite <- (IH (roff + nrows M0) k Hwf Hk Hr). simpl.
      by replace (roff + (nrows M0 + sum_list (map nrows (take k blocks))) + r)
        with (roff + nrows M0 + sum_list (map nrows (take k blocks)) + r) by lia.
    + intros e He. apply list_elem_of_In, in_map_iff in He as (e0 & <- & He0).
      unfold wf in Hwf0. rewrite Forall_forall in Hwf0.
      apply list_elem_of_In in He0. specialize (Hwf0 _ He0).
      unfold at_pos, shift. simpl. rewrite decide_False; [done|]. intros [? _]. lia.
Qed.

Lemma bmat_column_Ok blocks M0 :
  blocks !! 0 = Some M0 -> Forall (fun M => ncols M = ncols M0) blocks ->
  bmat_column blocks
  = Ok {| nrows := sum_list (map nrows blocks); ncols := ncols M0;
          entries := vstack_entries 0 blocks |}.
Proof.
  destruct blocks as [|M blocks]; [done|]. simpl. intros [= ->] Hall.
  apply Forall_cons in Hall as [_ Hall].
  assert (H : forallb (fun M' => ncols M' =? ncols M0) blocks = true).
  { apply forallb_forall. intros M' HM'. rewrite Forall_forall in Hall.
    apply Nat.eqb_eq, Hall. by apply list_elem_of_In. }
  by rewrite H.
Qed.

(** The product with a scatter matrix moves every stored entry to the column
    that its own column is mapped to. *)
Lemma scatter_row_entries (idx : list nat) (off k r : nat) (v : Z) :
  flat_map (fun eb : nat * nat * Z =>
      if decide (k = eb.1.1) then [(r, eb.1.2, (v * eb.2)%Z)] else [])
    (zip (zip (seq off (length idx)) idx) (replicate (length idx) 1%Z))
  = if decide (off <= k)
    then match idx !! (k - off) with Some c => [(r, c, v)] | None => [] end
    else [].
Proof.
  revert off. induction idx as [|c idx IH]; intros off.
  - cbn [length seq zip zip_with replicate flat_map].
    rewrite lookup_nil. by destruct (decide (off <= k)).
  - cbn [length seq zip zip_with replicate flat_map fst snd]. rewrite IH.
    destruct (decide (k = off)) as [->|Hne].
    + rewrite decide_False by lia. rewrite decide_True by lia.
      rewrite Nat.sub_diag. cbn [lookup list_lookup]. by rewrite Z.mul_1_r.
    + destruct (decide (off <= k)) as [Hle|Hgt].
      * rewrite decide_True by lia.
        replace (k - off) with (S (k - S off)) by lia. done.
      * by rewrite decide_False by lia.
Qed.

Lemma mul_scatter_entries (A : list (nat * nat * Z)) (idx : list nat) :
  mul_entries A (zip (zip (seq 0 (length idx)) idx) (replicate (length idx) 1%Z))
  = flat_map (fun e : nat * nat * Z =>
      match idx !! e.1.2 with Some c => [(e.1.1, c, e.2)] | None => [] end) A.
Proof.
  unfold mul_entries. induction A as [|ea A IH]; [done|].
  cbn [flat_map]. rewrite IH. f_equal.
  rewrite (scatter_row_entries idx 0 ea.1.2 ea.1.1 ea.2).
  rewrite decide_True by lia. by rewrite Nat.sub_0_r.
Qed.

End SparseFacts.

(** ** Evaluation and the matrix cache *)

Module EvalFacts.
Import Equation Rel.

Lemma Operator_ind' (P : Operator -> Prop) :
  (forall cls _op ch, Forall P ch -> P (Node cls _op ch)) -> forall op, P op.
Proof.
  intros H. fix IH 1. intros [cls o ch]. apply H.
  induction ch as [|c ch IHch]; constructor; [apply IH | apply IHch].
Qed.

Lemma cache_le_refl gb c : cache_le gb c c.
Proof. intros mo. destruct (Dict.get mo c) eqn:E; [done|]. intros m Hm. congruence. Qed.

Lemma cache_le_trans gb c1 c2 c3 :
  cache_le gb c1 c2 -> cache_le gb c2 c3 -> cache_le gb c1 c3.
Proof.
  intros H12 H23 mo. specialize (H12 mo). specialize (H23 mo).
  destruct (Dict.get mo c1) as [m1|] eqn:E1.
  - by rewrite H12 in H23.
  - intros m Hm. destruct (Dict.get mo c2) as [m2|] eqn:E2.
    + rewrite H23 in Hm. injection Hm as <-. by apply H12.
    + by apply H23.
Qed.

Section parse.
Context (N : Numerics) (ad : Dict.t nat value) (gb : GridBucket).

Lemma smap_respects {A B} (f : A -> cache -> result B * cache) l :
  Forall (respects gb f) l -> respects gb (smap f) l.
Proof.
  induction l as [|x l IH]; intros Hall c c' Hle; simpl; [done|].
  apply Forall_cons in Hall as [Hx Hl].
  destruct (Hx c c' Hle) as [Hr Hc].
  destruct (f x c) as [r c1], (f x c') as [r' c1']. simpl in *. subst r'.
  destruct r as [y|e]; [|done].
  destruct (IH Hl c1 c1' Hc) as [Hrs Hcs].
  destruct (smap f l c1) as [rs c2], (smap f l c1') as [rs' c2']. simpl in *.
  by subst rs'.
Qed.

Lemma smap_extends {A B} (f : A -> cache -> result B * cache) l :
  Forall (extends gb f) l -> extends gb (smap f) l.
Proof.
  induction l as [|x l IH]; intros Hall c; simpl; [apply cache_le_refl|].
  apply Forall_cons in Hall as [Hx Hl]. specialize (Hx c).
  destruct (f x c) as [r c1]. simpl in *.
  destruct r as [y|e]; [|done].
  specialize (IH Hl c1). destruct (smap f l c1) as [rs c2]. simpl in *.
  by eapply cache_le_trans.
Qed.

Lemma composite_respects o ch :
  Forall (respects gb (_parse_operator N ad gb)) ch ->
  forall c c', cache_le gb c c' ->
    (composite N o (smap (_parse_operator N ad gb) ch c)).1
      = (composite N o (smap (_parse_operator N ad gb) ch c')).1 /\
    cache_le gb (composite N o (smap (_parse_operator N ad gb) ch c)).2
                (composite N o (smap (_parse_operator N ad gb) ch c')).2.
Proof.
  intros Hall c c' Hle. unfold composite.
  destruct (smap_respects _ ch Hall c c' Hle) as [Hr Hc].
  destruct (smap _ ch c) as [rs c1], (smap _ ch c') as [rs' c1'].
  simpl in *. by subst rs'.
Qed.

Lemma composite_extends o ch :
  Forall (extends gb (_parse_operator N ad gb)) ch ->
  forall c, cache_le gb c (composite N o (smap (_parse_operator N ad gb) ch c)).2.
Proof.
  intros Hall c. unfold composite.
  pose proof (smap_extends _ ch Hall c) as Hc.
  by destruct (smap _ ch c) as [rs c1].
Qed.

Lemma cache_le_set_l mo m c c' :
  cache_le gb c c' -> Dict.get mo c = None -> Dict.get mo c' = Some m ->
  cache_le gb (Dict.set mo m c) c'.
Proof.
  intros Hle Hc Hc' mo'. destruct (decide (mo = mo')) as [<-|Hne].
  - by rewrite DictFacts.get_set_eq.
  - rewrite DictFacts.get_set_ne by done. apply Hle.
Qed.

Lemma cache_le_set_both mo m c c' :
  cache_le gb c c' -> cache_le gb (Dict.set mo m c) (Dict.set mo m c').
Proof.
  intros Hle mo'. destruct (decide (mo = mo')) as [<-|Hne].
  - by rewrite !DictFacts.get_set_eq.
  - rewrite !DictFacts.get_set_ne by done. apply Hle.
Qed.

Lemma cache_le_set_r mo m c :
  Dict.get mo c = None -> merged_matrix gb mo = Ok m ->
  cache_le gb c (Dict.set mo m c).
Proof.
  intros Hc Hm mo'. destruct (decide (mo = mo')) as [<-|Hne].
  - rewrite Hc, DictFacts.get_set_eq. intros m' [= <-]. done.
  - rewrite !DictFacts.get_set_ne by done. apply cache_le_refl.
Qed.

Lemma stored_respects mo : respects gb (stored gb) mo.
Proof.
  intros c c' Hle. unfold stored. pose proof (Hle mo) as Hmo.
  destruct (Dict.get mo c) as [m|] eqn:Ec.
  - by rewrite Hmo.
  - destruct (Dict.get mo c') as [m'|] eqn:Ec'.
    + rewrite (Hmo m' eq_refl). simpl. split; [done|]. by apply cache_le_set_l.
    + destruct (merged_matrix gb mo) as [m|e]; simpl; [|done].
      split; [done|]. by apply cache_le_set_both.
Qed.

Lemma stored_extends mo : extends gb (stored gb) mo.
Proof.
  intros c. unfold stored.
  destruct (Dict.get mo c) as [m|] eqn:Ec; [apply cache_le_refl|].
  destruct (merged_matrix gb mo) as [m|e] eqn:Em; simpl; [|apply cache_le_refl].
  by apply cache_le_set_r.
Qed.

Lemma parse_respects op : respects gb (_parse_operator N ad gb) op.
Proof.
  induction op as [cls o ch IH] using Operator_ind'.
  intros c c' Hle. destruct cls; try done.
  - by destruct ch.
  - by destruct ch.
  - destruct ch as [|x ch']; [by apply stored_respects|].
    by apply composite_respects.
  - destruct ch as [|x ch']; [done|]. by apply composite_respects.
Qed.

Lemma parse_extends op : extends gb (_parse_operator N ad gb) op.
Proof.
  induction op as [cls o ch IH] using Operator_ind'.
  intros c. destruct cls; try apply cache_le_refl.
  - destruct ch; apply cache_le_refl.
  - destruct ch; apply cache_le_refl.
  - destruct ch as [|x ch']; [by apply stored_extends|].
    by apply composite_extends.
  - destruct ch as [|x ch']; [apply cache_le_refl|]. by apply composite_extends.
Qed.
End parse.

Section equation.
Context (N : Numerics) (gb : GridBucket) (state : vec).

Lemma same_frame_refl eq : same_frame eq eq.
Proof. by repeat split. Qed.

Lemma same_frame_trans eq1 eq2 eq3 :
  same_frame eq1 eq2 -> same_frame eq2 eq3 -> same_frame eq1 eq3.
Proof. intros (?&?&?&?) (?&?&?&?). repeat split; congruence. Qed.

Lemma eq_le_refl eq : eq_le gb eq eq.
Proof. split; [apply same_frame_refl | apply cache_le_refl]. Qed.

Lemma eq_le_trans eq1 eq2 eq3 : eq_le gb eq1 eq2 -> eq_le gb eq2 eq3 -> eq_le gb eq1 eq3.
Proof.
  intros [? ?] [? ?]. split; [by eapply same_frame_trans | by eapply cache_le_trans].
Qed.

(** [to_ad] leaves the tree, the name, the index arrays and the ids of
    the variables as they are. *)
Lemma to_ad_frame eq : same_frame eq (to_ad N eq gb state).2.
Proof.
  unfold to_ad.
  destruct (slices <- rmap (Np.take_indices state) (_variable_dofs eq);; initAdArrays N slices)
    as [ad_vars|e]; [|apply same_frame_refl].
  destruct (_parse_operator N _ gb (_operator eq) (_stored_matrices eq)) as [r c].
  by repeat split.
Qed.

Lemma to_ad_extends eq : eq_le gb eq (to_ad N eq gb state).2.
Proof.
  split; [apply to_ad_frame|]. unfold to_ad.
  destruct (slices <- rmap (Np.take_indices state) (_variable_dofs eq);; initAdArrays N slices)
    as [ad_vars|e]; [|apply cache_le_refl].
  pose proof (parse_extends N (dict_of_zip (_variable_ids eq) ad_vars) gb
                (_operator eq) (_stored_matrices eq)) as Hext.
  by destruct (_parse_operator N _ gb (_operator eq) (_stored_matrices eq)) as [r c].
Qed.

Lemma to_ad_respects eq eq' :
  eq_le gb eq eq' ->
  (to_ad N eq gb state).1 = (to_ad N eq' gb state).1 /\
  eq_le gb (to_ad N eq gb state).2 (to_ad N eq' gb state).2.
Proof.
  intros [(Hop & Hname & Hdofs & Hids) Hc]. unfold to_ad. rewrite Hop, Hdofs, Hids.
  destruct (slices <- rmap (Np.take_indices state) (_variable_dofs eq);; initAdArrays N slices)
    as [ad_vars|e].
  - destruct (parse_respects N (dict_of_zip (_variable_ids eq) ad_vars) gb (_operator eq)
                _ _ Hc) as [Hr Hc'].
    destruct (_parse_operator N _ gb (_operator eq) (_stored_matrices eq)) as [r c].
    destruct (_parse_operator N _ gb (_operator eq) (_stored_matrices eq')) as [r' c'].
    simpl in *. split; [done|]. by repeat split.
  - simpl. split; [done|]. by repeat split.
Qed.
End equation.

Section manager.
Import EquationManager.
Context (N : Numerics) (em : EquationManager.t) (state : vec).

Local Abbreviation gb' := (assembler_gb (_assembler em)).

Lemma equation_row_frame eq : same_frame eq (equation_row N em state eq).2.
Proof.
  unfold equation_row. pose proof (to_ad_frame N gb' state eq) as H.
  by destruct (to_ad N eq gb' state) as [r eq'].
Qed.

Lemma equation_row_extends eq : eq_le gb' eq (equation_row N em state eq).2.
Proof.
  unfold equation_row. pose proof (to_ad_extends N gb' state eq) as H.
  by destruct (to_ad N eq gb' state) as [r eq'].
Qed.

Lemma equation_row_respects eq eq' :
  eq_le gb' eq eq' ->
  (equation_row N em state eq).1 = (equation_row N em state eq').1 /\
  eq_le gb' (equation_row N em state eq).2 (equation_row N em state eq').2.
Proof.
  intros Hle. unfold equation_row.
  destruct (to_ad_respects N gb' state eq eq' Hle) as [Hr Hle'].
  destruct (to_ad N eq gb' state) as [r eq1], (to_ad N eq' gb' state) as [r' eq1'].
  simpl in *. subst r'. split; [|done].
  destruct Hle' as [(_ & _ & Hdofs & _) _]. unfold local_dofs. by rewrite Hdofs.
Qed.

Lemma store_le_refl h : store_le gb' h h.
Proof. intros a. apply eq_le_refl. Qed.

Lemma store_le_trans h1 h2 h3 :
  store_le gb' h1 h2 -> store_le gb' h2 h3 -> store_le gb' h1 h3.
Proof. intros H12 H23 a. eapply eq_le_trans; [apply H12 | apply H23]. Qed.

Lemma store_le_set h h' a eq eq' :
  store_le gb' h h' -> eq_le gb' eq eq' ->
  store_le gb' (store_set h a eq) (store_set h' a eq').
Proof. intros Hh He a'. unfold store_set. by destruct (decide (a' = a)). Qed.

Lemma store_le_set_r h a eq' :
  eq_le gb' (h a) eq' -> store_le gb' h (store_set h a eq').
Proof.
  intros He a'. unfold store_set.
  destruct (decide (a' = a)) as [->|]; [done | apply eq_le_refl].
Qed.

Lemma rows_extends refs h : store_le gb' h (rows N em state refs h).2.
Proof.
  revert h. induction refs as [|a refs IH]; intros h; simpl; [apply store_le_refl|].
  pose proof (equation_row_extends (h a)) as Hext.
  destruct (equation_row N em state (h a)) as [r eq']. simpl in Hext.
  pose proof (store_le_set_r h a eq' Hext) as Hset.
  destruct r as [row|e]; [|done].
  specialize (IH (store_set h a eq')).
  destruct (rows N em state refs (store_set h a eq')) as [rs h'']. simpl in *.
  by eapply store_le_trans.
Qed.

Lemma rows_respects refs h h' :
  store_le gb' h h' ->
  (rows N em state refs h).1 = (rows N em state refs h').1 /\
  store_le gb' (rows N em state refs h).2 (rows N em state refs h').2.
Proof.
  revert h h'. induction refs as [|a refs IH]; intros h h' Hle; simpl; [done|].
  destruct (equation_row_respects (h a) (h' a) (Hle a)) as [Hr He].
  destruct (equation_row N em state (h a)) as [r eq1].
  destruct (equation_row N em state (h' a)) as [r' eq1']. simpl in *. subst r'.
  pose proof (store_le_set h h' a eq1 eq1' Hle He) as Hset.
  destruct r as [row|e]; [|done].
  destruct (IH _ _ Hset) as [Hrs Hh].
  destruct (rows N em state refs (store_set h a eq1)) as [rs h1].
  destruct (rows N em state refs (store_set h' a eq1')) as [rs' h1'].
  simpl in *. by subst rs'.
Qed.

(** The rows that the loop collects are those of the equations as the
    store has them before the call, in the order of the list. *)
Lemma rows_Ok refs h l :
  (rows N em state refs h).1 = Ok l <->
  Forall2 (fun a row => (equation_row N em state (h a)).1 = Ok row) refs l.
Proof.
  revert h l. induction refs as [|a refs IH]; intros h l; simpl.
  - split.
    + intros [= <-]. constructor.
    + intros H. by inversion H.
  - pose proof (equation_row_extends (h a)) as Hext.
    destruct (equation_row N em state (h a)) as [r eq'] eqn:Hrow. simpl in Hext.
    pose proof (store_le_set_r h a eq' Hext) as Hset.
    assert (Hsame : forall a' row,
              (equation_row N em state (store_set h a eq' a')).1 = Ok row <->
              (equation_row N em state (h a')).1 = Ok row).
    { intros a' row.
      destruct (equation_row_respects _ _ (Hset a')) as [-> _]. done. }
    destruct r as [row|e]; simpl.
    + specialize (IH (store_set h a eq')).
      destruct (rows N em state refs (store_set h a eq')) as [rs h'']. simpl in *.
      split.
      * destruct rs as [l'|e]; simpl; [|intros ?; discriminate].
        intros [= <-]. constructor; [by rewrite Hrow|].
        eapply Forall2_impl; [by apply IH|]. intros a' row' H. by apply Hsame.
      * intros H. inversion H as [|? row0 ? l' Hhd Htl]; subst.
        rewrite Hrow in Hhd. injection Hhd as <-.
        assert (Hrs : rs = Ok l').
        { apply IH. eapply Forall2_impl; [exact Htl|].
          intros a' row' H'. by apply Hsame. }
        by rewrite Hrs.
    + split; [intros ?; discriminate|].
      intros H. inversion H as [|? row0 ? l' Hhd Htl]; subst.
      rewrite Hrow in Hhd. discriminate.
Qed.

Lemma assemble_extends h : store_le gb' h (assemble_matrix_rhs N em state h).2.
Proof.
  unfold assemble_matrix_rhs. pose proof (rows_extends (_equations em) h) as H.
  by destruct (rows N em state (_equations em) h) as [rs h'].
Qed.

Lemma assemble_respects h h' :
  store_le gb' h h' ->
  (assemble_matrix_rhs N em state h).1 = (assemble_matrix_rhs N em state h').1.
Proof.
  intros Hle. unfold assemble_matrix_rhs.
  destruct (rows_respects (_equations em) h h' Hle) as [Hr _].
  destruct (rows N em state (_equations em) h) as [rs h1].
  destruct (rows N em state (_equations em) h') as [rs' h1']. simpl in *.
  by subst rs'.
Qed.
End manager.

End EvalFacts.

(** ** The index arrays of an equation *)

Module EquationFacts.
Import DofManager DofManagerFacts Equation.

Lemma rbind_Ok {A B} (r : result A) (f : A -> result B) y :
  rbind r f = Ok y <-> exists x, r = Ok x /\ f x = Ok y.
Proof.
  destruct r as [x|e]; simpl.
  - split; [by exists x | by intros (? & [= <-] & ?)].
  - split; [done | by intros (? & ? & ?)].
Qed.

Lemma rmap_Ok {A B} (f : A -> result B) l l' :
  rmap f l = Ok l' <-> Forall2 (fun x y => f x = Ok y) l l'.
Proof.
  revert l'. induction l as [|x l IH]; intros l'; simpl.
  - split; [intros [= <-]; constructor | by inversion 1].
  - rewrite rbind_Ok. split.
    + intros (y & Hy & H). apply rbind_Ok in H as (ys & Hys & [= <-]).
      constructor; [done | by apply IH].
    + inversion 1 as [|? y ? ys Hy Hys]; subst. exists y. split; [done|].
      apply IH in Hys. by rewrite Hys.
Qed.

Lemma hstack_Ok {A} (arrs : list (list A)) a :
  Np.hstack arrs = Ok a -> a = concat arrs.
Proof. destruct arrs; [done|]. by intros [= <-]. Qed.

Lemma length_cumsum_from acc l : length (cumsum_from acc l) = length l.
Proof. revert acc. induction l; intros; simpl; auto. Qed.

(** Every index that [dof_ind] returns lies below the total number of
    dofs. *)
Lemma dof_ind_lt dm g name ind :
  dof_ind dm g name = Ok ind ->
  Forall (fun i => i < sum_list (full_dof dm)) ind.
Proof.
  unfold dof_ind. destruct (Dict.get (g, name) (block_dof dm)) as [b|]; [|done].
  destruct ((0 :: cumsum (full_dof dm)) !! b) as [lo|] eqn:Hlo; [|done].
  destruct ((0 :: cumsum (full_dof dm)) !! (b + 1)) as [hi|] eqn:Hhi; [|done].
  intros [= <-].
  assert (Hb : b + 1 <= length (full_dof dm)).
  { apply lookup_lt_Some in Hhi. simpl in Hhi. unfold cumsum in Hhi.
    rewrite length_cumsum_from in Hhi. lia. }
  rewrite dof_start_lookup in Hhi by done. injection Hhi as <-.
  apply Forall_forall. intros i Hi. apply elem_of_arange in Hi.
  pose proof (sum_list_take_le (full_dof dm) (b + 1)). lia.
Qed.

Lemma Forall_concat {A} (P : A -> Prop) (ls : list (list A)) :
  Forall (Forall P) ls -> Forall P (concat ls).
Proof.
  induction 1 as [|l ls Hl Hls IH]; simpl; [constructor|]. by apply Forall_app.
Qed.

Lemma variable_inds_lt dm x inds id :
  variable_inds dm x = Ok (inds, id) ->
  Forall (fun i => i < sum_list (full_dof dm)) inds.
Proof.
  destruct x as [v|mv]; unfold variable_inds.
  - rewrite rbind_Ok. intros (ind & Hind & [= <-]). rewrite app_nil_r.
    by eapply dof_ind_lt.
  - rewrite rbind_Ok. intros (ind_var & Hrmap & H).
    apply rbind_Ok in H as (a & Hh & [= <- _]).
    apply hstack_Ok in Hh as ->. apply Forall_concat.
    apply rmap_Ok in Hrmap.
    induction Hrmap as [|sub ind subs inds' Hsub _ IH]; constructor; [|done].
    by eapply dof_ind_lt.
Qed.

Lemma init_variable_dofs_lt arg dm nm eq :
  init arg dm nm = Ok eq ->
  Forall (Forall (fun i => i < sum_list (full_dof dm))) (_variable_dofs eq).
Proof.
  unfold init. rewrite rbind_Ok. intros (op & _ & H).
  apply rbind_Ok in H as ([dofs ids] & Hid & [= <-]). simpl.
  unfold _identify_variables in Hid.
  destruct (_find_subtree_variables op) as [x|l]; [done|].
  apply rbind_Ok in Hid as (found & Hrmap & [= <- _]).
  apply rmap_Ok in Hrmap.
  induction Hrmap as [|x [inds id] xs founds Hx _ IH]; simpl; constructor; [|done].
  by eapply variable_inds_lt.
Qed.

(** One stored triple per row of the scatter matrix. *)
Lemma filter_scatter_entries off idx i :
  filter (fun e : nat * nat * Z => e.1.1 = i)
    (zip (zip (seq off (length idx)) idx) (replicate (length idx) 1%Z))
  = if decide (off <= i) then
      match idx !! (i - off) with
      | Some c => [(i, c, 1%Z)]
      | None => []
      end
    else [].
Proof.
  revert off. induction idx as [|c idx IH]; intros off; simpl.
  - rewrite filter_nil. by destruct (decide (off <= i)).
  - rewrite filter_cons, IH. simpl.
    destruct (decide (off = i)) as [->|Hne].
    + rewrite (decide_True (P := i <= i)) by lia.
      rewrite (decide_False (P := S i <= i)) by lia.
      by replace (i - i) with 0 by lia.
    + destruct (decide (off <= i)) as [Hle|Hgt].
      * replace (i - off) with (S (i - S off)) by lia. simpl.
        by rewrite decide_True by lia.
      * by rewrite decide_False by lia.
Qed.

End EquationFacts.

(** ** Variable discovery *)

Module VariablesFacts.
Import Equation Rel EvalFacts EquationFacts.

(** [_find_subtree_variables] returns the variable leaves below a node: the
    leaf itself at a variable, their list elsewhere. *)
Lemma find_subtree_leaves op :
  match _find_subtree_variables op with
  | FoundVariable x => variable_leaves op = [x]
  | FoundList l => variable_leaves op = l
  end.
Proof.
  induction op as [cls o ch IH] using Operator_ind'.
  assert (Hch : flat_map (fun var => match var with
                                     | FoundVariable x => [x]
                                     | FoundList sub_list => sub_list
                                     end) (map _find_subtree_variables ch)
                = flat_map variable_leaves ch).
  { induction IH as [|c ch' Hc _ IHch]; simpl; [done|]. rewrite IHch. f_equal.
    by destruct (_find_subtree_variables c). }
  destruct cls; simpl; try done; by rewrite Hch.
Qed.

Lemma existsb_same_variable x s :
  existsb (same_variable x) s = true <-> leaf_id x ∈ ids_of s.
Proof.
  unfold ids_of. induction s as [|y s IH]; simpl.
  - split; [done|]. intros H. by apply not_elem_of_nil in H.
  - rewrite orb_true_iff, IH, elem_of_cons. unfold same_variable.
    rewrite Nat.eqb_eq. tauto.
Qed.

Lemma set_update_ids s l i :
  i ∈ ids_of (set_update s l) <-> i ∈ ids_of s \/ i ∈ ids_of l.
Proof.
  revert s. induction l as [|x l IH]; intros s; simpl.
  - split; [auto|]. intros [?|H]; [done|]. by apply not_elem_of_nil in H.
  - destruct (existsb (same_variable x) s) eqn:Hex; rewrite IH.
    + apply existsb_same_variable in Hex. rewrite elem_of_cons.
      split; [tauto|]. intros [?|[->|?]]; auto.
    + unfold ids_of. rewrite map_app, elem_of_app. simpl.
      rewrite list_elem_of_singleton, elem_of_cons. tauto.
Qed.

Lemma set_update_NoDup s l :
  NoDup (ids_of s) -> NoDup (ids_of (set_update s l)).
Proof.
  revert s. induction l as [|x l IH]; intros s Hs; simpl; [done|].
  destruct (existsb (same_variable x) s) eqn:Hex; [by apply IH|].
  apply IH. unfold ids_of. rewrite map_app. apply NoDup_app.
  split; [done|]. split; [|apply NoDup_singleton].
  intros i Hi. simpl. rewrite list_elem_of_singleton. intros ->.
  apply existsb_same_variable in Hi. congruence.
Qed.

(** The set of the leaves has one element for each id. *)
Lemma set_of_spec l :
  NoDup (ids_of (set_of l)) /\ forall i, i ∈ ids_of (set_of l) <-> i ∈ ids_of l.
Proof.
  unfold set_of. split.
  - apply set_update_NoDup. constructor.
  - intros i. rewrite set_update_ids. split; [|auto].
    intros [H|?]; [|done]. by apply not_elem_of_nil in H.
Qed.

Lemma insert_by_id_perm x l : insert_by_id x l ≡ₚ x :: l.
Proof.
  induction l as [|y l IH]; simpl; [done|].
  destruct (leaf_id x <=? leaf_id y); [done|].
  rewrite IH. apply Permutation_swap.
Qed.

Lemma sorted_by_id_perm l : sorted_by_id l ≡ₚ l.
Proof.
  unfold sorted_by_id. induction l as [|x l IH]; simpl; [done|].
  by rewrite insert_by_id_perm, IH.
Qed.

Lemma insert_by_id_sorted x l :
  StronglySorted id_le l -> StronglySorted id_le (insert_by_id x l).
Proof.
  induction 1 as [|y l Hl IH Hy]; simpl.
  - repeat constructor.
  - destruct (leaf_id x <=? leaf_id y) eqn:Hxy.
    + apply Nat.leb_le in Hxy. constructor; [by constructor|].
      constructor; [done|]. eapply Forall_impl; [exact Hy|].
      intros z Hz. unfold id_le in *. lia.
    + apply Nat.leb_gt in Hxy. constructor; [done|].
      rewrite insert_by_id_perm. constructor; [|done]. unfold id_le. lia.
  Qed.

Lemma sorted_by_id_sorted l : StronglySorted id_le (sorted_by_id l).
Proof.
  unfold sorted_by_id. induction l as [|x l IH]; simpl; [constructor|].
  by apply insert_by_id_sorted.
Qed.

(** A list sorted by id whose ids are pairwise distinct has strictly
    increasing ids. *)
Lemma sorted_ids_increasing l :
  StronglySorted id_le l -> NoDup (ids_of l) -> StronglySorted lt (ids_of l).
Proof.
  unfold ids_of. induction 1 as [|x l Hl IH Hx]; simpl; intros Hnd; [constructor|].
  apply NoDup_cons in Hnd as [Hnin Hnd]. constructor; [by apply IH|].
  apply Forall_forall. intros i Hi.
  assert (leaf_id x <= i).
  { change (i ∈ leaf_id <$> l) in Hi. apply list_elem_of_fmap in Hi as (y & -> & Hy).
    rewrite Forall_forall in Hx. by apply Hx. }
  assert (leaf_id x <> i) by (intros Heq; apply Hnin; by rewrite Heq).
  lia.
Qed.

(** The list that [sorted] returns does not depend on the order in which
    the set is iterated. *)
Lemma sorted_unique l l' :
  l ≡ₚ l' -> NoDup (ids_of l) ->
  StronglySorted id_le l -> StronglySorted id_le l' -> l = l'.
Proof.
  intros Hperm Hnd Hl. revert l' Hperm.
  induction Hl as [|x l Hl IH Hx]; intros l' Hperm Hl'.
  - by apply Permutation_nil_l in Hperm.
  - simpl in Hnd. apply NoDup_cons in Hnd as [Hnin Hnd].
    destruct Hl' as [|y l' Hl' Hy].
    + by apply Permutation_nil_r in Hperm.
    + assert (Hxy : x = y).
      { assert (Hyin : y ∈ x :: l) by (rewrite Hperm; by left).
        assert (Hxin : x ∈ y :: l') by (rewrite <- Hperm; by left).
        apply elem_of_cons in Hyin as [->|Hyin]; [done|].
        apply elem_of_cons in Hxin as [->|Hxin]; [done|].
        rewrite Forall_forall in Hx, Hy.
        pose proof (Hx y Hyin) as H1. pose proof (Hy x Hxin) as H2.
        unfold id_le in *. destruct Hnin.
        replace (leaf_id x) with (leaf_id y) by lia.
        change (leaf_id y ∈ leaf_id <$> l). apply list_elem_of_fmap. by exists y. }
      subst y. f_equal. apply IH; [done| |done].
      by apply Permutation_cons_inv in Hperm.
Qed.

Lemma sorted_set_any_order l l' :
  l' ≡ₚ set_of l -> sorted_by_id l' = sorted_by_id (set_of l).
Proof.
  intros Hperm. destruct (set_of_spec l) as [Hnd _].
  apply sorted_unique; try apply sorted_by_id_sorted.
  - by rewrite !sorted_by_id_perm.
  - unfold ids_of. by rewrite sorted_by_id_perm, Hperm.
Qed.

(** What [_identify_variables] returns when it returns: the variables are
    the leaves of the tree, one for each id, in ascending order of id; the
    ids are recorded in this order, and the index arrays are those of the
    variables in this order. *)
Lemma identify_variables_Ok op dm dofs ids :
  _identify_variables op dm = Ok (dofs, ids) ->
  let variables := sorted_by_id (set_of (variable_leaves op)) in
  ids = ids_of variables /\
  StronglySorted lt ids /\
  (forall i, i ∈ ids <-> i ∈ ids_of (variable_leaves op)) /\
  Forall2 (fun x inds => variable_inds dm x = Ok (inds, leaf_id x)) variables dofs.
Proof.
  unfold _identify_variables. pose proof (find_subtree_leaves op) as Hleaves.
  destruct (_find_subtree_variables op) as [x|l]; [done|]. rewrite Hleaves.
  intros Hfound. set (variables := sorted_by_id (set_of l)) in *.
  apply rbind_Ok in Hfound as (found & Hrmap & [= <- <-]).
  apply rmap_Ok in Hrmap.
  assert (Hid : Forall2 (fun x f => f.2 = leaf_id x) variables found).
  { eapply Forall2_impl; [exact Hrmap|]. intros x [inds id] Hx. simpl.
    destruct x as [v|mv]; unfold variable_inds in Hx.
    - apply rbind_Ok in Hx as (? & _ & [= _ <-]). done.
    - apply rbind_Ok in Hx as (? & _ & Hx).
      apply rbind_Ok in Hx as (? & _ & [= _ <-]). done. }
  assert (Hids : map snd found = ids_of variables).
  { unfold ids_of. clear Hrmap. induction Hid as [|x f xs fs Hf _ IH]; simpl; [done|].
    by rewrite Hf, IH. }
  destruct (set_of_spec l) as [Hnd Hset].
  assert (Hperm : ids_of variables ≡ₚ ids_of (set_of l)).
  { unfold ids_of, variables. by rewrite sorted_by_id_perm. }
  split; [done|]. split; [|split].
  - rewrite Hids. apply sorted_ids_increasing; [apply sorted_by_id_sorted|].
    by rewrite Hperm.
  - intros i. by rewrite Hids, Hperm, Hset.
  - clear Hids Hperm Hset Hnd Hleaves. clearbody variables.
    induction Hrmap as [|x [inds id] xs fs Hx _ IH]; simpl; [constructor|].
    apply Forall2_cons in Hid as [Hx' Hid]. simpl in Hx'. subst id.
    constructor; [done|]. by apply IH.
Qed.

End VariablesFacts.

(** ** The rows of the global system *)

Module AssemblyFacts.
Import EquationManager Rel EvalFacts EquationFacts SparseFacts.

Section rows.
Context (N : Numerics) (em : EquationManager.t) (state : vec).

Local Abbreviation num_global_dofs :=
  (sum_list (DofManager.full_dof (dof_manager (_assembler em)))).

(** What the body of the loop computes for one equation. *)
Lemma equation_row_Ok eq m b :
  (equation_row N em state eq).1 = Ok (m, b) <->
  exists val jac idx P,
    (Equation.to_ad N eq (assembler_gb (_assembler em)) state).1 = Ok (VAd val jac) /\
    Equation.local_dofs eq = Ok idx /\
    projection idx num_global_dofs = Ok P /\
    Sparse.mul jac P = Ok m /\
    b = Np.neg val.
Proof.
  unfold equation_row.
  pose proof (to_ad_frame N (assembler_gb (_assembler em)) state eq)
    as (_ & _ & Hdofs & _).
  destruct (Equation.to_ad N eq (assembler_gb (_assembler em)) state) as [r eq'].
  simpl in *. unfold Equation.local_dofs. rewrite Hdofs. split.
  - intros Hrow.
    apply rbind_Ok in Hrow as (ad & -> & Hrow).
    apply rbind_Ok in Hrow as (idx & Hidx & Hrow).
    apply rbind_Ok in Hrow as (P & HP & Hrow).
    apply rbind_Ok in Hrow as (jac & Hjac & Hrow).
    apply rbind_Ok in Hrow as (m' & Hmul & Hrow).
    apply rbind_Ok in Hrow as (val & Hval & [= <- <-]).
    destruct ad as [val0 jac0| | | |]; try done.
    injection Hjac as ->. injection Hval as ->.
    by exists val, jac, idx, P.
  - intros (val & jac & idx & P & -> & Hidx & HP & Hmul & ->).
    simpl. rewrite Hidx. simpl. rewrite HP. simpl. by rewrite Hmul.
Qed.

Lemma equation_row_ncols eq m b :
  (equation_row N em state eq).1 = Ok (m, b) -> ncols m = num_global_dofs.
Proof.
  intros (val & jac & idx & P & _ & _ & HP & Hmul & _)%equation_row_Ok.
  unfold projection in HP. rewrite coo_scatter in HP.
  destruct (decide (Forall _ idx)); [|done]. injection HP as <-.
  unfold Sparse.mul in Hmul. destruct (decide (ncols jac = _)); [|done].
  by injection Hmul as <-.
Qed.

Lemma Forall_exists_Forall2 {A B} (R : A -> B -> Prop) (l : list A) :
  (forall x, x ∈ l -> exists y, R x y) -> exists l', Forall2 R l l'.
Proof.
  induction l as [|x l IH]; intros H.
  - exists []. constructor.
  - destruct (H x) as [y Hy]; [by left|].
    destruct IH as [l' Hl']; [intros x' Hx'; apply H; by right|].
    exists (y :: l'). by constructor.
Qed.

Lemma Forall2_exists_l {A B} (R : A -> B -> Prop) l l' x :
  Forall2 R l l' -> x ∈ l -> exists y, R x y.
Proof.
  induction 1 as [|x0 y0 l l' Hxy _ IH]; intros Hx.
  - by apply not_elem_of_nil in Hx.
  - apply elem_of_cons in Hx as [->|Hx]; [by exists y0 | by apply IH].
Qed.

(** [assemble_matrix_rhs] in terms of the rows of the equations. *)
Lemma assemble_Ok h A rhs :
  (assemble_matrix_rhs N em state h).1 = Ok (A, rhs) <->
  exists rows,
    Forall2 (fun a row => (equation_row N em state (h a)).1 = Ok row)
      (_equations em) rows /\
    Sparse.bmat_column (map fst rows) = Ok A /\
    Np.hstack (map snd rows) = Ok rhs.
Proof.
  unfold assemble_matrix_rhs.
  pose proof (rows_Ok N em state (_equations em) h) as Hrows.
  destruct (rows N em state (_equations em) h) as [rs h']. simpl in *. split.
  - intros H. apply rbind_Ok in H as (l & -> & H).
    apply rbind_Ok in H as (A' & HA & H).
    apply rbind_Ok in H as (rhs' & Hrhs & [= <- <-]).
    exists l. split; [by apply Hrows|]. done.
  - intros (l & Hl & HA & Hrhs). apply Hrows in Hl as ->. simpl.
    rewrite HA. simpl. by rewrite Hrhs.
Qed.
End rows.

End AssemblyFacts.

(** * The block layout: construction and index ranges *)

Module Layout.
Import DofManager DofManagerFacts.

(** C4. Construction gives the [k]-th declared [(entity, name)] pair, in
    iteration order (nodes, then edges), the block index [k] and stores its
    size at position [k] of [full_dof]; nothing but the declared pairs is in
    [block_dof]. The size of a variable on a grid is
    [cells * count_c + faces * count_f + nodes * count_n], a kind that is not
    declared counting 0; on an interface, whose mortar grid has cells only, it
    is [cells * count_c]. An entity without a variable dictionary gets no
    block. [full_dof] and [block_dof] have the same length, [full_dof] lists
    the sizes of the declared pairs, and for a layout with fewer than [2^63]
    dofs [full_dof.sum()], a sum of 64-bit integers, is the sum of these
    sizes. *)
Theorem init_block_layout (gb : GridBucket) :
  gb_wf gb ->
  let dm := init gb in
  (forall k key size, declared gb !! k = Some (key, size) ->
     Dict.get key (block_dof dm) = Some k /\ full_dof dm !! k = Some size) /\
  (forall key, key ∈ Dict.keys (block_dof dm) <-> key ∈ map fst (declared gb)) /\
  (forall g d vars name local_dofs,
     (g, d) ∈ gb_nodes gb -> PRIMARY_VARIABLES d = Some vars ->
     (name, local_dofs) ∈ vars ->
     exists b, Dict.get (GNode g, name) (block_dof dm) = Some b /\
       full_dof dm !! b =
         Some (num_cells g * default 0 (Dict.get "cells" local_dofs)
               + num_faces g * default 0 (Dict.get "faces" local_dofs)
               + num_nodes g * default 0 (Dict.get "nodes" local_dofs))) /\
  (forall g1 g2 d vars name local_dofs,
     ((g1, g2), d) ∈ gb_edges gb -> e_PRIMARY_VARIABLES d = Some vars ->
     (name, local_dofs) ∈ vars ->
     exists b, Dict.get (GEdge g1 g2, name) (block_dof dm) = Some b /\
       full_dof dm !! b =
         Some (mortar_num_cells (mortar_grid d) * default 0 (Dict.get "cells" local_dofs))) /\
  (forall g d name,
     (g, d) ∈ gb_nodes gb -> PRIMARY_VARIABLES d = None ->
     Dict.get (GNode g, name) (block_dof dm) = None) /\
  (forall g1 g2 d name,
     ((g1, g2), d) ∈ gb_edges gb -> e_PRIMARY_VARIABLES d = None ->
     Dict.get (GEdge g1 g2, name) (block_dof dm) = None) /\
  length (full_dof dm) = length (block_dof dm) /\
  full_dof dm = map snd (declared gb) /\
  (fits_int64 (full_dof dm) ->
   sum_int64 (full_dof dm) = Z.of_nat (sum_list (map snd (declared gb)))).
Proof.
  intros Hwf dm. subst dm.
  pose proof (declared_NoDup gb Hwf) as Hnd.
  destruct (init_spec gb Hnd) as [Hf Hb].
  split; [intros k key size Hk; by apply declared_block|].
  split; [apply keys_init|].
  split; [|split; [|split; [|split; [|split; [|split]]]]].
  - intros g d vars name ld Hgd Hvars Hin.
    assert (Hdecl : ((GNode g, name), grid_block_size g ld) ∈ declared gb).
    { unfold declared. apply elem_of_app. left.
      apply list_elem_of_In, in_flat_map. exists (g, d). split; [by apply list_elem_of_In|].
      unfold node_declared. simpl. rewrite Hvars.
      apply in_map_iff. exists (name, ld). split; [done|]. by apply list_elem_of_In. }
    apply list_elem_of_lookup in Hdecl as [k Hk]. exists k.
    by apply declared_block.
  - intros g1 g2 d vars name ld Hgd Hvars Hin.
    assert (Hdecl : ((GEdge g1 g2, name), mortar_block_size (mortar_grid d) ld) ∈ declared gb).
    { unfold declared. apply elem_of_app. right.
      apply list_elem_of_In, in_flat_map. exists ((g1, g2), d).
      split; [by apply list_elem_of_In|].
      unfold edge_declared. simpl. rewrite Hvars.
      apply in_map_iff. exists (name, ld). split; [done|]. by apply list_elem_of_In. }
    apply list_elem_of_lookup in Hdecl as [k Hk]. exists k.
    by apply declared_block.
  - intros g d name Hgd Hnone. apply DictFacts.get_None. rewrite keys_init.
    unfold declared. rewrite map_app, elem_of_app. intros [Hin|Hin].
    + apply elem_of_node_declared in Hin as (g' & d' & vars & name' & Heq & Hin & Hv & _).
      injection Heq as <- <-.
      assert (d = d') as <- by (eapply NoDup_fst_agree; [apply (wf_nodes _ Hwf)|done..]).
      congruence.
    + apply elem_of_edge_declared in Hin as (? & ? & ? & ? & ? & Heq & _). discriminate.
  - intros g1 g2 d name Hgd Hnone. apply DictFacts.get_None. rewrite keys_init.
    unfold declared. rewrite map_app, elem_of_app. intros [Hin|Hin].
    + apply elem_of_node_declared in Hin as (? & ? & ? & ? & Heq & _). discriminate.
    + apply elem_of_edge_declared in Hin
        as (h1 & h2 & d' & vars & name' & Heq & Hin & Hv & _).
      injection Heq as <- <- <-.
      assert (d = d') as <- by (eapply NoDup_fst_agree; [apply (wf_edges _ Hwf)|done..]).
      congruence.
  - rewrite Hf, Hb, length_map, length_zip, length_map, length_seq. lia.
  - exact Hf.
  - intros Hfit. rewrite (Int64Facts.sum_int64_fits _ Hfit). by rewrite Hf.
Qed.

Lemma init_block_layout_witness :
  gb_wf Example.example_gb /\
  Dict.get (GEdge Example.example_g1 Example.example_g2, "mortar_flux") (block_dof (init Example.example_gb)) = Some 2 /\
  full_dof (init Example.example_gb) = [4; 10; 4] /\
  sum_int64 (full_dof (init Example.example_gb)) = 18%Z.
Proof.
  split; [exact example_gb_wf|].
  destruct (init_block_layout Example.example_gb example_gb_wf)
    as (Hk & _ & _ & _ & _ & _ & _ & _ & Hsum).
  destruct (Hk 2 (GEdge Example.example_g1 Example.example_g2, "mortar_flux") 4 eq_refl) as [Hget _].
  split; [exact Hget|]. split; [reflexivity|].
  exact (Hsum Int64Facts.example_gb_fits).
Defined.

(** C3. In a layout with fewer than [2^63] dofs, for a declared pair with
    block index [b], [dof_ind] returns the integers from [sum(full_dof[:b])]
    up to, and not including, [sum(full_dof[:b+1])]; this is what the sums of
    64-bit integers of the code give. Taken over the declared pairs in the
    order of their block indices, these ranges follow one another without gap
    or overlap: concatenated they enumerate [0, 1, ..., full_dof.sum() - 1].
    (From [2^63] dofs on the sums wrap around and ranges overlap,
    [Int64Facts.cumsum_int64_wraps].) *)
Theorem dof_ind_ranges_partition (gb : GridBucket) :
  gb_wf gb ->
  fits_int64 (full_dof (init gb)) ->
  let dm := init gb in
  (forall g name b, Dict.get (g, name) (block_dof dm) = Some b ->
     let lo := sum_list (take b (full_dof dm)) in
     let hi := sum_list (take (b + 1) (full_dof dm)) in
     dof_ind_int64 dm g name = Ok (map Z.of_nat (arange lo hi)) /\
     dof_ind dm g name = Ok (arange lo hi) /\
     (forall i, i ∈ arange lo hi <-> lo <= i < hi)) /\
  (forall k key, map fst (declared gb) !! k = Some key ->
     Dict.get key (block_dof dm) = Some k) /\
  (exists ranges,
     rmap (fun key => dof_ind_int64 dm key.1 key.2) (map fst (declared gb))
     = Ok (map (map Z.of_nat) ranges) /\
     rmap (fun key => dof_ind dm key.1 key.2) (map fst (declared gb)) = Ok ranges /\
     concat ranges = seq 0 (sum_list (full_dof dm))) /\
  sum_int64 (full_dof dm) = Z.of_nat (sum_list (full_dof dm)).
Proof.
  intros Hwf Hfit dm. subst dm.
  pose proof (declared_NoDup gb Hwf) as Hnd.
  destruct (init_spec gb Hnd) as [Hf Hb].
  assert (Hidx : forall k key, map fst (declared gb) !! k = Some key ->
            Dict.get key (block_dof (init gb)) = Some k).
  { intros k key Hk. change (map fst (declared gb)) with (fst <$> declared gb) in Hk.
    rewrite list_lookup_fmap in Hk.
    destruct (declared gb !! k) as [[key' sz]|] eqn:Hd; [|done].
    simpl in Hk. injection Hk as ->. by apply (declared_block gb k key sz). }
  assert (Hlt : forall key b, Dict.get key (block_dof (init gb)) = Some b ->
            b < length (full_dof (init gb))).
  { intros key b Hget.
    assert (Hin : key ∈ map fst (declared gb)).
    { apply keys_init. apply dec_stable. intros Hnin.
      apply DictFacts.get_None in Hnin. congruence. }
    apply list_elem_of_lookup in Hin as [k Hk].
    rewrite (Hidx k key Hk) in Hget. injection Hget as <-.
    apply lookup_lt_Some in Hk. by rewrite Hf, length_map in *. }
  assert (Hranges : rmap (fun key => dof_ind (init gb) key.1 key.2) (map fst (declared gb))
                    = Ok (ranges_from 0 (full_dof (init gb)))).
  { apply rmap_Ok_lookup.
    - by rewrite length_ranges_from, Hf, !length_map.
    - intros k [g name] Hk. cbn [fst snd].
      pose proof (Hidx k _ Hk) as Hget.
      pose proof (Hlt _ _ Hget) as Hb'.
      apply lookup_lt_is_Some in Hb' as [x Hx].
      exists (seq (sum_list (take k (full_dof (init gb)))) x). split.
      + by rewrite (ranges_from_lookup 0 _ k x Hx).
      + rewrite (dof_ind_block _ g name k Hget) by (by eapply lookup_lt_Some).
        unfold arange. rewrite (sum_list_take_S _ k x Hx). do 2 f_equal. lia. }
  split; [|split; [exact Hidx|split]].
  - intros g name b Hget lo hi.
    assert (Hnat : dof_ind (init gb) g name = Ok (arange lo hi))
      by (apply dof_ind_block; [done|]; by eapply Hlt).
    split; [|split; [exact Hnat|apply elem_of_arange]].
    by rewrite (Int64Facts.dof_ind_int64_fits _ g name Hfit), Hnat.
  - exists (ranges_from 0 (full_dof (init gb))).
    split; [by apply Int64Facts.rmap_int64_fits|].
    split; [exact Hranges|apply concat_ranges_from].
  - by apply Int64Facts.sum_int64_fits.
Qed.

Lemma dof_ind_ranges_partition_witness :
  gb_wf Example.example_gb /\
  fits_int64 (full_dof (init Example.example_gb)) /\
  dof_ind_int64 (init Example.example_gb) (GNode Example.example_g1) "flux"
  = Ok (map Z.of_nat (arange 4 14)) /\
  dof_ind (init Example.example_gb) (GNode Example.example_g1) "flux" = Ok (arange 4 14).
Proof.
  split; [exact example_gb_wf|]. split; [exact Int64Facts.example_gb_fits|].
  destruct (dof_ind_ranges_partition Example.example_gb example_gb_wf
              Int64Facts.example_gb_fits) as (Hr & _).
  destruct (Hr (GNode Example.example_g1) "flux" 1 eq_refl) as (H64 & Hnat & _).
  split; [exact H64 | exact Hnat].
Defined.

(** C8. For a pair that was never declared, [dof_ind] raises the [KeyError]
    of the failed [block_dof] lookup, whose argument is the offending
    [(entity, name)] key; no index array is returned. *)
Theorem dof_ind_undeclared (gb : GridBucket) (g : grid_like) (name : string) :
  (g, name) ∉ map fst (declared gb) ->
  dof_ind (init gb) g name = Raise (KeyError (KBlock g name)) /\
  (forall ind, dof_ind (init gb) g name <> Ok ind).
Proof.
  intros Hundecl.
  assert (Hget : Dict.get (g, name) (block_dof (init gb)) = None).
  { apply DictFacts.get_None. by rewrite keys_init. }
  unfold dof_ind. rewrite Hget. split; [done|]. intros ind. discriminate.
Qed.

Lemma dof_ind_undeclared_witness :
  ((GNode Example.example_g2, "pressure") ∉ map fst (declared Example.example_gb)) /\
  dof_ind (init Example.example_gb) (GNode Example.example_g2) "pressure"
    = Raise (KeyError (KBlock (GNode Example.example_g2) "pressure")).
Proof.
  assert (H : (GNode Example.example_g2, "pressure") ∉ map fst (declared Example.example_gb)).
  { apply (bool_decide_unpack _). by vm_compute. }
  split; [exact H|].
  exact (proj1 (dof_ind_undeclared Example.example_gb (GNode Example.example_g2) "pressure" H)).
Defined.

End Layout.

(** * Assembly of the global system *)

Module Assembly.
Import EquationManager Rel EvalFacts EquationFacts SparseFacts.

(** C1. Let [idx] be what [local_dofs()] returns for an equation, [n] its
    length and [g = full_dof.sum()], a sum of 64-bit integers, in a layout with
    fewer than [2^63] dofs. For an equation that was constructed with the
    layout of the manager, every index is below [g] and the scatter matrix is
    built. The matrix that is built has shape [(n, g)]; its row [i] stores the
    single triple [(i, idx[i], 1)], so [projection[i, idx[i]] = 1] and every
    other entry of the row is 0. When the evaluation of the equation gives a
    value and a Jacobian with [n] columns, the loop body produces the
    contribution of the equation: the negated value, and the Jacobian times
    the scatter matrix, in which every stored entry [(r, k, v)] of the
    Jacobian has moved to [(r, idx[k], v)]. No sum is formed when the indices
    are pairwise distinct: column [idx[i]] of the block is then column [i] of
    the Jacobian; the columns outside [idx] are zero. The loop body produces
    nothing else. *)
Theorem projection_scatter (em : EquationManager.t) (eq : Equation.t) (idx : list nat) :
  Equation.local_dofs eq = Ok idx ->
  DofManager.fits_int64 (DofManager.full_dof (dof_manager (_assembler em))) ->
  let num_local_dofs := length idx in
  let num_global_dofs := sum_list (DofManager.full_dof (dof_manager (_assembler em))) in
  DofManager.sum_int64 (DofManager.full_dof (dof_manager (_assembler em)))
  = Z.of_nat num_global_dofs /\
  (forall arg nm eq0,
     Equation.init arg (dof_manager (_assembler em)) nm = Ok eq0 ->
     Equation._variable_dofs eq = Equation._variable_dofs eq0 ->
     exists P, projection idx num_global_dofs = Ok P) /\
  (forall P, projection idx num_global_dofs = Ok P ->
     nrows P = num_local_dofs /\ ncols P = num_global_dofs /\
     (forall i c, idx !! i = Some c ->
        Sparse.get P i c = 1%Z /\
        (forall j, j <> c -> Sparse.get P i j = 0%Z) /\
        filter (fun e : nat * nat * Z => e.1.1 = i) (entries P) = [(i, c, 1%Z)]) /\
     (forall N state val jac,
        (Equation.to_ad N eq (assembler_gb (_assembler em)) state).1 = Ok (VAd val jac) ->
        ncols jac = num_local_dofs ->
        exists m,
          (equation_row N em state eq).1 = Ok (m, map Z.opp val) /\
          Sparse.mul jac P = Ok m /\
          nrows m = nrows jac /\ ncols m = num_global_dofs /\
          entries m
          = flat_map (fun e : nat * nat * Z =>
              match idx !! e.1.2 with Some c => [(e.1.1, c, e.2)] | None => [] end)
              (entries jac) /\
          (NoDup idx -> forall r i c, idx !! i = Some c ->
             Sparse.get m r c = Sparse.get jac r i) /\
          (forall r c, c ∉ idx -> Sparse.get m r c = 0%Z)) /\
     (forall N state m b,
        (equation_row N em state eq).1 = Ok (m, b) ->
        exists val jac,
          (Equation.to_ad N eq (assembler_gb (_assembler em)) state).1 = Ok (VAd val jac) /\
          ncols jac = num_local_dofs /\
          Sparse.mul jac P = Ok m /\ b = map Z.opp val)).
Proof.
  intros Hld Hfit num_local_dofs num_global_dofs.
  split; [by apply Int64Facts.sum_int64_fits|]. split.
  - intros arg nm eq0 Hinit Hdofs. unfold projection. rewrite coo_scatter.
    rewrite decide_True; [eauto|].
    apply hstack_Ok in Hld as ->. apply Forall_concat. rewrite Hdofs.
    by eapply init_variable_dofs_lt.
  - intros P HP. pose proof HP as HP'. unfold projection in HP. rewrite coo_scatter in HP.
    destruct (decide (Forall (fun c => c < num_global_dofs) idx)) as [Hlt|]; [|done].
    injection HP as <-. simpl.
    assert (Hget : forall i j,
              Sparse.get {| nrows := length idx; ncols := num_global_dofs;
                            entries := zip (zip (seq 0 (length idx)) idx)
                                           (replicate (length idx) 1%Z) |} i j
              = if decide (idx !! i = Some j) then 1%Z else 0%Z).
    { intros i j. unfold Sparse.get. simpl. rewrite get_scatter_entries.
      rewrite Nat.sub_0_r.
      destruct (decide (idx !! i = Some j)).
      - rewrite decide_True; [done|]. split; [lia|done].
      - rewrite decide_False; [done|]. by intros [_ ?]. }
    split; [done|]. split; [done|]. split; [|split].
    + intros i c Hi. split; [|split].
      * rewrite Hget. by rewrite decide_True.
      * intros j Hj. rewrite Hget. rewrite decide_False; [done|]. congruence.
      * rewrite filter_scatter_entries. rewrite decide_True by lia.
        by rewrite Nat.sub_0_r, Hi.
    + intros N state val jac Hto_ad Hcols.
      set (m := {| nrows := nrows jac; ncols := num_global_dofs;
                   entries := Sparse.mul_entries (entries jac)
                     (zip (zip (seq 0 (length idx)) idx) (replicate (length idx) 1%Z)) |}).
      assert (Hmul : Sparse.mul jac
                {| nrows := length idx; ncols := num_global_dofs;
                   entries := zip (zip (seq 0 (length idx)) idx)
                                  (replicate (length idx) 1%Z) |} = Ok m).
      { unfold Sparse.mul. by rewrite decide_True. }
      exists m. split.
      { apply AssemblyFacts.equation_row_Ok.
        by exists val, jac, idx, {| nrows := length idx; ncols := num_global_dofs;
                   entries := zip (zip (seq 0 (length idx)) idx)
                                  (replicate (length idx) 1%Z) |}. }
      split; [exact Hmul|]. split; [done|]. split; [done|].
      split; [apply mul_scatter_entries|].
      assert (Hsum : forall r c,
                Sparse.get m r c
                = Sparse.sumZ (map (fun e : nat * nat * Z =>
                    if decide (e.1.1 = r /\ idx !! e.1.2 = Some c) then e.2 else 0%Z)
                    (entries jac))).
      { intros r c. unfold Sparse.get at 1. simpl. rewrite get_mul_entries.
        apply sumZ_ext. intros e _.
        pose proof (Hget e.1.2 c) as Hg. unfold Sparse.get in Hg. simpl in Hg.
        rewrite Hg.
        destruct (decide (e.1.1 = r)) as [Hr|Hr].
        - destruct (decide (idx !! e.1.2 = Some c)) as [Hc|Hc].
          + rewrite decide_True by done. lia.
          + rewrite decide_False by (by intros [_ ?]). lia.
        - rewrite decide_False by (by intros [? _]). done. }
      split.
      * intros Hnd r i c Hi. rewrite Hsum. unfold Sparse.get. apply sumZ_ext.
        intros e _. unfold Sparse.at_pos.
        destruct (decide (e.1.1 = r /\ e.1.2 = i)) as [[Hr Hc]|Hne].
        -- rewrite decide_True; [done|]. split; [done|]. by rewrite Hc.
        -- rewrite decide_False; [done|]. intros [Hr Hc]. apply Hne. split; [done|].
           by eapply NoDup_lookup.
      * intros r c Hc. rewrite Hsum. apply sumZ_zero. intros e _.
        rewrite decide_False; [done|]. intros [_ He]. apply Hc.
        by eapply list_elem_of_lookup_2.
    + intros N state m b Hrow.
      apply AssemblyFacts.equation_row_Ok in Hrow
        as (val & jac & idx' & P & Hto_ad & Hidx' & HP & Hmul & ->).
      rewrite Hld in Hidx'. injection Hidx' as <-.
      assert (HPeq : Ok P = projection idx num_global_dofs) by (symmetry; exact HP).
      rewrite HP' in HPeq. injection HPeq as ->.
      exists val, jac. split; [done|]. split; [|done].
      unfold Sparse.mul in Hmul. by destruct (decide (ncols jac = _)).
Qed.

Lemma projection_scatter_witness :
  Equation.local_dofs Example.eq1 = Ok [0; 1; 2; 3; 14; 15; 16; 17] /\
  (exists P, projection [0; 1; 2; 3; 14; 15; 16; 17] 18 = Ok P) /\
  exists m,
    (equation_row Example.numerics Example.example_em Example.example_state Example.eq1).1
    = Ok (m, [-11; -22; -33; -44]%Z) /\
    entries m = [(0, 14, 1%Z); (1, 15, 1%Z); (2, 16, 1%Z); (3, 17, 1%Z);
                 (0, 0, 1%Z); (1, 1, 1%Z); (2, 2, 1%Z); (3, 3, 1%Z)].
Proof.
  split; [reflexivity|].
  destruct (projection_scatter Example.example_em Example.eq1
              [0; 1; 2; 3; 14; 15; 16; 17] eq_refl Int64Facts.example_gb_all_fits)
    as (_ & Hbuilt & Hrow).
  destruct (Hbuilt (Equation.AnOperator Example.tree1) (Some "eq1"%string) Example.eq1
              eq_refl eq_refl) as [P HP].
  split; [by exists P|].
  destruct (Hrow P HP) as (_ & _ & _ & Hproduced & _).
  destruct (Hproduced Example.numerics Example.example_state [11; 22; 33; 44]%Z
              {| nrows := 4; ncols := 8;
                 entries := [(0, 4, 1%Z); (1, 5, 1%Z); (2, 6, 1%Z); (3, 7, 1%Z);
                             (0, 0, 1%Z); (1, 1, 1%Z); (2, 2, 1%Z); (3, 3, 1%Z)] |}
              eq_refl eq_refl) as (m & Hm & _ & _ & _ & Hentries & _).
  exists m. split; [exact Hm | exact Hentries].
Defined.

(** C5, as stated: for every state vector and every non-empty list of
    equations the call returns a pair [(A, rhs)]. This fails. With the
    equations of the example and a state of four entries, too short for the
    indices of the first equation, the call raises [IndexError], whatever the
    arithmetic is. With a state that covers the system, an equation whose
    tree is a sum with a single child makes the call raise
    [AssertionError]. *)
Lemma assemble_nonempty_raises :
  _equations Example.example_em <> [] /\
  (forall N,
     (assemble_matrix_rhs N Example.example_em [1; 2; 3; 4]%Z Example.example_store).1
     = Raise IndexError) /\
  (assemble_matrix_rhs Example.numerics
     (EquationManager.attributes Example.example_gb_all (Some [0]))
     Example.example_state
     (fun _ => {| Equation._operator :=
                    Node IsOperator Operation.add [Example.leaf (IsScalar 1)];
                  Equation.name := None;
                  Equation._variable_dofs := [];
                  Equation._variable_ids := [];
                  Equation._stored_matrices := [];
                  Equation._ad := None |})).1
  = Raise AssertionError.
Proof. split; [discriminate|]. split; [intros N|]; reflexivity. Qed.

(** C5, amended. Take a non-empty list of equations and a layout with fewer
    than [2^63] dofs. When the loop body succeeds for every equation of the
    list (the evaluation gives a value [val] and a Jacobian [jac], and the
    block [jac * projection] is formed), [assemble_matrix_rhs] returns a pair
    [(A, rhs)]: [rhs] is the concatenation, in the order of the list, of the
    values with every entry multiplied by -1, and [A] has [full_dof.sum()]
    columns and the blocks of the equations stacked from the top in the order
    of the list, block [k] starting at the row that is the sum of the heights
    of the blocks before it. The call returns in no other case: when the body
    fails for an equation, the call raises. *)
Theorem assemble_rows_in_order (N : Numerics) (em : EquationManager.t)
    (state : vec) (h : store) :
  _equations em <> [] ->
  DofManager.fits_int64 (DofManager.full_dof (dof_manager (_assembler em))) ->
  let num_global_dofs := sum_list (DofManager.full_dof (dof_manager (_assembler em))) in
  let body := fun (a : nat) (row : spmatrix * vec) =>
    exists val jac idx P,
      (Equation.to_ad N (h a) (assembler_gb (_assembler em)) state).1 = Ok (VAd val jac) /\
      Equation.local_dofs (h a) = Ok idx /\
      projection idx num_global_dofs = Ok P /\
      Sparse.mul jac P = Ok row.1 /\
      row.2 = map Z.opp val in
  (forall rows,
     Forall2 body (_equations em) rows ->
     exists A,
       (assemble_matrix_rhs N em state h).1 = Ok (A, concat (map snd rows)) /\
       nrows A = sum_list (map nrows (map fst rows)) /\
       ncols A = num_global_dofs /\
       entries A = Sparse.vstack_entries 0 (map fst rows) /\
       (forall k M r c,
          Forall Sparse.wf (take k (map fst rows)) ->
          map fst rows !! k = Some M -> r < nrows M ->
          Sparse.get A (sum_list (map nrows (take k (map fst rows))) + r) c
          = Sparse.get M r c)) /\
  (forall A rhs,
     (assemble_matrix_rhs N em state h).1 = Ok (A, rhs) ->
     exists rows,
       Forall2 body (_equations em) rows /\
       rhs = concat (map snd rows) /\
       entries A = Sparse.vstack_entries 0 (map fst rows)) /\
  ((exists A rhs, (assemble_matrix_rhs N em state h).1 = Ok (A, rhs)) <->
   (forall a, a ∈ _equations em -> exists row, body a row)) /\
  (forall a e,
     a ∈ _equations em -> (equation_row N em state (h a)).1 = Raise e ->
     exists e', (assemble_matrix_rhs N em state h).1 = Raise e').
Proof.
  intros Hne Hfit num_global_dofs body.
  assert (Hbuild : forall rows,
            Forall2 (fun a row => (equation_row N em state (h a)).1 = Ok row)
              (_equations em) rows ->
            exists M0, map fst rows !! 0 = Some M0 /\
              Sparse.bmat_column (map fst rows)
              = Ok {| nrows := sum_list (map nrows (map fst rows));
                      ncols := num_global_dofs;
                      entries := Sparse.vstack_entries 0 (map fst rows) |} /\
              Np.hstack (map snd rows) = Ok (concat (map snd rows))).
  { intros rows Hrows.
    assert (Hcols : Forall (fun M => ncols M = num_global_dofs) (map fst rows)).
    { clear Hne. induction Hrows as [|a [m b] refs rows' Hrow _ IH]; simpl; constructor;
        [|done]. by eapply AssemblyFacts.equation_row_ncols. }
    destruct Hrows as [|a [m b] refs rows' Hrow Hrows']; [done|].
    assert (Hm : ncols m = num_global_dofs).
    { simpl in Hcols. by apply Forall_cons in Hcols as [Hm _]. }
    exists m. split; [done|]. split; [|done].
    rewrite (bmat_column_Ok (map fst ((m, b) :: rows')) m eq_refl).
    - by rewrite Hm.
    - eapply Forall_impl; [exact Hcols|]. intros M HM. simpl in HM. congruence. }
  assert (Hbody : forall a row,
            body a row <-> (equation_row N em state (h a)).1 = Ok row).
  { intros a [m b]. symmetry. apply AssemblyFacts.equation_row_Ok. }
  assert (Hrows_body : forall rows,
            Forall2 body (_equations em) rows <->
            Forall2 (fun a row => (equation_row N em state (h a)).1 = Ok row)
              (_equations em) rows).
  { intros rows. split; intros H; (eapply Forall2_impl; [exact H|]);
      intros a row; apply Hbody. }
  assert (Hiff : (exists A rhs, (assemble_matrix_rhs N em state h).1 = Ok (A, rhs)) <->
                 (forall a, a ∈ _equations em ->
                    exists row, (equation_row N em state (h a)).1 = Ok row)).
  { split.
    - intros (A & rhs & HA). apply AssemblyFacts.assemble_Ok in HA as (rows & Hrows & _).
      intros a Ha.
      exact (AssemblyFacts.Forall2_exists_l
               (fun a row => (equation_row N em state (h a)).1 = Ok row) _ _ a Hrows Ha).
    - intros Hall.
      destruct (AssemblyFacts.Forall_exists_Forall2
                  (fun a row => (equation_row N em state (h a)).1 = Ok row) _ Hall)
        as [rows Hrows].
      destruct (Hbuild rows Hrows) as (M0 & _ & HA & Hrhs).
      eexists _, _. apply AssemblyFacts.assemble_Ok. exists rows. by repeat split. }
  split; [|split; [|split]].
  - intros rows Hrows%Hrows_body.
    destruct (Hbuild rows Hrows) as (M0 & HM0 & HA & Hrhs).
    eexists. split; [apply AssemblyFacts.assemble_Ok; exists rows; by repeat split|].
    cbn [nrows ncols entries Sparse.tocsr]. repeat (split; [done|]).
    intros k M r c Hwf Hk Hr. unfold Sparse.get at 1. simpl.
    by rewrite <- (get_vstack_entries 0 (map fst rows) k M r c Hwf Hk Hr).
  - intros A rhs HA. apply AssemblyFacts.assemble_Ok in HA as (rows & Hrows & HA & Hrhs).
    destruct (Hbuild rows Hrows) as (M0 & HM0 & HA' & Hrhs').
    rewrite HA' in HA. injection HA as <-. rewrite Hrhs' in Hrhs. injection Hrhs as <-.
    exists rows. split; [by apply Hrows_body|]. done.
  - rewrite Hiff. split; intros H a Ha; destruct (H a Ha) as [row Hrow];
      exists row; by apply Hbody.
  - intros a e Ha Hraise.
    destruct (assemble_matrix_rhs N em state h).1 as [[A rhs]|e'] eqn:HA; [|by exists e'].
    destruct (proj1 Hiff (ex_intro _ A (ex_intro _ rhs eq_refl)) a Ha) as [row Hrow].
    congruence.
Qed.

Lemma assemble_rows_in_order_witness :
  _equations Example.example_em <> [] /\
  exists A rhs,
    (assemble_matrix_rhs Example.numerics Example.example_em Example.example_state
       Example.example_store).1 = Ok (A, rhs) /\
    rhs = [-11; -22; -33; -44; 0; 0; 0; 0; 1; -6; 1; -6]%Z /\
    nrows A = 12 /\ ncols A = 18.
Proof.
  assert (Hne : _equations Example.example_em <> []) by discriminate.
  split; [exact Hne|].
  destruct (assemble_rows_in_order Example.numerics Example.example_em
              Example.example_state Example.example_store Hne
              Int64Facts.example_gb_all_fits) as (_ & _ & [_ Hret] & _).
  destruct Hret as (A & rhs & HA).
  { intros a Ha.
    assert (Hcases : a = 0 \/ a = 1 \/ a = 2).
    { simpl in Ha. rewrite !elem_of_cons in Ha.
      destruct Ha as [?|[?|[?|[?|Ha]]]]; auto. by apply not_elem_of_nil in Ha. }
    destruct Hcases as [->|[->| ->]]; eexists (_, _); do 4 eexists;
      (split; [reflexivity|]); (split; [reflexivity|]); (split; [reflexivity|]);
      (split; [reflexivity|]); reflexivity. }
  exists A, rhs. split; [exact HA|].
  vm_compute in HA. injection HA as <- <-. by repeat split.
Defined.

(** C6. A second call of [assemble_matrix_rhs] with the same state, on the
    store of equations as the first call left it (with the matrix caches that
    the first call filled), returns what the first call returned: the same
    [(A, rhs)], or the same exception. *)
Theorem assemble_twice (N : Numerics) (em : EquationManager.t) (state : vec) (h : store) :
  let first := assemble_matrix_rhs N em state h in
  let second := assemble_matrix_rhs N em state first.2 in
  second.1 = first.1.
Proof.
  intros first second. subst first second. symmetry.
  apply assemble_respects, assemble_extends.
Qed.

(** The first call on the example fills the cache of the third equation, and
    the second call returns the same system. *)
Example assemble_twice_example :
  let first := assemble_matrix_rhs Example.numerics Example.example_em
                 Example.example_state Example.example_store in
  let second := assemble_matrix_rhs Example.numerics Example.example_em
                  Example.example_state first.2 in
  Equation._stored_matrices (Example.example_store 2) = [] /\
  Equation._stored_matrices (first.2 2)
    = [(Example.flux_operator, Example.example_flux_matrix)] /\
  second.1 = first.1 /\
  exists A rhs, first.1 = Ok (A, rhs).
Proof.
  split; [reflexivity|]. split; [by vm_compute|]. split; [by vm_compute|].
  eexists _, _. vm_compute. reflexivity.
Qed.

(** C9, as stated: a call of [to_ad] changes no field of the equation other
    than the matrix cache. This fails: the call assigns the attribute [_ad]. *)
Lemma to_ad_assigns_ad :
  ~ unchanged_but_cache Example.eq1
      (Equation.to_ad Example.numerics Example.eq1 Example.example_gb
         Example.example_state).2.
Proof. intros [_ Had]. vm_compute in Had. discriminate. Qed.

(** C9, amended. A call of [to_ad], and hence a call of
    [assemble_matrix_rhs], leaves the operator tree, the name, the index
    arrays and the ids of the variables of every equation as they were,
    whether it returns or raises. Besides the matrix cache the call assigns
    the attribute [_ad]: once the variables are seeded, [_ad] is the
    dictionary from the ids of the variables to their seeds. *)
Theorem to_ad_frame_fields (N : Numerics) (state : vec) :
  (forall eq gb, same_frame eq (Equation.to_ad N eq gb state).2) /\
  (forall em h a, same_frame (h a) ((assemble_matrix_rhs N em state h).2 a)) /\
  (forall eq gb slices ad_vars,
     rmap (Np.take_indices state) (Equation._variable_dofs eq) = Ok slices ->
     initAdArrays N slices = Ok ad_vars ->
     Equation._ad (Equation.to_ad N eq gb state).2
     = Some (Equation.dict_of_zip (Equation._variable_ids eq) ad_vars)).
Proof.
  split; [|split].
  - intros eq gb. apply to_ad_frame.
  - intros em h a. apply (assemble_extends N em state h a).
  - intros eq gb slices ad_vars Hslices Hseed. unfold Equation.to_ad.
    rewrite Hslices. simpl. rewrite Hseed.
    by destruct (Equation._parse_operator N _ gb _ _).
Qed.

Lemma to_ad_frame_fields_witness :
  same_frame Example.eq3
    (Equation.to_ad Example.numerics Example.eq3 Example.example_gb
       Example.example_state).2 /\
  Equation._ad
    (Equation.to_ad Example.numerics Example.eq3 Example.example_gb
       Example.example_state).2
  = Some [(0, VAd [1; 2; 3; 4]%Z
                {| nrows := 4; ncols := 4;
                   entries := [(0, 0, 1%Z); (1, 1, 1%Z); (2, 2, 1%Z); (3, 3, 1%Z)] |})].
Proof.
  destruct (to_ad_frame_fields Example.numerics Example.example_state) as (Hframe & _ & Had).
  split; [apply Hframe|].
  exact (Had Example.eq3 Example.example_gb [[1; 2; 3; 4]%Z] _ eq_refl eq_refl).
Defined.

(** C10. With an empty list of equations [assemble_matrix_rhs] raises: the
    stacking of no blocks is refused. No pair [(A, rhs)] is returned, and the
    store of equations is left as it was. *)
Theorem assemble_no_equations (N : Numerics) (em : EquationManager.t)
    (state : vec) (h : store) :
  _equations em = [] ->
  assemble_matrix_rhs N em state h = (Raise (ValueError "blocks must be 2-D"), h).
Proof. intros Hnil. unfold assemble_matrix_rhs. by rewrite Hnil. Qed.

Lemma assemble_no_equations_witness :
  _equations (EquationManager.attributes Example.example_gb_all None) = [] /\
  (assemble_matrix_rhs Example.numerics (EquationManager.attributes Example.example_gb_all None)
     Example.example_state Example.example_store).1
  = Raise (ValueError "blocks must be 2-D").
Proof.
  split; [reflexivity|].
  exact (f_equal fst (assemble_no_equations Example.numerics
           (EquationManager.attributes Example.example_gb_all None)
           Example.example_state Example.example_store eq_refl)).
Defined.

End Assembly.

(** * Variable discovery and malformed trees *)

Module Trees.
Import Equation EquationFacts.

(** C2, at a tree that is a single variable. [_find_subtree_variables]
    returns the variable itself and not a list, [set(...)] of it raises, and
    no equation is constructed; the same holds for a single merged variable.
    For a tree without variables the equation is constructed with no index
    array, and [local_dofs()] raises, since [np.hstack] refuses an empty
    list. *)
Theorem init_single_variable_raises (dm : DofManager.t) (nm : option string)
    (_op : Operation.t) (_children : list Operator) :
  (forall v,
     _find_subtree_variables (Node (IsVariable v) _op _children) = FoundVariable (Plain v) /\
     init (AnOperator (Node (IsVariable v) _op _children)) dm nm
     = Raise (TypeError "object is not iterable")) /\
  (forall mv,
     init (AnOperator (Node (IsMergedVariable mv) _op _children)) dm nm
     = Raise (TypeError "object is not iterable")) /\
  (forall x,
     exists eq,
       init (AnOperator (Node (IsScalar x) _op [])) dm nm = Ok eq /\
       _variable_dofs eq = [] /\
       local_dofs eq = Raise (ValueError "need at least one array to concatenate")).
Proof.
  split; [|split].
  - intros v. by split.
  - by intros mv.
  - intros x. eexists. split; [reflexivity|]. by split.
Qed.

(** For a tree whose root is not a variable, the constructor does what
    variable discovery asks for: the ids of the variables are those of the
    variable leaves, each once and in ascending order, the index arrays
    are those of the variables in this order, and [local_dofs()] is their
    concatenation. *)
Lemma init_Ok_variables arg dm nm eq :
  init arg dm nm = Ok eq ->
  let variables := sorted_by_id (set_of (variable_leaves (_operator eq))) in
  _variable_ids eq = ids_of variables /\
  StronglySorted lt (_variable_ids eq) /\
  (forall i, i ∈ _variable_ids eq <-> i ∈ ids_of (variable_leaves (_operator eq))) /\
  Forall2 (fun x inds => variable_inds dm x = Ok (inds, leaf_id x))
    variables (_variable_dofs eq) /\
  (forall idx, local_dofs eq = Ok idx -> idx = concat (_variable_dofs eq)).
Proof.
  unfold init. rewrite rbind_Ok. intros (op & _ & H).
  apply rbind_Ok in H as ([dofs ids] & Hid & [= <-]). simpl.
  destruct (VariablesFacts.identify_variables_Ok op dm dofs ids Hid) as (H1 & H2 & H3 & H4).
  repeat split; try done; try apply H3.
  intros idx Hidx. by apply hstack_Ok in Hidx.
Qed.

(** C7, at a product or a quotient with three children. The first two
    results are combined and the third is ignored: no exception is raised for
    the wrong number of children, where a sum or a difference with three
    children fails its assertion. *)
Theorem mul_div_ignore_extra_children (N : Numerics) (ad : Dict.t nat value)
    (gb : GridBucket) (c : cache) (x y z : Z) :
  let three _op :=
    Node IsOperator _op
      [Example.leaf (IsScalar x); Example.leaf (IsScalar y); Example.leaf (IsScalar z)] in
  _parse_operator N ad gb (three Operation.mul) c = (py_mul N (VNum x) (VNum y), c) /\
  _parse_operator N ad gb (three Operation.div) c = (py_div N (VNum x) (VNum y), c) /\
  _parse_operator N ad gb (three Operation.add) c = (Raise AssertionError, c) /\
  _parse_operator N ad gb (three Operation.sub) c = (Raise AssertionError, c) /\
  _parse_operator Example.numerics ad gb (three Operation.mul) c = (Ok (VNum (x * y)), c).
Proof. by repeat split. Qed.

(** The malformed nodes that do raise: an unknown tag, a sum or a
    difference whose number of children is not two, and a product or a
    quotient with one child. *)
Lemma malformed_raises (N : Numerics) (ad : Dict.t nat value) (gb : GridBucket)
    (c : cache) (cls : OperatorClass) (_op : Operation.t) (ch : list Operator) :
  (cls = IsOperator \/ exists mo, cls = IsMergedOperator mo) ->
  ch <> [] ->
  match _op with
  | Operation.other _ => True
  | Operation.add | Operation.sub => length ch <> 2
  | Operation.mul | Operation.div => length ch = 1
  | Operation.evaluate => False
  end ->
  exists e, (_parse_operator N ad gb (Node cls _op ch) c).1 = Raise e.
Proof.
  intros Hcls Hch Hbad.
  assert (Hcomp : _parse_operator N ad gb (Node cls _op ch) c
                  = composite N _op (smap (_parse_operator N ad gb) ch c)).
  { destruct Hcls as [->|[mo ->]]; by destruct ch. }
  rewrite Hcomp. unfold composite.
  assert (Hlen : forall rs c', smap (_parse_operator N ad gb) ch c = (Ok rs, c') ->
            length rs = length ch).
  { clear. revert c. induction ch as [|o ch IH]; intros c rs c'; simpl.
    - by intros [= <- _].
    - destruct (_parse_operator N ad gb o c) as [[v|e] c1]; [|done].
      specialize (IH c1). destruct (smap _ ch c1) as [[vs|e] c2]; [|done].
      intros [= <- _]. simpl. f_equal. by eapply IH. }
  destruct (smap (_parse_operator N ad gb) ch c) as [[rs|e] c'] eqn:Hs;
    [|by exists e].
  specialize (Hlen rs c' eq_refl). simpl.
  destruct _op; simpl.
  - rewrite decide_False by congruence. by eexists.
  - rewrite decide_False by congruence. by eexists.
  - destruct rs as [|r0 [|r1 rs]]; simpl in *; try by eexists. lia.
  - destruct rs as [|r0 [|r1 rs]]; simpl in *; try by eexists. lia.
  - done.
  - by eexists.
Qed.

End Trees.

(** * Further properties *)

(** ** The block layout *)

Module LayoutMoreFacts.
Import DofManager DofManagerFacts.

Lemma declared_keys_lookup gb k key :
  map fst (declared gb) !! k = Some key <->
  exists size, declared gb !! k = Some (key, size).
Proof.
  change (map fst (declared gb)) with (fst <$> declared gb).
  rewrite list_lookup_fmap. destruct (declared gb !! k) as [[key' sz]|]; simpl.
  - split; [intros [= ->]; by exists sz | by intros (? & [= -> _])].
  - split; [done | by intros (? & ?)].
Qed.

(** In a layout built from a bucket, the block index of a pair is its
    position among the declared pairs. *)
Lemma block_lookup gb key b :
  gb_wf gb ->
  Dict.get key (block_dof (init gb)) = Some b <-> map fst (declared gb) !! b = Some key.
Proof.
  intros Hwf. split.
  - intros Hget.
    assert (Hin : key ∈ map fst (declared gb)).
    { apply keys_init. apply dec_stable. intros Hnin.
      apply DictFacts.get_None in Hnin. congruence. }
    apply list_elem_of_lookup in Hin as [k Hk]. pose proof Hk as Hk'.
    apply declared_keys_lookup in Hk' as [size Hd].
    destruct (declared_block gb k key size Hwf Hd) as [Hget' _].
    rewrite Hget in Hget'. by injection Hget' as ->.
  - intros Hk. apply declared_keys_lookup in Hk as [size Hd].
    by destruct (declared_block gb b key size Hwf Hd).
Qed.

Lemma dof_ind_declared gb k key size :
  gb_wf gb -> declared gb !! k = Some (key, size) ->
  dof_ind (init gb) key.1 key.2
  = Ok (seq (sum_list (take k (full_dof (init gb)))) size).
Proof.
  intros Hwf Hd. destruct (declared_block gb k key size Hwf Hd) as [Hget Hsize].
  destruct key as [g name]. simpl.
  rewrite (dof_ind_block _ g name k Hget) by (by eapply lookup_lt_Some).
  unfold arange. rewrite (sum_list_take_S _ k size Hsize). do 2 f_equal. lia.
Qed.

Lemma sum_list_take_mono (l : list nat) a b :
  a <= b -> sum_list (take a l) <= sum_list (take b l).
Proof.
  revert a b. induction l as [|x l IH]; intros a b Hab; [by rewrite !take_nil|].
  destruct a as [|a]; [simpl; lia|]. destruct b as [|b]; [lia|]. simpl.
  specialize (IH a b ltac:(lia)). lia.
Qed.

(** What [dof_ind] can do on a layout built from a bucket: return the range
    of a declared pair, or raise the [KeyError] of an undeclared one. *)
Lemma dof_ind_built gb g name :
  gb_wf gb ->
  (exists k size, declared gb !! k = Some ((g, name), size) /\
     dof_ind (init gb) g name
     = Ok (seq (sum_list (take k (full_dof (init gb)))) size)) \/
  (((g, name) ∉ map fst (declared gb)) /\
   dof_ind (init gb) g name = Raise (KeyError (KBlock g name))).
Proof.
  intros Hwf. destruct (decide ((g, name) ∈ map fst (declared gb))) as [Hin|Hnin].
  - left. apply list_elem_of_lookup in Hin as [k Hk].
    apply declared_keys_lookup in Hk as [size Hd]. exists k, size. split; [done|].
    apply (dof_ind_declared gb k (g, name) size Hwf Hd).
  - right. split; [done|]. unfold dof_ind.
    assert (Hget : Dict.get (g, name) (block_dof (init gb)) = None).
    { apply DictFacts.get_None. by rewrite keys_init. }
    by rewrite Hget.
Qed.

Lemma ranges_ordered gb key key' b b' ind ind' i i' :
  gb_wf gb ->
  Dict.get key (block_dof (init gb)) = Some b ->
  Dict.get key' (block_dof (init gb)) = Some b' ->
  b < b' ->
  dof_ind (init gb) key.1 key.2 = Ok ind ->
  dof_ind (init gb) key'.1 key'.2 = Ok ind' ->
  i ∈ ind -> i' ∈ ind' -> i < i'.
Proof.
  intros Hwf Hb Hb' Hlt Hind Hind' Hi Hi'.
  apply (block_lookup gb _ _ Hwf) in Hb, Hb'.
  apply declared_keys_lookup in Hb as [size Hd], Hb' as [size' Hd'].
  rewrite (dof_ind_declared gb b key size Hwf Hd) in Hind.
  rewrite (dof_ind_declared gb b' key' size' Hwf Hd') in Hind'.
  assert (ind = seq (sum_list (take b (full_dof (init gb)))) size) as -> by congruence.
  assert (ind' = seq (sum_list (take b' (full_dof (init gb)))) size') as -> by congruence.
  apply elem_of_seq in Hi, Hi'.
  destruct (declared_block gb b key size Hwf Hd) as [_ Hsize].
  pose proof (sum_list_take_S _ b size Hsize) as HS.
  pose proof (sum_list_take_mono (full_dof (init gb)) (b + 1) b'). lia.
Qed.

End LayoutMoreFacts.

Module LayoutMore.
Import DofManager DofManagerFacts LayoutMoreFacts.

(** X1. In a layout with fewer than [2^63] dofs, the index array of the
    [k]-th declared pair has exactly as many entries as the pair has dofs, and
    starts at the sum of the sizes of the blocks before it; the sums of 64-bit
    integers of the code give this array. A variable without dofs (an
    interface variable that declares no cell dofs, say) gets an empty array
    and still has its block index. *)
Theorem dof_ind_length (gb : GridBucket) (k : nat) (key : grid_like * string) (size : nat) :
  gb_wf gb ->
  fits_int64 (full_dof (init gb)) ->
  declared gb !! k = Some (key, size) ->
  exists ind,
    dof_ind_int64 (init gb) key.1 key.2 = Ok (map Z.of_nat ind) /\
    dof_ind (init gb) key.1 key.2 = Ok ind /\
    length ind = size /\
    (forall j, j < size -> ind !! j = Some (sum_list (take k (full_dof (init gb))) + j)) /\
    Dict.get key (block_dof (init gb)) = Some k.
Proof.
  intros Hwf Hfit Hd. exists (seq (sum_list (take k (full_dof (init gb)))) size).
  pose proof (dof_ind_declared gb k key size Hwf Hd) as Hind.
  split; [by rewrite (Int64Facts.dof_ind_int64_fits _ key.1 key.2 Hfit), Hind|].
  split; [exact Hind|]. split; [apply length_seq|]. split.
  - intros j Hj. by apply lookup_seq_lt.
  - by destruct (declared_block gb k key size Hwf Hd).
Qed.

Lemma dof_ind_length_witness :
  exists ind,
    dof_ind_int64 (init Example.example_gb) (GNode Example.example_g1) "flux"
    = Ok (map Z.of_nat ind) /\
    dof_ind (init Example.example_gb) (GNode Example.example_g1) "flux" = Ok ind /\
    length ind = 10.
Proof.
  destruct (dof_ind_length Example.example_gb 1 (GNode Example.example_g1, "flux"%string) 10
              example_gb_wf Int64Facts.example_gb_fits eq_refl)
    as (ind & H64 & Hind & Hlen & _).
  exists ind. by repeat split.
Defined.

(** X2. In a layout with fewer than [2^63] dofs the global numbering follows
    the block index: of two declared pairs the one with the smaller block
    index has all its dofs before all the dofs of the other, also in the
    arrays of 64-bit integers that the code returns. The variables of the
    grids come before those of the interfaces: every pair of a node has a
    smaller block index than every pair of an edge. *)
Theorem blocks_in_order (gb : GridBucket) :
  gb_wf gb ->
  fits_int64 (full_dof (init gb)) ->
  let dm := init gb in
  (forall g name g1 g2 name' b b',
     Dict.get (GNode g, name) (block_dof dm) = Some b ->
     Dict.get (GEdge g1 g2, name') (block_dof dm) = Some b' ->
     b < b') /\
  (forall key key' b b' ind ind' i i',
     Dict.get key (block_dof dm) = Some b ->
     Dict.get key' (block_dof dm) = Some b' ->
     b < b' ->
     dof_ind dm key.1 key.2 = Ok ind ->
     dof_ind dm key'.1 key'.2 = Ok ind' ->
     i ∈ ind -> i' ∈ ind' -> i < i') /\
  (forall key key' b b' ind ind' i i',
     Dict.get key (block_dof dm) = Some b ->
     Dict.get key' (block_dof dm) = Some b' ->
     b < b' ->
     dof_ind_int64 dm key.1 key.2 = Ok ind ->
     dof_ind_int64 dm key'.1 key'.2 = Ok ind' ->
     i ∈ ind -> i' ∈ ind' -> (0 <= i < i')%Z).
Proof.
  intros Hwf Hfit dm. subst dm. split; [|split].
  - intros g name g1 g2 name' b b' Hb Hb'.
    apply (block_lookup gb _ _ Hwf) in Hb, Hb'.
    unfold declared in Hb, Hb'. rewrite map_app in Hb, Hb'.
    destruct (decide (b < length (map fst (flat_map node_declared (gb_nodes gb)))))
      as [Hlt|Hge].
    + destruct (decide (b' < length (map fst (flat_map node_declared (gb_nodes gb)))))
        as [Hlt'|Hge']; [|lia].
      rewrite lookup_app_l in Hb' by done.
      apply list_elem_of_lookup_2, elem_of_node_declared in Hb'
        as (? & ? & ? & ? & Heq & _). discriminate.
    + rewrite lookup_app_r in Hb by lia.
      apply list_elem_of_lookup_2, elem_of_edge_declared in Hb
        as (? & ? & ? & ? & ? & Heq & _). discriminate.
  - intros key key' b b' ind ind' i i'. by apply ranges_ordered.
  - intros key key' b b' ind ind' i i' Hb Hb' Hlt.
    rewrite !(Int64Facts.dof_ind_int64_fits _ _ _ Hfit).
    destruct (dof_ind (init gb) key.1 key.2) as [r|] eqn:Hr; [|done].
    destruct (dof_ind (init gb) key'.1 key'.2) as [r'|] eqn:Hr'; [|done].
    intros [= <-] [= <-] Hi Hi'. change (map ?f ?l) with (f <$> l) in Hi, Hi'.
    apply list_elem_of_fmap in Hi as (j & -> & Hj), Hi' as (j' & -> & Hj').
    pose proof (ranges_ordered gb key key' b b' r r' j j' Hwf Hb Hb' Hlt Hr Hr' Hj Hj').
    lia.
Qed.

Lemma blocks_in_order_witness :
  Dict.get (GNode Example.example_g1, "flux"%string)
    (block_dof (init Example.example_gb)) = Some 1 /\
  Dict.get (GEdge Example.example_g1 Example.example_g2, "mortar_flux"%string)
    (block_dof (init Example.example_gb)) = Some 2 /\
  1 < 2.
Proof.
  split; [reflexivity|]. split; [reflexivity|].
  exact (proj1 (blocks_in_order Example.example_gb example_gb_wf Int64Facts.example_gb_fits)
           Example.example_g1 "flux"%string Example.example_g1 Example.example_g2
           "mortar_flux"%string 1 2 eq_refl eq_refl).
Defined.

(** X3. No two declared pairs share a block index, and in a layout with
    fewer than [2^63] dofs no dof belongs to two of them: when an index is in
    the arrays that [dof_ind] returns for two pairs, the pairs are the
    same. *)
Theorem dofs_not_shared (gb : GridBucket) :
  gb_wf gb ->
  fits_int64 (full_dof (init gb)) ->
  let dm := init gb in
  (forall key key' b,
     Dict.get key (block_dof dm) = Some b -> Dict.get key' (block_dof dm) = Some b ->
     key = key') /\
  (forall key key' ind ind' i,
     dof_ind dm key.1 key.2 = Ok ind -> dof_ind dm key'.1 key'.2 = Ok ind' ->
     i ∈ ind -> i ∈ ind' -> key = key') /\
  (forall key key' ind ind' i,
     dof_ind_int64 dm key.1 key.2 = Ok ind -> dof_ind_int64 dm key'.1 key'.2 = Ok ind' ->
     i ∈ ind -> i ∈ ind' -> key = key').
Proof.
  intros Hwf Hfit dm. subst dm.
  assert (Hinj : forall key key' b,
            Dict.get key (block_dof (init gb)) = Some b ->
            Dict.get key' (block_dof (init gb)) = Some b -> key = key').
  { intros key key' b Hb Hb'. apply (block_lookup gb _ _ Hwf) in Hb, Hb'. congruence. }
  assert (Hshared : forall key key' ind ind' i,
            dof_ind (init gb) key.1 key.2 = Ok ind ->
            dof_ind (init gb) key'.1 key'.2 = Ok ind' ->
            i ∈ ind -> i ∈ ind' -> key = key').
  2: { split; [exact Hinj|]. split; [exact Hshared|].
       intros key key' ind ind' i.
       rewrite !(Int64Facts.dof_ind_int64_fits _ _ _ Hfit).
       destruct (dof_ind (init gb) key.1 key.2) as [r|] eqn:Hr; [|done].
       destruct (dof_ind (init gb) key'.1 key'.2) as [r'|] eqn:Hr'; [|done].
       intros [= <-] [= <-] Hi Hi'. change (map ?f ?l) with (f <$> l) in Hi, Hi'.
       apply list_elem_of_fmap in Hi as (j & -> & Hj), Hi' as (j' & Hjj & Hj').
       apply Nat2Z.inj in Hjj as <-. by eapply Hshared. }
  intros [g name] [g' name'] ind ind' i Hind Hind' Hi Hi'. simpl in *.
  destruct (dof_ind_built gb g name Hwf) as [(k & size & Hd & Hok)|[_ Hraise]];
    [|congruence].
  destruct (dof_ind_built gb g' name' Hwf) as [(k' & size' & Hd' & Hok')|[_ Hraise]];
    [|congruence].
  destruct (declared_block gb k _ size Hwf Hd) as [Hget Hsize].
  destruct (declared_block gb k' _ size' Hwf Hd') as [Hget' Hsize'].
  destruct (lt_eq_lt_dec k k') as [[Hlt| ->]|Hgt].
  - pose proof (ranges_ordered gb (g, name) (g', name') k k' ind ind' i i
                  Hwf Hget Hget' Hlt Hind Hind' Hi Hi'). lia.
  - by eapply Hinj.
  - pose proof (ranges_ordered gb (g', name') (g, name) k' k ind' ind i i
                  Hwf Hget' Hget Hgt Hind' Hind Hi' Hi). lia.
Qed.

Lemma dofs_not_shared_witness :
  (GNode Example.example_g1, "flux"%string)
  = (GNode Example.example_g1, "flux"%string).
Proof.
  exact (proj1 (proj2 (dofs_not_shared Example.example_gb example_gb_wf
                         Int64Facts.example_gb_fits))
           (GNode Example.example_g1, "flux"%string)
           (GNode Example.example_g1, "flux"%string)
           (arange 4 14) (arange 4 14) 5 eq_refl eq_refl
           (proj2 (elem_of_arange 4 14 5) (conj (le_S _ _ (le_n 4)) (le_n_S _ _ (le_n_S _ _ (le_n_S _ _ (le_n_S _ _ (le_n_S _ _ (le_n_S _ _ (Nat.le_0_l _)))))))))
           (proj2 (elem_of_arange 4 14 5) (conj (le_S _ _ (le_n 4)) (le_n_S _ _ (le_n_S _ _ (le_n_S _ _ (le_n_S _ _ (le_n_S _ _ (le_n_S _ _ (Nat.le_0_l _)))))))))).
Defined.

End LayoutMore.

(** ** The textual summary of the layout *)

Module ReprFacts.
Import DofManager DofManagerFacts DofManagerRepr.

Section repr.
Context (dim : Grid -> Z).

Lemma count_grid_comm st a b :
  count_grid dim (count_grid dim st a) b = count_grid dim (count_grid dim st b) a.
Proof.
  destruct a, b; unfold count_grid; simpl; f_equal; lia.
Qed.

Lemma fold_count_perm gs gs' st :
  gs ≡ₚ gs' -> fold_left (count_grid dim) gs st = fold_left (count_grid dim) gs' st.
Proof.
  intros Hperm. revert st.
  induction Hperm as [|x l l' _ IH|x y l|l1 l2 l3 _ IH1 _ IH2]; intros st; simpl.
  - done.
  - apply IH.
  - by rewrite count_grid_comm.
  - by rewrite IH1, IH2.
Qed.

Lemma fold_count_spec gs st :
  let s := fold_left (count_grid dim) gs st in
  num_grids s = num_grids st + length (filter (fun g => is_grid g = true) gs) /\
  num_interfaces s = num_interfaces st + length (filter (fun g => is_grid g = false) gs) /\
  (dim_max st <= dim_max s)%Z /\ (dim_min s <= dim_min st)%Z /\
  (forall g, GNode g ∈ gs -> (dim_min s <= dim g <= dim_max s)%Z) /\
  ((forall g, GNode g ∉ gs) -> dim_max s = dim_max st /\ dim_min s = dim_min st).
Proof.
  revert st. induction gs as [|x gs IH]; intros st; simpl.
  - split; [lia|]. split; [lia|]. split; [lia|]. split; [lia|]. split; [|done].
    intros g Hg. by apply not_elem_of_nil in Hg.
  - destruct (IH (count_grid dim st x)) as (H1 & H2 & H3 & H4 & H5 & H6).
    rewrite H1, H2. rewrite !filter_cons.
    destruct x as [g0|g1 g2]; simpl in *.
    + split; [lia|]. split; [lia|]. split; [lia|]. split; [lia|]. split.
      * intros g Hg. apply elem_of_cons in Hg as [[= ->]|Hg]; [lia|].
        by apply H5.
      * intros Hno. destruct (Hno g0). by left.
    + split; [lia|]. split; [lia|]. split; [lia|]. split; [lia|]. split.
      * intros g Hg. apply elem_of_cons in Hg as [?|Hg]; [done|]. by apply H5.
      * intros Hno. apply H6. intros g Hg. apply (Hno g). by right.
Qed.
End repr.

Lemma elem_of_unique_grids dm g :
  g ∈ unique_grids dm <-> exists name, (g, name) ∈ Dict.keys (block_dof dm).
Proof.
  unfold unique_grids. rewrite elem_of_remove_dups.
  change (map fst (Dict.keys (block_dof dm))) with (fst <$> Dict.keys (block_dof dm)).
  rewrite list_elem_of_fmap. split.
  - intros ([g' name] & -> & Hin). by exists name.
  - intros (name & Hin). by exists (g, name).
Qed.

Lemma filter_grids_nodes (b : bool) (gs : list Grid) :
  filter (fun g => is_grid g = b) (map GNode gs) = if b then map GNode gs else [].
Proof.
  induction gs as [|g gs IH]; cbn [map]; [by destruct b|].
  rewrite filter_cons, IH. by destruct b.
Qed.

Lemma filter_grids_edges (b : bool) (es : list (Grid * Grid)) :
  filter (fun g => is_grid g = b) (map (fun e => GEdge e.1 e.2) es)
  = if b then [] else map (fun e => GEdge e.1 e.2) es.
Proof.
  induction es as [|e es IH]; cbn [map]; [by destruct b|].
  rewrite filter_cons, IH. by destruct b.
Qed.

Lemma length_filter_is_grid (l : list grid_like) :
  length (filter (fun g => is_grid g = true) l)
  + length (filter (fun g => is_grid g = false) l) = length l.
Proof.
  induction l as [|x l IH]; [done|]. rewrite !filter_cons.
  destruct x; simpl; lia.
Qed.

Lemma length_filter_grids (gs : list Grid) (es : list (Grid * Grid)) :
  length (filter (fun g => is_grid g = true)
            (map GNode gs ++ map (fun e => GEdge e.1 e.2) es)) = length gs /\
  length (filter (fun g => is_grid g = false)
            (map GNode gs ++ map (fun e => GEdge e.1 e.2) es)) = length es.
Proof.
  rewrite !filter_app, !filter_grids_nodes, !filter_grids_edges.
  rewrite app_nil_r. simpl. by rewrite !length_map.
Qed.

(** The entities of a bucket that declare at least one variable. *)
Lemma declared_entity gb g :
  (exists name, (g, name) ∈ map fst (declared gb)) <->
  g ∈ map GNode (map fst (filter (fun gd => has_variables (PRIMARY_VARIABLES gd.2) = true)
                            (gb_nodes gb)))
      ++ map (fun e => GEdge e.1 e.2)
           (map fst (filter (fun ed => has_variables (e_PRIMARY_VARIABLES ed.2) = true)
                       (gb_edges gb))).
Proof.
  rewrite elem_of_app. split.
  - intros (name & Hin). unfold declared in Hin. rewrite map_app, elem_of_app in Hin.
    destruct Hin as [Hin|Hin].
    + left. apply elem_of_node_declared in Hin as (g0 & d & vars & name' & [= -> ->] & Hgd & Hv & Hn).
      change (GNode g0 ∈ GNode <$> (fst <$> filter (fun gd => has_variables (PRIMARY_VARIABLES gd.2) = true) (gb_nodes gb))).
      apply list_elem_of_fmap. exists g0. split; [done|].
      apply list_elem_of_fmap. exists (g0, d). split; [done|].
      apply list_elem_of_filter. split; [|done]. simpl. rewrite Hv.
      destruct vars; [|done]. by apply not_elem_of_nil in Hn.
    + right. apply elem_of_edge_declared in Hin
        as (g1 & g2 & d & vars & name' & [= -> ->] & Hgd & Hv & Hn).
      change (GEdge g1 g2 ∈ (fun e : Grid * Grid => GEdge e.1 e.2) <$> (fst <$> filter (fun ed => has_variables (e_PRIMARY_VARIABLES ed.2) = true) (gb_edges gb))).
      apply list_elem_of_fmap. exists (g1, g2). split; [done|].
      apply list_elem_of_fmap. exists ((g1, g2), d). split; [done|].
      apply list_elem_of_filter. split; [|done]. simpl. rewrite Hv.
      destruct vars; [|done]. by apply not_elem_of_nil in Hn.
  - intros [Hin|Hin].
    + change (g ∈ GNode <$> (fst <$> filter (fun gd => has_variables (PRIMARY_VARIABLES gd.2) = true) (gb_nodes gb))) in Hin.
      apply list_elem_of_fmap in Hin as (g0 & -> & Hin).
      apply list_elem_of_fmap in Hin as ([g0' d] & -> & Hin).
      apply list_elem_of_filter in Hin as [Hv Hgd]. simpl in *.
      destruct (PRIMARY_VARIABLES d) as [[|[name ld] vars]|] eqn:Hpv; try done.
      exists name. unfold declared. rewrite map_app, elem_of_app. left.
      apply list_elem_of_In, in_map_iff.
      exists ((GNode g0', name), grid_block_size g0' ld). split; [done|].
      apply in_flat_map. exists (g0', d). split; [by apply list_elem_of_In|].
      unfold node_declared. simpl. rewrite Hpv. by left.
    + change (g ∈ (fun e : Grid * Grid => GEdge e.1 e.2) <$> (fst <$> filter (fun ed => has_variables (e_PRIMARY_VARIABLES ed.2) = true) (gb_edges gb))) in Hin.
      apply list_elem_of_fmap in Hin as (e & -> & Hin).
      apply list_elem_of_fmap in Hin as ([e' d] & -> & Hin).
      apply list_elem_of_filter in Hin as [Hv Hgd]. simpl in *.
      destruct (e_PRIMARY_VARIABLES d) as [[|[name ld] vars]|] eqn:Hpv; try done.
      exists name. unfold declared. rewrite map_app, elem_of_app. right.
      apply list_elem_of_In, in_map_iff.
      exists ((GEdge e'.1 e'.2, name), mortar_block_size (mortar_grid d) ld).
      split; [done|].
      apply in_flat_map. exists (e', d). split; [by apply list_elem_of_In|].
      unfold edge_declared. simpl. rewrite Hpv. by left.
Qed.

End ReprFacts.

Module Repr.
Import DofManager DofManagerFacts DofManagerRepr ReprFacts.

(** X4. The summary that [__repr__] prints does not depend on the order in
    which the set of grids and edges is iterated. Every grid or edge with a
    variable is counted once; the dimension of every grid with a variable lies
    between the printed minimum and maximum; when no grid has a variable the
    printed maximum is -1 and the printed minimum is 4. *)
Theorem repr_summary (dim : Grid -> Z) (dm : DofManager.t) :
  let s := summarize dim (unique_grids dm) in
  (forall gs, gs ≡ₚ unique_grids dm -> summarize dim gs = s) /\
  num_grids s + num_interfaces s = length (unique_grids dm) /\
  NoDup (unique_grids dm) /\
  (forall g name, (GNode g, name) ∈ Dict.keys (block_dof dm) ->
     1 <= num_grids s /\ (dim_min s <= dim g <= dim_max s)%Z) /\
  ((forall g name, (GNode g, name) ∉ Dict.keys (block_dof dm)) ->
     num_grids s = 0 /\ dim_max s = (-1)%Z /\ dim_min s = 4%Z).
Proof.
  intros s. subst s. unfold summarize.
  destruct (fold_count_spec dim (unique_grids dm)
              {| num_grids := 0; num_interfaces := 0; dim_max := (-1)%Z; dim_min := 4%Z |})
    as (H1 & H2 & H3 & H4 & H5 & H6). simpl in *.
  split; [intros gs Hperm; by apply fold_count_perm|].
  split.
  - rewrite H1, H2. simpl. apply length_filter_is_grid.
  - split; [apply NoDup_remove_dups|]. split.
    + intros g name Hin.
      assert (Hg : GNode g ∈ unique_grids dm) by (apply elem_of_unique_grids; eauto).
      split; [|by apply H5]. rewrite H1. simpl.
      apply list_elem_of_lookup in Hg as [k Hk].
      assert (Hf : GNode g ∈ filter (fun g => is_grid g = true) (unique_grids dm)).
      { apply list_elem_of_filter. split; [done|]. by eapply list_elem_of_lookup_2. }
      destruct (filter _ _); [by apply not_elem_of_nil in Hf | simpl; lia].
    + intros Hno.
      assert (Hno' : forall g, GNode g ∉ unique_grids dm).
      { intros g Hg. apply elem_of_unique_grids in Hg as [name Hin]. by eapply Hno. }
      destruct (H6 Hno') as [-> ->]. split; [|done]. rewrite H1. simpl.
      assert (Hnil : filter (fun g => is_grid g = true) (unique_grids dm) = []).
      { destruct (filter _ _) as [|x l] eqn:Hf; [done|].
        assert (Hx : x ∈ filter (fun g => is_grid g = true) (unique_grids dm))
          by (rewrite Hf; by left).
        apply list_elem_of_filter in Hx as [Hgrid Hx].
        destruct x as [g|]; [|done]. by destruct (Hno' g). }
      by rewrite Hnil.
Qed.

(** X5. For the layout of a bucket, [__repr__] reports as subdomains the
    number of nodes that declare at least one variable, and as interfaces the
    number of edges that do; a node or edge with several variables counts
    once, one without variables does not count. *)
Theorem repr_counts_entities (dim : Grid -> Z) (gb : GridBucket) :
  gb_wf gb ->
  let s := summarize dim (unique_grids (init gb)) in
  num_grids s
  = length (filter (fun gd => has_variables (PRIMARY_VARIABLES gd.2) = true) (gb_nodes gb)) /\
  num_interfaces s
  = length (filter (fun ed => has_variables (e_PRIMARY_VARIABLES ed.2) = true) (gb_edges gb)).
Proof.
  intros Hwf s. subst s.
  set (ns := map fst (filter (fun gd => has_variables (PRIMARY_VARIABLES gd.2) = true)
                        (gb_nodes gb))).
  set (es := map fst (filter (fun ed => has_variables (e_PRIMARY_VARIABLES ed.2) = true)
                        (gb_edges gb))).
  assert (Hperm : unique_grids (init gb)
                  ≡ₚ map GNode ns ++ map (fun e => GEdge e.1 e.2) es).
  { apply NoDup_Permutation.
    - apply NoDup_remove_dups.
    - apply NoDup_app. split; [|split].
      + apply (NoDup_fmap_2_strong GNode); [by intros ? ? _ _ [= ->]|].
        apply (NoDup_fmap_2_strong fst).
        * intros [g d] [g' d'] Hx Hy Heq. simpl in Heq. subst g'.
          apply list_elem_of_filter in Hx as [_ Hx], Hy as [_ Hy].
          f_equal. eapply NoDup_fst_agree; [apply (wf_nodes _ Hwf)|done..].
        * apply NoDup_filter.
          eapply NoDup_fmap_1. apply (wf_nodes _ Hwf).
      + intros x Hx Hy.
        change (x ∈ GNode <$> ns) in Hx. apply list_elem_of_fmap in Hx as (? & -> & _).
        change (GNode x0 ∈ (fun e : Grid * Grid => GEdge e.1 e.2) <$> es) in Hy.
        by apply list_elem_of_fmap in Hy as (? & ? & _).
      + apply (NoDup_fmap_2_strong (fun e : Grid * Grid => GEdge e.1 e.2)).
        * intros [g1 g2] [h1 h2] _ _ Heq. simpl in Heq. by injection Heq as -> ->.
        * apply (NoDup_fmap_2_strong fst).
          -- intros [e d] [e' d'] Hx Hy Heq. simpl in Heq. subst e'.
             apply list_elem_of_filter in Hx as [_ Hx], Hy as [_ Hy].
             f_equal. eapply NoDup_fst_agree; [apply (wf_edges _ Hwf)|done..].
          -- apply NoDup_filter.
             eapply NoDup_fmap_1. apply (wf_edges _ Hwf).
    - intros g. unfold ns, es. rewrite elem_of_unique_grids. rewrite <- declared_entity.
      split; intros (name & Hin); exists name; by apply keys_init. }
  unfold summarize. rewrite (fold_count_perm dim _ _ _ Hperm).
  destruct (fold_count_spec dim (map GNode ns ++ map (fun e => GEdge e.1 e.2) es)
              {| num_grids := 0; num_interfaces := 0; dim_max := (-1)%Z; dim_min := 4%Z |})
    as (H1 & H2 & _).
  rewrite H1, H2. simpl. destruct (length_filter_grids ns es) as [-> ->].
  unfold ns, es. by rewrite !length_map.
Qed.

Lemma repr_counts_entities_witness :
  num_grids (summarize (fun g => Z.of_nat (g_id g)) (unique_grids (init Example.example_gb))) = 1 /\
  num_interfaces (summarize (fun g => Z.of_nat (g_id g)) (unique_grids (init Example.example_gb))) = 1.
Proof.
  exact (repr_counts_entities (fun g => Z.of_nat (g_id g)) Example.example_gb example_gb_wf).
Defined.

End Repr.

(** ** Construction and evaluation of an equation *)

Module EquationMoreFacts.
Import DofManager DofManagerFacts LayoutMoreFacts Equation Rel EvalFacts EquationFacts
  VariablesFacts.

Lemma rmap_total {A B} (f : A -> result B) (l : list A) :
  (forall x, x ∈ l -> exists y, f x = Ok y) -> exists l', rmap f l = Ok l'.
Proof.
  induction l as [|x l IH]; intros H; simpl; [by eexists|].
  destruct (H x) as [y Hy]; [by left|]. rewrite Hy. simpl.
  destruct IH as [l' Hl']; [intros x' Hx'; apply H; by right|].
  rewrite Hl'. by eexists.
Qed.

Lemma rmap_Raise {A B} (f : A -> result B) (l : list A) e :
  rmap f l = Raise e -> exists x, x ∈ l /\ f x = Raise e.
Proof.
  induction l as [|x l IH]; simpl; [done|].
  destruct (f x) as [y|e'] eqn:Hx; simpl.
  - destruct (rmap f l) as [ys|e'] eqn:Hl; simpl; [done|].
    intros [= ->]. destruct (IH eq_refl) as (x' & Hin & Hx').
    exists x'. split; [by right|done].
  - intros [= ->]. exists x. split; [by left|done].
Qed.

(** The first element on which the body raises decides what the
    comprehension raises. *)
Lemma rmap_first_failure {A B} (f : A -> result B) pre x post e :
  (forall x', x' ∈ pre -> exists y, f x' = Ok y) -> f x = Raise e ->
  rmap f (pre ++ x :: post) = Raise e.
Proof.
  induction pre as [|x0 pre IH]; intros Hpre Hx; simpl.
  - by rewrite Hx.
  - destruct (Hpre x0) as [y ->]; [by left|]. simpl.
    rewrite IH; [done| |done]. intros x' Hx'. apply Hpre. by right.
Qed.

Lemma rmap_length {A B} (f : A -> result B) l l' :
  rmap f l = Ok l' -> length l' = length l.
Proof. intros H%rmap_Ok. symmetry. by eapply Forall2_length. Qed.

Lemma set_update_subset s l x :
  x ∈ set_update s l -> x ∈ s \/ x ∈ l.
Proof.
  revert s. induction l as [|y l IH]; intros s; simpl; [auto|].
  destruct (existsb (same_variable y) s).
  - intros [?|?]%IH; [by left | right; by right].
  - intros [Hin|?]%IH; [|right; by right].
    apply elem_of_app in Hin as [?|Hin]; [by left|].
    apply list_elem_of_singleton in Hin as ->. right. by left.
Qed.

(** The variables that the constructor looks up are leaves of the tree. *)
Lemma sorted_set_subset l x : x ∈ sorted_by_id (set_of l) -> x ∈ l.
Proof.
  rewrite sorted_by_id_perm. unfold set_of. intros [Hin|?]%set_update_subset; [|done].
  by apply not_elem_of_nil in Hin.
Qed.

Lemma find_subtree_not_variable cls o ch :
  is_variable_class cls = false ->
  _find_subtree_variables (Node cls o ch) = FoundList (variable_leaves (Node cls o ch)).
Proof.
  intros Hcls. pose proof (find_subtree_leaves (Node cls o ch)) as H.
  destruct cls; try done; simpl in *; by rewrite H.
Qed.

(** [state[ind]]: the entries at the indices, or an [IndexError]. *)
Lemma take_indices_Ok state ind :
  Forall (fun i => i < length state) ind ->
  exists s, Np.take_indices state ind = Ok s /\
    length s = length ind /\
    forall j i, ind !! j = Some i -> s !! j = state !! i.
Proof.
  unfold Np.take_indices, vec. induction 1 as [|i ind Hi _ IH].
  - exists []. by repeat split.
  - apply lookup_lt_is_Some in Hi as [x Hx].
    destruct IH as (s & Hs & Hlen & Hlk). exists (x :: s).
    split; [cbn [rmap]; rewrite Hx; cbn [rbind]; by rewrite Hs|].
    split; [simpl; lia|].
    intros [|j] i'; simpl; [intros [= <-]; by rewrite Hx|]. apply Hlk.
Qed.

Lemma take_indices_Raise state ind e :
  Np.take_indices state ind = Raise e ->
  e = IndexError /\ exists i, i ∈ ind /\ length state <= i.
Proof.
  unfold Np.take_indices, vec. intros (i & Hin & Hi)%rmap_Raise.
  revert Hi. case_match eqn:Hl; [discriminate|]. intros [= <-].
  split; [done|]. exists i. split; [done|]. by apply lookup_ge_None.
Qed.

Lemma take_indices_out state ind i :
  i ∈ ind -> length state <= i -> Np.take_indices state ind = Raise IndexError.
Proof.
  intros Hin Hi. destruct (Np.take_indices state ind) as [s|e] eqn:Hs.
  - apply rmap_Ok in Hs. apply list_elem_of_lookup in Hin as [j Hj].
    destruct (Forall2_lookup_l _ _ _ _ _ Hs Hj) as (x & _ & Hx).
    revert Hx. case_match eqn:Hl; [|discriminate]. apply lookup_lt_Some in Hl. lia.
  - by apply take_indices_Raise in Hs as [-> _].
Qed.

(** [dict(zip(ks, vs))] *)
Lemma get_fold_set_notin {K V} `{EqDecision K} (pairs : list (K * V)) d k :
  k ∉ map fst pairs ->
  Dict.get k (fold_left (fun d kv => Dict.set kv.1 kv.2 d) pairs d) = Dict.get k d.
Proof.
  revert d. induction pairs as [|[k0 v0] pairs IH]; intros d Hk; simpl; [done|].
  simpl in Hk. apply not_elem_of_cons in Hk as [Hne Hk].
  rewrite IH by done. by rewrite DictFacts.get_set_ne.
Qed.

Lemma get_fold_set_in {K V} `{EqDecision K} (pairs : list (K * V)) d j k v :
  NoDup (map fst pairs) -> pairs !! j = Some (k, v) ->
  Dict.get k (fold_left (fun d kv => Dict.set kv.1 kv.2 d) pairs d) = Some v.
Proof.
  revert d j. induction pairs as [|[k0 v0] pairs IH]; intros d j Hnd Hj; [done|].
  simpl in Hnd. apply NoDup_cons in Hnd as [Hnin Hnd]. simpl.
  destruct j as [|j]; simpl in Hj.
  - injection Hj as -> ->. rewrite get_fold_set_notin by done.
    apply DictFacts.get_set_eq.
  - by eapply IH.
Qed.

Lemma dict_of_zip_lookup {K V} `{EqDecision K} (ks : list K) (vs : list V) j k v :
  NoDup ks -> ks !! j = Some k -> vs !! j = Some v ->
  Dict.get k (dict_of_zip ks vs) = Some v.
Proof.
  intros Hnd Hk Hv. unfold dict_of_zip. apply (get_fold_set_in _ _ j).
  - assert (Hsub : map fst (zip ks vs) = take (length vs) ks).
    { clear. revert vs. induction ks as [|k ks IH]; intros [|v vs]; simpl; try done.
      by rewrite IH. }
    rewrite Hsub. eapply sublist_NoDup; [done | apply sublist_take].
  - clear Hnd. revert j vs Hk Hv.
    induction ks as [|k0 ks IH]; intros [|j] [|v0 vs] Hk Hv; simpl in *; try done.
    + congruence.
    + by apply IH.
Qed.

Lemma dict_of_zip_missing {K V} `{EqDecision K} (ks : list K) (vs : list V) k :
  k ∉ ks -> Dict.get k (dict_of_zip ks vs) = None.
Proof.
  intros Hk. unfold dict_of_zip. rewrite get_fold_set_notin; [done|].
  intros Hin. apply Hk. clear Hk. revert vs Hin.
  induction ks as [|k0 ks IH]; intros [|v vs] Hin; simpl in *;
    try by apply not_elem_of_nil in Hin.
  apply elem_of_cons in Hin as [->|Hin]; [by left|]. right. by eapply IH.
Qed.

(** Composite nodes. *)
Lemma parse_composite N ad gb cls o ch c :
  (cls = IsOperator \/ exists mo, cls = IsMergedOperator mo) -> ch <> [] ->
  _parse_operator N ad gb (Node cls o ch) c
  = composite N o (smap (_parse_operator N ad gb) ch c).
Proof. intros [->|[mo ->]] Hch; by destruct ch. Qed.

Lemma smap_first_failure {A B} (f : A -> cache -> result B * cache)
    pre x post c rs c1 e c2 :
  smap f pre c = (Ok rs, c1) -> f x c1 = (Raise e, c2) ->
  smap f (pre ++ x :: post) c = (Raise e, c2).
Proof.
  revert c rs. induction pre as [|x0 pre IH]; intros c rs; simpl.
  - intros [= <- <-] Hx. by rewrite Hx.
  - destruct (f x0 c) as [[y|e0] c0]; [|done].
    destruct (smap f pre c0) as [[ys|e0] c0'] eqn:Hs; [|done].
    simpl. intros [= <- <-] Hx. by rewrite (IH c0 ys Hs Hx).
Qed.

(** The index array of a variable is the concatenation of the ranges of its
    pairs. *)
Lemma variable_inds_pairs dm x inds id :
  variable_inds dm x = Ok (inds, id) ->
  exists rs, Forall2 (fun key r => dof_ind dm key.1 key.2 = Ok r) (leaf_pairs x) rs /\
    inds = concat rs /\ id = leaf_id x.
Proof.
  destruct x as [v|mv]; unfold variable_inds.
  - rewrite rbind_Ok. intros (ind & Hind & [= <- <-]). exists [ind].
    split; [by repeat constructor|done].
  - rewrite rbind_Ok. intros (ind_var & Hrmap & H).
    apply rbind_Ok in H as (a & Hh & [= <- <-]). apply hstack_Ok in Hh as ->.
    exists ind_var. split; [|done]. apply rmap_Ok in Hrmap. unfold leaf_pairs.
    change (map ?f ?l) with (f <$> l). by apply Forall2_fmap_l.
Qed.

Lemma variable_inds_total gb x :
  gb_wf gb -> (forall key, key ∈ leaf_pairs x -> key ∈ map fst (declared gb)) ->
  exists inds, variable_inds (DofManager.init gb) x = Ok (inds, leaf_id x).
Proof.
  intros Hwf Hdecl.
  assert (Hok : forall v, (var_g v, var_name v) ∈ leaf_pairs x ->
            exists ind, dof_ind (DofManager.init gb) (var_g v) (var_name v) = Ok ind).
  { intros v Hv. destruct (dof_ind_built gb (var_g v) (var_name v) Hwf)
      as [(k & size & _ & ->)|[Hnin _]]; [by eexists|]. by apply Hdecl in Hv. }
  destruct x as [v|mv]; unfold variable_inds.
  - destruct (Hok v) as [ind ->]; [by left|]. by eexists.
  - destruct (rmap_total (fun sub_var =>
        dof_ind (DofManager.init gb) (var_g sub_var) (var_name sub_var)) (sub_vars mv))
      as [ind_var Hrmap].
    { intros v Hv. apply Hok. unfold leaf_pairs.
      change (map ?f ?l) with (f <$> l). apply list_elem_of_fmap. by exists v. }
    rewrite Hrmap. apply rmap_length in Hrmap.
    destruct ind_var as [|ind ind_var]; [done|]. by eexists.
Qed.

Lemma variable_inds_Raise gb x e :
  gb_wf gb -> variable_inds (DofManager.init gb) x = Raise e ->
  exists g name, (g, name) ∈ leaf_pairs x /\
    ((g, name) ∉ map fst (declared gb)) /\ e = KeyError (KBlock g name).
Proof.
  intros Hwf.
  assert (Hraise : forall v e', dof_ind (DofManager.init gb) (var_g v) (var_name v) = Raise e' ->
            ((var_g v, var_name v) ∉ map fst (declared gb)) /\
            e' = KeyError (KBlock (var_g v) (var_name v))).
  { intros v e' He. destruct (dof_ind_built gb (var_g v) (var_name v) Hwf)
      as [(k & size & _ & Hok)|[Hnin Hr]]; [congruence|]. split; [done|congruence]. }
  destruct x as [v|mv]; unfold variable_inds.
  - destruct (dof_ind (DofManager.init gb) (var_g v) (var_name v)) as [ind|e'] eqn:Hv; [done|].
    intros [= <-]. destruct (Hraise v e' Hv) as [Hnin ->].
    exists (var_g v), (var_name v). split; [by left|done].
  - destruct (rmap _ (sub_vars mv)) as [ind_var|e'] eqn:Hrmap.
    + apply rmap_length in Hrmap. by destruct ind_var.
    + intros [= <-]. apply rmap_Raise in Hrmap as (v & Hin & Hv).
      destruct (Hraise v e' Hv) as [Hnin ->].
      exists (var_g v), (var_name v). split; [|done]. unfold leaf_pairs.
      change (map ?f ?l) with (f <$> l). apply list_elem_of_fmap. by exists v.
Qed.

(** An index that two pairs share makes them the same pair. *)
Lemma dof_ind_shared gb key key' ind ind' i :
  gb_wf gb ->
  dof_ind (DofManager.init gb) key.1 key.2 = Ok ind -> dof_ind (DofManager.init gb) key'.1 key'.2 = Ok ind' ->
  i ∈ ind -> i ∈ ind' -> key = key'.
Proof.
  intros Hwf Hind Hind' Hi Hi'. destruct key as [g name], key' as [g' name'].
  cbn [fst snd] in *.
  destruct (dof_ind_built gb g name Hwf) as [(k & size & Hd & Hok)|[_ Hraise]];
    [|congruence].
  destruct (dof_ind_built gb g' name' Hwf) as [(k' & size' & Hd' & Hok')|[_ Hraise]];
    [|congruence].
  destruct (declared_block gb k _ size Hwf Hd) as [Hget Hsize].
  destruct (declared_block gb k' _ size' Hwf Hd') as [Hget' Hsize'].
  destruct (lt_eq_lt_dec k k') as [[Hlt| ->]|Hgt].
  - pose proof (ranges_ordered gb (g, name) (g', name') k k' ind ind' i i
                  Hwf Hget Hget' Hlt Hind Hind' Hi Hi'). lia.
  - congruence.
  - pose proof (ranges_ordered gb (g', name') (g, name) k' k ind' ind i i
                  Hwf Hget' Hget Hgt Hind' Hind Hi' Hi). lia.
Qed.

Lemma dof_ind_NoDup dm g name ind : dof_ind dm g name = Ok ind -> NoDup ind.
Proof.
  unfold dof_ind. destruct (Dict.get (g, name) (block_dof dm)) as [b|]; [|done].
  destruct ((0 :: cumsum (full_dof dm)) !! b) as [lo|]; [|done].
  destruct ((0 :: cumsum (full_dof dm)) !! (b + 1)) as [hi|]; [|done].
  intros [= <-]. apply NoDup_seq.
Qed.

Lemma elem_of_concat {A} (x : A) (ls : list (list A)) :
  x ∈ concat ls <-> exists l, x ∈ l /\ l ∈ ls.
Proof.
  induction ls as [|l ls IH]; simpl.
  - split; [by intros ?%not_elem_of_nil | by intros (? & _ & ?%not_elem_of_nil)].
  - rewrite elem_of_app, IH. split.
    + intros [?|(l' & ? & ?)]; [exists l; split; [done|by left]|].
      exists l'. split; [done|by right].
    + intros (l' & Hx & [->|?]%elem_of_cons); [by left|]. right. by exists l'.
Qed.

(** The ranges of pairwise distinct pairs do not overlap. *)
Lemma ranges_NoDup gb keys rs :
  gb_wf gb -> NoDup keys ->
  Forall2 (fun key r => dof_ind (DofManager.init gb) key.1 key.2 = Ok r) keys rs ->
  NoDup (concat rs).
Proof.
  intros Hwf Hnd H. induction H as [|key r keys rs Hr H IH]; simpl; [constructor|].
  apply NoDup_cons in Hnd as [Hnin Hnd]. apply NoDup_app. split; [|split].
  - by eapply dof_ind_NoDup.
  - intros i Hi Hi'. apply elem_of_concat in Hi' as (r' & Hi' & Hr').
    apply list_elem_of_lookup in Hr' as [j Hj].
    destruct (Forall2_lookup_r _ _ _ _ _ H Hj) as (key' & Hkey' & Hd').
    assert (key = key') as -> by (by eapply dof_ind_shared).
    apply Hnin. by eapply list_elem_of_lookup_2.
  - by apply IH.
Qed.

Lemma Forall2_flat_map_concat {A B C} (P : B -> list C -> Prop) (f : A -> list B)
    (l : list A) (ll : list (list C)) :
  Forall2 (fun x inds => exists rs, Forall2 P (f x) rs /\ inds = concat rs) l ll ->
  exists rs, Forall2 P (flat_map f l) rs /\ concat ll = concat rs.
Proof.
  induction 1 as [|x inds l ll (rs & Hrs & ->) _ (rs' & Hrs' & Heq)]; simpl.
  - exists []. by split.
  - exists (rs ++ rs'). split; [by apply Forall2_app|].
    by rewrite concat_app, Heq.
Qed.

Lemma flat_map_NoDup {A B} (f : A -> list B) (l : list A) :
  NoDup l -> (forall x, x ∈ l -> NoDup (f x)) ->
  (forall x y k, x ∈ l -> y ∈ l -> k ∈ f x -> k ∈ f y -> x = y) ->
  NoDup (flat_map f l).
Proof.
  induction 1 as [|x l Hnin Hnd IH]; intros Hf Hinj; simpl; [constructor|].
  apply NoDup_app. split; [|split].
  - apply Hf. by left.
  - intros k Hk Hk'. apply list_elem_of_In, in_flat_map in Hk' as (y & Hy & Hk').
    apply list_elem_of_In in Hy, Hk'.
    assert (x = y) as -> by (eapply Hinj; [by left | by right | done | done]).
    done.
  - apply IH; [intros y Hy; apply Hf; by right|].
    intros y z k Hy Hz. apply Hinj; by right.
Qed.

Lemma NoDup_ids_inj (l : list var_leaf) x y :
  NoDup (ids_of l) -> x ∈ l -> y ∈ l -> leaf_id x = leaf_id y -> x = y.
Proof.
  unfold ids_of. induction l as [|z l IH]; simpl; [by intros _ ?%not_elem_of_nil|].
  intros [Hnin Hnd]%NoDup_cons [->|Hx]%elem_of_cons [->|Hy]%elem_of_cons Hid; try done.
  - exfalso. apply Hnin. rewrite Hid. change (map ?f ?l) with (f <$> l).
    apply list_elem_of_fmap. by exists y.
  - exfalso. apply Hnin. rewrite <- Hid. change (map ?f ?l) with (f <$> l).
    apply list_elem_of_fmap. by exists x.
  - by apply IH.
Qed.

Lemma NoDup_ids (l : list var_leaf) : NoDup (ids_of l) -> NoDup l.
Proof. unfold ids_of. change (map ?f ?l) with (f <$> l). apply NoDup_fmap_1. Qed.

Lemma rmap_take_Ok (state : vec) (dofs : list (list nat)) :
  Forall (Forall (fun i => i < length state)) dofs ->
  exists slices,
    rmap (Np.take_indices state) dofs = Ok slices /\
    Forall2 (fun inds s => length s = length inds /\
               forall j i, inds !! j = Some i -> s !! j = state !! i) dofs slices.
Proof.
  induction 1 as [|inds dofs Hinds _ (slices & Hs & Hall)].
  - exists []. split; [done|constructor].
  - destruct (take_indices_Ok state inds Hinds) as (s & Hok & Hlen & Hlk).
    exists (s :: slices). split; [cbn [rmap]; rewrite Hok; cbn [rbind]; by rewrite Hs|].
    by constructor.
Qed.

Lemma smap_length {A B} (f : A -> cache -> result B * cache) l c rs c' :
  smap f l c = (Ok rs, c') -> length rs = length l.
Proof.
  revert c rs c'. induction l as [|x l IH]; intros c rs c'; simpl.
  - by intros [= <- _].
  - destruct (f x c) as [[y|e] c1]; [|done].
    specialize (IH c1). destruct (smap f l c1) as [[ys|e] c2]; [|done].
    intros [= <- _]. simpl. f_equal. by eapply IH.
Qed.

Lemma cache_le_consistent gb c c' :
  cache_le gb c c' -> cache_consistent gb c -> cache_consistent gb c'.
Proof.
  intros Hle Hc mo m Hget. specialize (Hle mo).
  destruct (Dict.get mo c) as [m0|] eqn:Hmo; [|by apply Hle].
  rewrite Hle in Hget. injection Hget as <-. by apply Hc.
Qed.

Lemma cache_le_kept gb c c' mo m :
  cache_le gb c c' -> Dict.get mo c = Some m -> Dict.get mo c' = Some m.
Proof. intros Hle Hget. specialize (Hle mo). by rewrite Hget in Hle. Qed.

End EquationMoreFacts.

Module Construction.
Import DofManager DofManagerFacts LayoutMoreFacts Equation EquationFacts VariablesFacts
  EquationMoreFacts.

(** X6. Over a layout with fewer than [2^63] dofs, the constructor of an
    equation succeeds on every tree whose root is not a variable and whose
    variables are declared in the bucket of the layout: each variable leaf,
    and each constituent of a merged variable, names a declared
    [(entity, name)] pair. The equation it returns refers to the tree and the
    name it was given, starts with an empty matrix cache and without seeds,
    has one index array per variable id, and all its indices are below the
    size of the global system, [full_dof.sum()]. *)
Theorem init_declared (gb : GridBucket) (cls : OperatorClass) (o : Operation.t)
    (ch : list Operator) (nm : option string) :
  gb_wf gb ->
  fits_int64 (full_dof (DofManager.init gb)) ->
  is_variable_class cls = false ->
  (forall x key, x ∈ variable_leaves (Node cls o ch) -> key ∈ leaf_pairs x ->
     key ∈ map fst (declared gb)) ->
  exists eq,
    Equation.init (AnOperator (Node cls o ch)) (DofManager.init gb) nm = Ok eq /\
    _operator eq = Node cls o ch /\
    name eq = nm /\
    _stored_matrices eq = [] /\
    _ad eq = None /\
    length (_variable_dofs eq) = length (_variable_ids eq) /\
    Forall (Forall (fun i => (Z.of_nat i < sum_int64 (full_dof (DofManager.init gb)))%Z))
      (_variable_dofs eq).
Proof.
  intros Hwf Hfit Hcls Hdecl.
  destruct (rmap_total (variable_inds (DofManager.init gb))
              (sorted_by_id (set_of (variable_leaves (Node cls o ch))))) as [found Hfound].
  { intros x Hx%sorted_set_subset.
    destruct (variable_inds_total gb x Hwf) as [inds Hinds];
      [intros key; by apply Hdecl|].
    by eexists. }
  assert (Hinit : Equation.init (AnOperator (Node cls o ch)) (DofManager.init gb) nm
            = Ok {| _operator := Node cls o ch; name := nm;
                    _variable_dofs := map fst found; _variable_ids := map snd found;
                    _stored_matrices := []; _ad := None |}).
  { unfold Equation.init, _identify_variables. cbn [rbind].
    rewrite (find_subtree_not_variable cls o ch Hcls), Hfound. done. }
  eexists. split; [exact Hinit|]. cbn [_operator name _stored_matrices _ad
    _variable_dofs _variable_ids].
  repeat (split; [done|]). split; [by rewrite !length_map|].
  rewrite (Int64Facts.sum_int64_fits _ Hfit).
  eapply Forall_impl; [apply (init_variable_dofs_lt _ _ _ _ Hinit)|].
  intros inds Hinds. eapply Forall_impl; [exact Hinds|]. intros i Hi. cbv beta in Hi. lia.
Qed.

Lemma init_declared_witness :
  exists eq,
    Equation.init (AnOperator Example.tree1) (DofManager.init Example.example_gb)
      (Some "eq1"%string) = Ok eq /\
    _operator eq = Example.tree1 /\
    name eq = Some "eq1"%string /\
    _stored_matrices eq = [] /\
    _ad eq = None /\
    length (_variable_dofs eq) = length (_variable_ids eq) /\
    Forall (Forall (fun i =>
              (Z.of_nat i < sum_int64 (full_dof (DofManager.init Example.example_gb)))%Z))
      (_variable_dofs eq).
Proof.
  apply (init_declared Example.example_gb IsOperator Operation.add
           [Example.leaf (IsVariable Example.mortar_flux);
            Example.leaf (IsVariable Example.pressure)] (Some "eq1"%string)
           example_gb_wf Int64Facts.example_gb_fits eq_refl).
  intros x key Hx Hkey.
  assert (Hall : Forall (fun x => Forall (fun key =>
              key ∈ map fst (declared Example.example_gb)) (leaf_pairs x))
            [Plain Example.mortar_flux; Plain Example.pressure]).
  { repeat constructor; apply (bool_decide_unpack _); by vm_compute. }
  rewrite Forall_forall in Hall. specialize (Hall x Hx).
  rewrite Forall_forall in Hall. by apply Hall.
Defined.

(** X7. When the constructor fails on a tree whose root is not a variable,
    it is because of an undeclared variable: the exception is the [KeyError]
    that [dof_ind] raises for a pair [(entity, name)] of a variable leaf of
    the tree (or of a constituent of a merged variable) that the bucket does
    not declare. No other exception leaves the constructor. *)
Theorem init_raises_undeclared (gb : GridBucket) (cls : OperatorClass) (o : Operation.t)
    (ch : list Operator) (nm : option string) (e : exn) :
  gb_wf gb ->
  is_variable_class cls = false ->
  Equation.init (AnOperator (Node cls o ch)) (DofManager.init gb) nm = Raise e ->
  exists x g name,
    x ∈ variable_leaves (Node cls o ch) /\
    (g, name) ∈ leaf_pairs x /\
    ((g, name) ∉ map fst (declared gb)) /\
    e = KeyError (KBlock g name) /\
    dof_ind (DofManager.init gb) g name = Raise e.
Proof.
  intros Hwf Hcls. unfold Equation.init, _identify_variables. cbn [rbind].
  rewrite (find_subtree_not_variable cls o ch Hcls).
  destruct (rmap _ _) as [found|e'] eqn:Hfound; [done|]. intros [= <-].
  apply rmap_Raise in Hfound as (x & Hx%sorted_set_subset & Hraise).
  apply (variable_inds_Raise gb x e' Hwf) in Hraise as (g & name & Hin & Hnin & ->).
  exists x, g, name. repeat (split; [done|]).
  by destruct (dof_ind_built gb g name Hwf) as [(k & size & Hd%list_elem_of_lookup_2 & _)|[_ ?]];
    [exfalso; apply Hnin; change (map ?f ?l) with (f <$> l); apply list_elem_of_fmap;
     eexists; split; [|exact Hd]|].
Qed.

Lemma init_raises_undeclared_witness :
  exists x g name,
    x ∈ variable_leaves
          (Example.binary Operation.add
             (Example.leaf (IsVariable Example.pressure))
             (Example.leaf (IsVariable
                {| var_name := "pressure"; var_id := 7; var_g := GNode Example.example_g2 |}))) /\
    (g, name) ∈ leaf_pairs x /\
    ((g, name) ∉ map fst (declared Example.example_gb)) /\
    KeyError (KBlock (GNode Example.example_g2) "pressure") = KeyError (KBlock g name) /\
    dof_ind (DofManager.init Example.example_gb) g name
    = Raise (KeyError (KBlock (GNode Example.example_g2) "pressure")).
Proof.
  exact (init_raises_undeclared Example.example_gb IsOperator Operation.add
           [Example.leaf (IsVariable Example.pressure);
            Example.leaf (IsVariable
              {| var_name := "pressure"; var_id := 7; var_g := GNode Example.example_g2 |})]
           None (KeyError (KBlock (GNode Example.example_g2) "pressure"))
           example_gb_wf eq_refl eq_refl).
Defined.

(** X8. Over a layout with fewer than [2^63] dofs, no global dof occurs
    twice among the local columns of an equation, provided that the variables
    of its tree with different ids stand for different [(entity, name)] pairs
    and that no merged variable lists a pair twice. Each row of the scatter
    matrix of the assembly then has its entry in a column of its own. All
    local columns are below the size of the global system,
    [full_dof.sum()]. *)
Theorem local_dofs_distinct (gb : GridBucket) (arg : operator_arg) (nm : option string)
    (eq : Equation.t) (idx : list nat) :
  gb_wf gb ->
  fits_int64 (full_dof (DofManager.init gb)) ->
  Equation.init arg (DofManager.init gb) nm = Ok eq ->
  (forall x, x ∈ variable_leaves (_operator eq) -> NoDup (leaf_pairs x)) ->
  (forall x y key, x ∈ variable_leaves (_operator eq) -> y ∈ variable_leaves (_operator eq) ->
     key ∈ leaf_pairs x -> key ∈ leaf_pairs y -> leaf_id x = leaf_id y) ->
  local_dofs eq = Ok idx ->
  NoDup idx /\
  Forall (fun i => (Z.of_nat i < sum_int64 (full_dof (DofManager.init gb)))%Z) idx.
Proof.
  intros Hwf Hfit Hinit Hpairs Hdistinct Hidx. apply hstack_Ok in Hidx as ->. split.
  - revert Hinit. unfold Equation.init. rewrite rbind_Ok. intros (op & _ & H).
    apply rbind_Ok in H as ([dofs ids] & Hid & [= <-]).
    cbn [_operator _variable_dofs fst] in *.
    destruct (identify_variables_Ok op _ dofs ids Hid) as (Hids & Hsorted & _ & Hvars).
    set (variables := sorted_by_id (set_of (variable_leaves op))) in *.
    assert (Hnd : NoDup (ids_of variables)).
    { rewrite <- Hids. clear -Hsorted.
      induction Hsorted as [|i ids _ IH Hi]; constructor; [|done].
      intros Hin. rewrite Forall_forall in Hi. specialize (Hi i Hin). lia. }
    destruct (Forall2_flat_map_concat
                (fun key r => dof_ind (DofManager.init gb) key.1 key.2 = Ok r)
                leaf_pairs variables dofs) as (rs & Hrs & ->).
    { eapply Forall2_impl; [exact Hvars|]. intros x inds Hx.
      apply variable_inds_pairs in Hx as (rs & Hrs & -> & _). by exists rs. }
    apply (ranges_NoDup gb (flat_map leaf_pairs variables)); [done| |done].
    apply flat_map_NoDup.
    + by apply NoDup_ids.
    + intros x Hx%sorted_set_subset. by apply Hpairs.
    + intros x y key Hx Hy Hkx Hky. apply (NoDup_ids_inj variables); try done.
      apply sorted_set_subset in Hx, Hy. by eapply Hdistinct.
  - rewrite (Int64Facts.sum_int64_fits _ Hfit). apply Forall_concat.
    eapply Forall_impl; [by eapply init_variable_dofs_lt|].
    intros inds Hinds. eapply Forall_impl; [exact Hinds|]. intros i Hi. cbv beta in Hi. lia.
Qed.

Lemma local_dofs_distinct_witness :
  NoDup [0; 1; 2; 3; 14; 15; 16; 17] /\
  Forall (fun i =>
            (Z.of_nat i < sum_int64 (full_dof (DofManager.init Example.example_gb)))%Z)
    [0; 1; 2; 3; 14; 15; 16; 17].
Proof.
  apply (local_dofs_distinct Example.example_gb (AnOperator Example.tree1) (Some "eq1"%string)
           Example.eq1 [0; 1; 2; 3; 14; 15; 16; 17] example_gb_wf
           Int64Facts.example_gb_fits eq_refl).
  - intros x Hx.
    assert (Hall : Forall (fun x => NoDup (leaf_pairs x))
              [Plain Example.mortar_flux; Plain Example.pressure]).
    { repeat constructor; by intros ?%not_elem_of_nil. }
    rewrite Forall_forall in Hall. by apply Hall.
  - intros x y key Hx Hy Hkx Hky.
    assert (Hall : Forall (fun x => Forall (fun y => Forall (fun key =>
                key ∈ leaf_pairs y -> leaf_id x = leaf_id y) (leaf_pairs x))
                [Plain Example.mortar_flux; Plain Example.pressure])
              [Plain Example.mortar_flux; Plain Example.pressure]).
    { repeat constructor; intros Hin; try done;
        apply list_elem_of_singleton in Hin; discriminate. }
    rewrite Forall_forall in Hall. specialize (Hall x Hx).
    rewrite Forall_forall in Hall. specialize (Hall y Hy).
    rewrite Forall_forall in Hall. by apply (Hall key Hkx).
  - reflexivity.
Defined.

End Construction.

(** ** Evaluation of an equation *)

Module Evaluation.
Import DofManager Equation EquationManager Rel EvalFacts EquationFacts VariablesFacts
  EquationMoreFacts.

(** X9. A state vector that is too short for one of the indices of an
    equation makes [to_ad] raise [IndexError], whatever the arithmetic. The
    slices of the state are taken before anything is assigned: the equation
    is left exactly as it was, with its cache and without new seeds. *)
Theorem to_ad_short_state (N : Numerics) (eq : Equation.t) (gb : GridBucket) (state : vec)
    (inds : list nat) (i : nat) :
  inds ∈ _variable_dofs eq -> i ∈ inds -> length state <= i ->
  to_ad N eq gb state = (Raise IndexError, eq).
Proof.
  intros Hinds Hi Hlen. unfold to_ad.
  destruct (rmap (Np.take_indices state) (_variable_dofs eq)) as [slices|e] eqn:Hs.
  - apply rmap_Ok in Hs. apply list_elem_of_lookup in Hinds as [k Hk].
    destruct (Forall2_lookup_l _ _ _ _ _ Hs Hk) as (s & _ & Hok).
    by rewrite (take_indices_out state inds i Hi Hlen) in Hok.
  - apply rmap_Raise in Hs as (inds' & _ & Hraise).
    by apply take_indices_Raise in Hraise as [-> _].
Qed.

Lemma to_ad_short_state_witness :
  to_ad Example.numerics Example.eq1 Example.example_gb [1; 2; 3]%Z
  = (Raise IndexError, Example.eq1).
Proof.
  apply (to_ad_short_state Example.numerics Example.eq1 Example.example_gb [1; 2; 3]%Z
           [0; 1; 2; 3] 3).
  - by left.
  - do 3 right. by left.
  - simpl. lia.
Defined.

(** X10. For an equation constructed over the layout of a bucket with fewer
    than [2^63] dofs, a state vector with at least [full_dof.sum()] entries,
    as many as the global system has dofs, is long enough: every index array
    of the equation selects a slice of the state, entry by entry, and no
    [IndexError] arises. *)
Theorem constructed_slices (gb : GridBucket) (arg : operator_arg) (nm : option string)
    (eq : Equation.t) (state : vec) :
  fits_int64 (full_dof (DofManager.init gb)) ->
  Equation.init arg (DofManager.init gb) nm = Ok eq ->
  (sum_int64 (full_dof (DofManager.init gb)) <= Z.of_nat (length state))%Z ->
  exists slices,
    rmap (Np.take_indices state) (_variable_dofs eq) = Ok slices /\
    Forall2 (fun inds s => length s = length inds /\
               forall j i, inds !! j = Some i -> s !! j = state !! i)
      (_variable_dofs eq) slices.
Proof.
  intros Hfit Hinit Hlen. rewrite (Int64Facts.sum_int64_fits _ Hfit) in Hlen.
  apply rmap_take_Ok.
  eapply Forall_impl; [by eapply init_variable_dofs_lt|].
  intros inds Hinds. eapply Forall_impl; [exact Hinds|]. intros i Hi. cbv beta in Hi. lia.
Qed.

Lemma constructed_slices_witness :
  exists slices,
    rmap (Np.take_indices Example.example_state) (_variable_dofs Example.eq1) = Ok slices /\
    Forall2 (fun inds s => length s = length inds /\
               forall j i, inds !! j = Some i -> s !! j = Example.example_state !! i)
      (_variable_dofs Example.eq1) slices.
Proof.
  apply (constructed_slices Example.example_gb (AnOperator Example.tree1)
           (Some "eq1"%string) Example.eq1 Example.example_state
           Int64Facts.example_gb_fits eq_refl).
  by vm_compute.
Defined.

(** X11. Every variable of the tree of a constructed equation finds its
    seed. When [initAdArrays] returns one value per index array, the
    dictionary [_ad] maps the id of each variable leaf (for a merged variable
    the id of its first constituent) to the value at the position of this id
    among the ids of the equation, the position is unique, and the leaf
    evaluates to this value without touching the cache. A variable whose id
    is not among the ids of the equation raises the [KeyError] of its id. *)
Theorem variable_seeded (N : Numerics) (arg : operator_arg) (dm : DofManager.t)
    (nm : option string) (eq : Equation.t) (gb : GridBucket) (ad_vars : list value) :
  Equation.init arg dm nm = Ok eq ->
  length ad_vars = length (_variable_dofs eq) ->
  let ad := dict_of_zip (_variable_ids eq) ad_vars in
  (forall x o c, x ∈ variable_leaves (_operator eq) ->
     exists k v,
       _variable_ids eq !! k = Some (leaf_id x) /\
       ad_vars !! k = Some v /\
       (forall k', _variable_ids eq !! k' = Some (leaf_id x) -> k' = k) /\
       _parse_operator N ad gb (Node (leaf_class x) o []) c = (Ok v, c)) /\
  (forall x o c, ((leaf_id x ∉ _variable_ids eq)) ->
     _parse_operator N ad gb (Node (leaf_class x) o []) c
     = (Raise (KeyError (KId (leaf_id x))), c)).
Proof.
  intros Hinit Hlen ad.
  assert (Hparse : forall x o c,
            _parse_operator N ad gb (Node (leaf_class x) o []) c = (ad_lookup ad (leaf_id x), c)).
  { by intros [v|mv] o c. }
  revert Hinit. unfold Equation.init. rewrite rbind_Ok. intros (op & _ & H).
  apply rbind_Ok in H as ([dofs ids] & Hid & [= <-]).
  cbn [_operator _variable_dofs _variable_ids fst snd] in *.
  destruct (identify_variables_Ok op dm dofs ids Hid) as (Hids & Hsorted & Hmem & Hvars).
  assert (Hnd : NoDup ids).
  { clear -Hsorted. induction Hsorted as [|i ids _ IH Hi]; constructor; [|done].
    intros Hin. rewrite Forall_forall in Hi. specialize (Hi i Hin). lia. }
  assert (Hlen' : length ids = length dofs).
  { rewrite Hids. unfold ids_of. rewrite length_map. by eapply Forall2_length. }
  split.
  - intros x o c Hx.
    assert (Hin : leaf_id x ∈ ids).
    { apply Hmem. unfold ids_of. change (map ?f ?l) with (f <$> l).
      apply list_elem_of_fmap. by exists x. }
    apply list_elem_of_lookup in Hin as [k Hk].
    destruct (lookup_lt_is_Some_2 ad_vars k) as [v Hv].
    { apply lookup_lt_Some in Hk. lia. }
    exists k, v. split; [done|]. split; [done|]. split.
    + intros k' Hk'. by eapply NoDup_lookup.
    + rewrite Hparse. unfold ad_lookup, ad.
      by rewrite (dict_of_zip_lookup ids ad_vars k (leaf_id x) v Hnd Hk Hv).
  - intros x o c Hnin. rewrite Hparse. unfold ad_lookup, ad.
    by rewrite (dict_of_zip_missing ids ad_vars (leaf_id x) Hnin).
Qed.

Lemma variable_seeded_witness :
  exists k v,
    _variable_ids Example.eq1 !! k = Some 2 /\
    [VNum 5; VNum 6] !! k = Some v /\
    (forall k', _variable_ids Example.eq1 !! k' = Some 2 -> k' = k) /\
    _parse_operator Example.numerics (dict_of_zip (_variable_ids Example.eq1) [VNum 5; VNum 6])
      Example.example_gb (Node (IsVariable Example.mortar_flux) Operation.add []) []
    = (Ok v, []).
Proof.
  apply (proj1 (variable_seeded Example.numerics (AnOperator Example.tree1)
                  (DofManager.init Example.example_gb) (Some "eq1"%string) Example.eq1
                  Example.example_gb [VNum 5; VNum 6] eq_refl eq_refl)
           (Plain Example.mortar_flux) Operation.add []).
  by left.
Defined.

(** X12. The matrix cache of an equation is never invalidated. An entry of
    the cache survives every call of [to_ad] and of [assemble_matrix_rhs],
    with any state and any bucket; a discretization-bound leaf that has an
    entry evaluates to the cached matrix whatever the bucket holds now, so a
    matrix that was changed in the bucket after its first use is not seen.
    When the calls use one bucket whose matrices do not change, every entry of
    the cache is the matrix that the bucket gives for its operator. *)
Theorem cache_never_invalidated (N : Numerics) (eq : Equation.t) (mo : MergedOperator)
    (m : spmatrix) :
  Dict.get mo (_stored_matrices eq) = Some m ->
  (forall gb state,
     Dict.get mo (_stored_matrices (to_ad N eq gb state).2) = Some m) /\
  (forall em state h a, h a = eq ->
     Dict.get mo (_stored_matrices ((assemble_matrix_rhs N em state h).2 a)) = Some m) /\
  (forall ad gb o,
     _parse_operator N ad gb (Node (IsMergedOperator mo) o []) (_stored_matrices eq)
     = (Ok (VMat m), _stored_matrices eq)) /\
  (forall gb state, cache_consistent gb (_stored_matrices eq) ->
     cache_consistent gb (_stored_matrices (to_ad N eq gb state).2)).
Proof.
  intros Hget. split; [|split; [|split]].
  - intros gb state. destruct (to_ad_extends N gb state eq) as [_ Hle].
    by eapply cache_le_kept.
  - intros em state h a Ha.
    destruct (assemble_extends N em state h a) as [_ Hle].
    eapply cache_le_kept; [exact Hle|]. by rewrite Ha.
  - intros ad gb o. simpl. unfold stored. by rewrite Hget.
  - intros gb state Hc. destruct (to_ad_extends N gb state eq) as [_ Hle].
    by eapply cache_le_consistent.
Qed.

Lemma cache_never_invalidated_witness :
  Dict.get Example.flux_operator
    (_stored_matrices
       (to_ad Example.numerics
          (to_ad Example.numerics Example.eq3 Example.example_gb Example.example_state).2
          {| gb_nodes := []; gb_edges := [] |} []).2)
  = Some Example.example_flux_matrix.
Proof.
  exact (proj1 (cache_never_invalidated Example.numerics
                  (to_ad Example.numerics Example.eq3 Example.example_gb
                     Example.example_state).2
                  Example.flux_operator Example.example_flux_matrix eq_refl)
           {| gb_nodes := []; gb_edges := [] |} []).
Defined.

(** X13. The children of a composite node are evaluated from left to right,
    and the first child that raises decides the outcome: its exception leaves
    the node, the children after it are not evaluated (the cache is the one
    the failing child left), and the operation of the node is not looked at. *)
Theorem child_error_propagates (N : Numerics) (ad : Dict.t nat value) (gb : GridBucket)
    (cls : OperatorClass) (o : Operation.t) (pre post : list Operator) (x : Operator)
    (c c1 c2 : cache) (rs : list value) (e : exn) :
  (cls = IsOperator \/ exists mo, cls = IsMergedOperator mo) ->
  smap (_parse_operator N ad gb) pre c = (Ok rs, c1) ->
  _parse_operator N ad gb x c1 = (Raise e, c2) ->
  _parse_operator N ad gb (Node cls o (pre ++ x :: post)) c = (Raise e, c2).
Proof.
  intros Hcls Hpre Hx. rewrite parse_composite; [|done|by destruct pre].
  by rewrite (smap_first_failure _ pre x post c rs c1 e c2 Hpre Hx).
Qed.

Lemma child_error_propagates_witness :
  _parse_operator Example.numerics [] Example.example_gb
    (Node IsOperator (Operation.other 3)
       ([Example.leaf (IsMergedOperator Example.flux_operator)]
        ++ Example.leaf (IsVariable Example.pressure)
        :: [Example.leaf IsOperator])) []
  = (Raise (KeyError (KId 0)), [(Example.flux_operator, Example.example_flux_matrix)]).
Proof.
  apply (child_error_propagates Example.numerics [] Example.example_gb IsOperator
           (Operation.other 3) [Example.leaf (IsMergedOperator Example.flux_operator)]
           [Example.leaf IsOperator] (Example.leaf (IsVariable Example.pressure))
           [] [(Example.flux_operator, Example.example_flux_matrix)]
           [(Example.flux_operator, Example.example_flux_matrix)]
           [VMat Example.example_flux_matrix] (KeyError (KId 0))).
  - by left.
  - reflexivity.
  - reflexivity.
Defined.

(** X14. What a malformed composite node raises once all its children have
    been evaluated: [ValueError] for an operation that is none of the five,
    [AssertionError] for a sum or a difference whose number of children is
    not two, [IndexError] for a product or a quotient with a single child,
    and [AttributeError] for an evaluation whose first child is not a
    function. The check comes after the children: the matrices they looked
    up stay in the cache. *)
Theorem malformed_exception (N : Numerics) (ad : Dict.t nat value) (gb : GridBucket)
    (cls : OperatorClass) (o : Operation.t) (ch : list Operator) (c c' : cache)
    (rs : list value) :
  (cls = IsOperator \/ exists mo, cls = IsMergedOperator mo) ->
  ch <> [] ->
  smap (_parse_operator N ad gb) ch c = (Ok rs, c') ->
  length rs = length ch /\
  match o with
  | Operation.other _ =>
      _parse_operator N ad gb (Node cls o ch) c = (Raise (ValueError "Should not happen"), c')
  | Operation.add | Operation.sub =>
      length ch <> 2 ->
      _parse_operator N ad gb (Node cls o ch) c = (Raise AssertionError, c')
  | Operation.mul | Operation.div =>
      length ch = 1 ->
      _parse_operator N ad gb (Node cls o ch) c = (Raise IndexError, c')
  | Operation.evaluate =>
      (forall f, rs !! 0 <> Some (VFunction f)) ->
      _parse_operator N ad gb (Node cls o ch) c = (Raise (AttributeError "func"), c')
  end.
Proof.
  intros Hcls Hch Hs. pose proof (smap_length _ _ _ _ _ Hs) as Hlen.
  split; [done|]. rewrite (parse_composite N ad gb cls o ch c Hcls Hch), Hs.
  unfold composite. cbn [rbind]. destruct o; cbn [combine].
  - intros Hne. by rewrite decide_False by congruence.
  - intros Hne. by rewrite decide_False by congruence.
  - intros H1. by destruct rs as [|r0 [|r1 rs]]; simpl in *; try lia.
  - intros H1. by destruct rs as [|r0 [|r1 rs]]; simpl in *; try lia.
  - intros Hf. destruct rs as [|r0 rs]; [by destruct ch|].
    destruct r0 as [| | | |f]; try done. by destruct (Hf f).
  - done.
Qed.

Lemma malformed_exception_witness :
  length [VMat Example.example_flux_matrix] = 1 /\
  _parse_operator Example.numerics [] Example.example_gb
    (Node IsOperator Operation.mul [Example.leaf (IsMergedOperator Example.flux_operator)]) []
  = (Raise IndexError, [(Example.flux_operator, Example.example_flux_matrix)]).
Proof.
  destruct (malformed_exception Example.numerics [] Example.example_gb IsOperator
              Operation.mul [Example.leaf (IsMergedOperator Example.flux_operator)] []
              [(Example.flux_operator, Example.example_flux_matrix)]
              [VMat Example.example_flux_matrix]) as [Hlen Hraise].
  - by left.
  - discriminate.
  - reflexivity.
  - split; [exact Hlen | exact (Hraise eq_refl)].
Defined.

End Evaluation.

(** ** The manager: variable states, registry and assembly *)

Module ManagerMoreFacts.
Import DofManager DofManagerFacts LayoutMoreFacts Equation EquationManager Rel EvalFacts
  EquationFacts EquationMoreFacts SparseFacts AssemblyFacts Registry.

(** [state[np.arange(off, off + n)]] is the segment of the state. *)
Lemma take_indices_seq (state : vec) off n :
  off + n <= length state ->
  Np.take_indices state (seq off n) = Ok (take n (drop off state)).
Proof.
  unfold Np.take_indices, vec. revert off.
  induction n as [|n IH]; intros off Hlen; [done|].
  destruct (lookup_lt_is_Some_2 state off) as [x Hx]; [lia|].
  cbn [seq rmap]. rewrite Hx. cbn [rbind]. rewrite IH by lia. cbn [rbind].
  by rewrite (drop_S _ _ _ Hx).
Qed.

Lemma take_indices_seq_inv (state : vec) off n val :
  Np.take_indices state (seq off n) = Ok val ->
  val = take n (drop off state) /\ (n = 0 \/ off + n <= length state).
Proof.
  intros Hval. destruct n as [|n].
  - injection Hval as <-. split; [done|by left].
  - assert (Hlen : off + S n <= length state).
    { destruct (decide (off + S n <= length state)) as [|Hgt]; [done|].
      rewrite (take_indices_out state (seq off (S n)) (off + n)) in Hval; [done| |lia].
      apply elem_of_seq. lia. }
    rewrite take_indices_seq in Hval by done. injection Hval as <-.
    split; [done|by right].
Qed.

Lemma rmap_bind {A B C} (f : A -> result B) (g : B -> result C) l l1 :
  rmap f l = Ok l1 -> rmap (fun x => y <- f x ;; g y) l = rmap g l1.
Proof.
  revert l1. induction l as [|x l IH]; intros l1; simpl; [by intros [= <-]|].
  destruct (f x) as [y|e]; [|done]. simpl.
  destruct (rmap f l) as [ys|e]; [|done]. simpl. intros [= <-]. simpl.
  by rewrite (IH ys eq_refl).
Qed.

(** The ranges of all declared pairs, in block order. *)
Lemma declared_ranges gb :
  gb_wf gb ->
  rmap (fun key => dof_ind (DofManager.init gb) key.1 key.2) (map fst (declared gb))
  = Ok (ranges_from 0 (full_dof (DofManager.init gb))).
Proof.
  intros Hwf. destruct (init_spec gb (declared_NoDup gb Hwf)) as [Hfd _].
  apply rmap_Ok_lookup.
  - by rewrite length_ranges_from, Hfd, !length_map.
  - intros k key Hk. apply declared_keys_lookup in Hk as [size Hd].
    destruct (declared_block gb k key size Hwf Hd) as [_ Hsize].
    exists (seq (sum_list (take k (full_dof (DofManager.init gb)))) size). split.
    + by rewrite (ranges_from_lookup 0 _ k size Hsize).
    + by apply dof_ind_declared.
Qed.

Lemma rmap_take_ranges (state : vec) off sizes :
  off + sum_list sizes <= length state ->
  exists segs,
    rmap (Np.take_indices state) (ranges_from off sizes) = Ok segs /\
    concat segs = take (sum_list sizes) (drop off state) /\
    Forall2 (fun size seg => length seg = size) sizes segs.
Proof.
  revert off. induction sizes as [|x sizes IH]; intros off Hlen; simpl in *.
  - exists []. by repeat split.
  - destruct (IH (off + x)) as (segs & Hsegs & Hconcat & Hlens); [lia|].
    exists (take x (drop off state) :: segs). split; [|split].
    + rewrite take_indices_seq by lia. simpl. by rewrite Hsegs.
    + simpl. rewrite Hconcat, <- take_take_drop, drop_drop. done.
    + constructor; [|done]. rewrite length_take, length_drop. lia.
Qed.

(** The loop of [assemble_matrix_rhs] touches the equations of its list
    only. *)
Lemma rows_untouched N em state refs h a' :
  a' ∉ refs -> (rows N em state refs h).2 a' = h a'.
Proof.
  revert h. induction refs as [|a refs IH]; intros h Hnin; simpl; [done|].
  apply not_elem_of_cons in Hnin as [Hne Hnin].
  destruct (equation_row N em state (h a)) as [r eq'].
  destruct r as [row|e]; simpl.
  - specialize (IH (store_set h a eq') Hnin).
    destruct (rows N em state refs (store_set h a eq')) as [rs h'']. simpl in *.
    rewrite IH. unfold store_set. by rewrite decide_False.
  - unfold store_set. by rewrite decide_False.
Qed.

Lemma rows_app_failure N em state pre a post h l h1 e :
  rows N em state pre h = (Ok l, h1) ->
  (equation_row N em state (h1 a)).1 = Raise e ->
  rows N em state (pre ++ a :: post) h
  = (Raise e, store_set h1 a (equation_row N em state (h1 a)).2).
Proof.
  revert h l. induction pre as [|a0 pre IH]; intros h l; simpl.
  - intros [= <- <-] Hrow. destruct (equation_row N em state (h a)) as [r eq'].
    simpl in *. by rewrite Hrow.
  - destruct (equation_row N em state (h a0)) as [[row|e0] eq0]; [|done].
    destruct (rows N em state pre (store_set h a0 eq0)) as [[l0|e0] h0] eqn:Hpre; [|done].
    simpl. intros [= <- <-] Hrow. by rewrite (IH _ _ Hpre Hrow).
Qed.

(** The columns of the stored entries of a product and of a stack. *)
Lemma mul_entries_col A B e :
  e ∈ Sparse.mul_entries A B -> exists eb, eb ∈ B /\ e.1.2 = eb.1.2.
Proof.
  unfold Sparse.mul_entries.
  intros (ea & _ & He)%list_elem_of_In%in_flat_map.
  apply in_flat_map in He as (eb & Heb & He). exists eb.
  split; [by apply list_elem_of_In|].
  destruct (decide (ea.1.2 = eb.1.1)); [|done].
  destruct He as [<-|[]]. done.
Qed.

Lemma vstack_entries_col roff blocks e :
  e ∈ Sparse.vstack_entries roff blocks ->
  exists M e', M ∈ blocks /\ e' ∈ entries M /\ e.1.2 = e'.1.2.
Proof.
  revert roff. induction blocks as [|M blocks IH]; intros roff; simpl.
  - by intros ?%not_elem_of_nil.
  - intros [He|He]%elem_of_app.
    + change (map ?f ?l) with (f <$> l) in He.
      apply list_elem_of_fmap in He as (e' & -> & He'). exists M, e'.
      split; [by left|]. split; [done|]. done.
    + apply IH in He as (M' & e' & HM' & He' & Hcol). exists M', e'.
      split; [by right|done].
Qed.

Lemma scatter_entries_col (idx rws : list nat) (data : list Z) (eb : nat * nat * Z) :
  eb ∈ zip (zip rws idx) data -> eb.1.2 ∈ idx.
Proof.
  intros Hin. destruct eb as [[r c] v].
  apply elem_of_zip_l, elem_of_zip_r in Hin. done.
Qed.

End ManagerMoreFacts.

Module ManagerMore.
Import DofManager DofManagerFacts LayoutMoreFacts Equation EquationManager Rel EvalFacts
  EquationFacts EquationMoreFacts SparseFacts AssemblyFacts Registry ManagerMoreFacts.

(** X15. Round trip of [variable_state], for a manager that its constructor
    returned and a layout with fewer than [2^63] dofs: asked for all declared
    pairs in block order, with a state vector that covers the global system,
    it returns one array per pair, each as long as the pair has dofs, and
    their concatenation gives back the state (up to the size of the
    system). *)
Theorem variable_state_round_trip (fresh : nat -> nat) (gb : GridBucket)
    (equations : option (list nat)) (created n : nat) (m : Manager) (state : vec) :
  gb_wf gb ->
  fits_int64 (full_dof (DofManager.init gb)) ->
  __init__ fresh gb equations created = Ok (m, n) ->
  (sum_int64 (full_dof (DofManager.init gb)) <= Z.of_nat (length state))%Z ->
  exists values,
    variable_state (manager m) (map fst (declared gb)) state = Ok values /\
    concat values = take (Z.to_nat (sum_int64 (full_dof (DofManager.init gb)))) state /\
    Forall2 (fun kd val => length val = kd.2) (declared gb) values.
Proof.
  intros Hwf Hfit Hinit Hlen.
  assert (Hm : manager m = EquationManager.attributes gb equations).
  { unfold __init__ in Hinit. destruct (_set_variables fresh gb created) as [st|e]; [|done].
    cbn [rbind] in Hinit. by injection Hinit as <- _. }
  rewrite Hm. rewrite (Int64Facts.sum_int64_fits _ Hfit) in *. rewrite Nat2Z.id.
  unfold variable_state. cbn [_assembler EquationManager.attributes
    Assembler_init dof_manager].
  rewrite (rmap_bind (fun item => dof_ind (DofManager.init gb) item.1 item.2)
             (Np.take_indices state) _ _ (declared_ranges gb Hwf)).
  destruct (rmap_take_ranges state 0 (full_dof (DofManager.init gb)))
    as (segs & Hsegs & Hconcat & Hlens); [lia|].
  exists segs. split; [done|]. split; [by rewrite Hconcat|].
  destruct (init_spec gb (declared_NoDup gb Hwf)) as [Hfd _]. rewrite Hfd in Hlens.
  change (map ?f ?l) with (f <$> l) in Hlens. by apply Forall2_fmap_l in Hlens.
Qed.

Lemma variable_state_round_trip_witness :
  exists values,
    variable_state (EquationManager.attributes Example.example_gb_all None)
      (map fst (declared Example.example_gb_all)) Example.example_state = Ok values /\
    concat values
    = take (Z.to_nat (sum_int64 (full_dof (DofManager.init Example.example_gb_all))))
        Example.example_state /\
    Forall2 (fun kd val => length val = kd.2) (declared Example.example_gb_all) values.
Proof.
  apply (variable_state_round_trip (fun i => i) Example.example_gb_all None 0 3
           {| manager := EquationManager.attributes Example.example_gb_all None;
              variables :=
                [(GNode Example.example_g1,
                  [("pressure"%string,
                    {| var_name := "pressure"; var_id := 0;
                       var_g := GNode Example.example_g1 |});
                   ("flux"%string,
                    {| var_name := "flux"; var_id := 1;
                       var_g := GNode Example.example_g1 |})]);
                 (GNode Example.example_g2, []);
                 (GEdge Example.example_g1 Example.example_g2,
                  [("mortar_flux"%string,
                    {| var_name := "mortar_flux"; var_id := 2;
                       var_g := GEdge Example.example_g1 Example.example_g2 |})])] |}
           Example.example_state Int64Facts.example_gb_all_wf
           Int64Facts.example_gb_all_fits eq_refl).
  by vm_compute.
Defined.

(** X16. What [variable_state] does for an arbitrary list of pairs, for a
    manager that its constructor returned and a layout with fewer than [2^63]
    dofs. When it returns, every pair of the list is declared and its array
    is the segment of the state at the range of the pair. When it raises,
    either a pair of the list is not declared and the exception is the
    [KeyError] of this pair, or the state is too short for the range of a
    declared pair of the list and the exception is [IndexError]. *)
Theorem variable_state_outcome (fresh : nat -> nat) (gb : GridBucket)
    (equations : option (list nat)) (created n : nat) (m : Manager)
    (grid_var : list (grid_like * string)) (state : vec) :
  gb_wf gb ->
  fits_int64 (full_dof (DofManager.init gb)) ->
  __init__ fresh gb equations created = Ok (m, n) ->
  let offset k := sum_list (take k (full_dof (DofManager.init gb))) in
  match variable_state (manager m) grid_var state with
  | Ok values =>
      Forall2 (fun key val =>
          exists k size, declared gb !! k = Some (key, size) /\
            val = take size (drop (offset k) state) /\
            (size = 0 \/ offset k + size <= length state))
        grid_var values
  | Raise e =>
      (exists g name, (g, name) ∈ grid_var /\ ((g, name) ∉ map fst (declared gb)) /\
         e = KeyError (KBlock g name)) \/
      (exists key k size, key ∈ grid_var /\ declared gb !! k = Some (key, size) /\
         length state < offset k + size /\ e = IndexError)
  end.
Proof.
  intros Hwf Hfit Hinit offset.
  assert (Hm : manager m = EquationManager.attributes gb equations).
  { unfold __init__ in Hinit. destruct (_set_variables fresh gb created) as [st|e]; [|done].
    cbn [rbind] in Hinit. by injection Hinit as <- _. }
  rewrite Hm. unfold variable_state. cbn [_assembler EquationManager.attributes
    Assembler_init dof_manager].
  set (f := fun item : grid_like * string =>
              ind <- dof_ind (DofManager.init gb) item.1 item.2 ;;
              Np.take_indices state ind).
  destruct (rmap f grid_var) as [values|e] eqn:Hvals.
  - apply rmap_Ok in Hvals. eapply Forall2_impl; [exact Hvals|].
    intros [g name] val. unfold f. cbn [fst snd].
    destruct (dof_ind_built gb g name Hwf) as [(k & size & Hd & ->)|[_ ->]]; [|done].
    cbn [rbind]. intros [-> Hsize]%take_indices_seq_inv. by exists k, size.
  - apply rmap_Raise in Hvals as ([g name] & Hin & Hraise). revert Hraise.
    unfold f. cbn [fst snd].
    destruct (dof_ind_built gb g name Hwf) as [(k & size & Hd & ->)|[Hnin ->]].
    + cbn [rbind]. intros [-> (i & Hi & Hlen)]%take_indices_Raise.
      right. exists (g, name), k, size. repeat (split; [done|]). split; [|done].
      apply elem_of_seq in Hi. unfold offset. lia.
    + intros [= <-]. left. by exists g, name.
Qed.

Lemma variable_state_outcome_witness :
  (exists g name,
     (g, name) ∈ [(GNode Example.example_g1, "flux"%string);
                   (GNode Example.example_g2, "flux"%string)] /\
     ((g, name) ∉ map fst (declared Example.example_gb_all)) /\
     KeyError (KBlock (GNode Example.example_g2) "flux") = KeyError (KBlock g name)) \/
  (exists key k size,
     key ∈ [(GNode Example.example_g1, "flux"%string);
             (GNode Example.example_g2, "flux"%string)] /\
     declared Example.example_gb_all !! k = Some (key, size) /\
     length Example.example_state
     < sum_list (take k (full_dof (DofManager.init Example.example_gb_all))) + size /\
     KeyError (KBlock (GNode Example.example_g2) "flux") = IndexError).
Proof.
  exact (variable_state_outcome (fun i => i) Example.example_gb_all None 0 3
           {| manager := EquationManager.attributes Example.example_gb_all None;
              variables :=
                [(GNode Example.example_g1,
                  [("pressure"%string,
                    {| var_name := "pressure"; var_id := 0;
                       var_g := GNode Example.example_g1 |});
                   ("flux"%string,
                    {| var_name := "flux"; var_id := 1;
                       var_g := GNode Example.example_g1 |})]);
                 (GNode Example.example_g2, []);
                 (GEdge Example.example_g1 Example.example_g2,
                  [("mortar_flux"%string,
                    {| var_name := "mortar_flux"; var_id := 2;
                       var_g := GEdge Example.example_g1 Example.example_g2 |})])] |}
           [(GNode Example.example_g1, "flux"%string);
            (GNode Example.example_g2, "flux"%string)]
           Example.example_state Int64Facts.example_gb_all_wf
           Int64Facts.example_gb_all_fits eq_refl).
Defined.

(** X17. The first equation that fails stops the assembly. Its exception
    leaves [assemble_matrix_rhs], no matrix or right-hand side is returned,
    and the equations that were not reached (those that occur neither before
    the failing one in the list nor are the failing one) are exactly as they
    were: no seeds are assigned to them and nothing enters their cache. *)
Theorem assemble_first_failure (N : Numerics) (em : EquationManager.t) (state : vec)
    (h h1 : store) (pre post : list nat) (a : nat) (l : list (spmatrix * vec)) (e : exn) :
  _equations em = pre ++ a :: post ->
  rows N em state pre h = (Ok l, h1) ->
  (equation_row N em state (h1 a)).1 = Raise e ->
  (assemble_matrix_rhs N em state h).1 = Raise e /\
  (forall a', ((a' ∉ pre)) -> a' <> a -> (assemble_matrix_rhs N em state h).2 a' = h a').
Proof.
  intros Heqs Hpre Hrow. unfold assemble_matrix_rhs. rewrite Heqs.
  rewrite (rows_app_failure N em state pre a post h l h1 e Hpre Hrow).
  split; [done|]. intros a' Hnin Hne. cbn [snd]. unfold store_set.
  rewrite decide_False by done.
  pose proof (rows_untouched N em state pre h a' Hnin) as Hh. by rewrite Hpre in Hh.
Qed.

Lemma assemble_first_failure_witness :
  (assemble_matrix_rhs Example.numerics Example.example_em [1; 2; 3; 4]%Z
     Example.example_store).1 = Raise IndexError /\
  (forall a', ((a' ∉ [])) -> a' <> 0 ->
     (assemble_matrix_rhs Example.numerics Example.example_em [1; 2; 3; 4]%Z
        Example.example_store).2 a' = Example.example_store a').
Proof.
  exact (assemble_first_failure Example.numerics Example.example_em [1; 2; 3; 4]%Z
           Example.example_store Example.example_store [] [1; 2; 2] 0 [] IndexError
           eq_refl eq_refl eq_refl).
Defined.

(** X18. The assembled matrix has entries only in the columns of the dofs
    that some equation of the list depends on: the column of every stored
    entry is one of the local dofs of an equation, and a column that belongs
    to no equation is zero in every row. *)
Theorem assemble_column_support (N : Numerics) (em : EquationManager.t) (state : vec)
    (h : store) (A : spmatrix) (rhs : vec) :
  (assemble_matrix_rhs N em state h).1 = Ok (A, rhs) ->
  (forall e, e ∈ entries A ->
     exists a idx, a ∈ _equations em /\ local_dofs (h a) = Ok idx /\ e.1.2 ∈ idx) /\
  (forall r c,
     (forall a idx, a ∈ _equations em -> local_dofs (h a) = Ok idx -> c ∉ idx) ->
     Sparse.get A r c = 0%Z).
Proof.
  intros HA.
  assert (Hcol : forall e, e ∈ entries A ->
            exists a idx, a ∈ _equations em /\ local_dofs (h a) = Ok idx /\ e.1.2 ∈ idx).
  { apply assemble_Ok in HA as (rws & Hrows & Hbmat & _).
    assert (Hent : entries A = Sparse.vstack_entries 0 (map fst rws)).
    { unfold Sparse.bmat_column in Hbmat. destruct (map fst rws) as [|M blocks]; [done|].
      destruct (forallb _ blocks); [|done]. by injection Hbmat as <-. }
    intros e He. rewrite Hent in He.
    apply vstack_entries_col in He as (M & e' & HM & He' & ->).
    change (map ?f ?l) with (f <$> l) in HM.
    apply list_elem_of_fmap in HM as ([m b] & -> & Hrow).
    apply list_elem_of_lookup in Hrow as [k Hk].
    destruct (Forall2_lookup_r _ _ _ _ _ Hrows Hk) as (a & Ha & Hrow).
    apply equation_row_Ok in Hrow as (val & jac & idx & P & _ & Hidx & HP & Hmul & _).
    exists a, idx. split; [by eapply list_elem_of_lookup_2|]. split; [done|].
    unfold projection in HP. rewrite coo_scatter in HP.
    destruct (decide (Forall _ idx)); [|done]. injection HP as <-.
    unfold Sparse.mul in Hmul. destruct (decide (ncols jac = _)); [|done].
    injection Hmul as <-. cbn [fst entries] in He'.
    apply mul_entries_col in He' as (eb & Heb & ->). cbn [entries] in Heb.
    by eapply scatter_entries_col. }
  split; [exact Hcol|]. intros r c Hc. unfold Sparse.get. apply sumZ_zero.
  intros e He. unfold Sparse.at_pos.
  destruct (decide (e.1.1 = r /\ e.1.2 = c)) as [[_ <-]|]; [|done].
  destruct (Hcol e He) as (a & idx & Ha & Hidx & Hin). by destruct (Hc a idx Ha Hidx).
Qed.

Lemma assemble_column_support_witness :
  exists A rhs,
    (assemble_matrix_rhs Example.numerics Example.example_em Example.example_state
       Example.example_store).1 = Ok (A, rhs) /\
    Sparse.get A 0 5 = 0%Z.
Proof.
  destruct (assemble_matrix_rhs Example.numerics Example.example_em Example.example_state
              Example.example_store).1 as [[A rhs]|e] eqn:HA; [|by vm_compute in HA].
  exists A, rhs. split; [done|].
  apply (proj2 (assemble_column_support Example.numerics Example.example_em
                  Example.example_state Example.example_store A rhs HA)).
  intros a idx Ha Hidx.
  assert (Hall : Forall (fun a => forall idx, local_dofs (Example.example_store a) = Ok idx ->
                     5 ∉ idx) (_equations Example.example_em)).
  { repeat constructor; intros idx' [= <-]; apply (bool_decide_unpack _); by vm_compute. }
  rewrite Forall_forall in Hall. by apply (Hall a Ha).
Defined.

End ManagerMore.

(** ** The registry of variables *)

Module RegistryFacts.
Import DofManager DofManagerFacts LayoutMoreFacts EquationFacts Registry.

Lemma get_is_Some {K V} `{EqDecision K} (k : K) (d : Dict.t K V) :
  is_Some (Dict.get k d) <-> k ∈ Dict.keys d.
Proof.
  pose proof (DictFacts.get_None k d) as Hnone.
  destruct (Dict.get k d) as [v|] eqn:Hget.
  - split; [|by eexists]. intros _. apply dec_stable. intros Hnin.
    apply Hnone in Hnin. discriminate.
  - split; [by intros [? ?]|]. intros Hin. by apply Hnone in Hin.
Qed.

Section registry.
Context (fresh : nat -> nat).

(** The inner loop of [_set_variables] on an entity whose dictionary is
    [inner] when the loop starts. *)
Lemma register_fold g num_cells (vars : Dict.t string (Dict.t string nat))
    (r : registry) n inner :
  Dict.get g r = Some inner ->
  (forall name v, Dict.get name inner = Some v -> var_name v = name /\ var_g v = g) ->
  exists r' inner',
    fold_left (fun (st : registry * nat) (vi : string * Dict.t string nat) =>
        let inner := default [] (Dict.get g st.1) in
        (Dict.set g (Dict.set vi.1 (new_variable fresh st.2 vi.1 vi.2 g num_cells) inner) st.1,
         st.2 + 1))
      vars (r, n) = (r', n + length vars) /\
    Dict.get g r' = Some inner' /\
    (forall g', g' <> g -> Dict.get g' r' = Dict.get g' r) /\
    (forall name v, Dict.get name inner' = Some v -> var_name v = name /\ var_g v = g) /\
    (forall name, name ∈ Dict.keys inner' <-> name ∈ Dict.keys inner \/ name ∈ Dict.keys vars).
Proof.
  revert r n inner. induction vars as [|[name0 info] vars IH]; intros r n inner Hget Hgood.
  - exists r, inner. cbn [fold_left length]. rewrite Nat.add_0_r.
    repeat (split; [done|]). intros name. split; [by left|].
    intros [?|Hin]; [done|]. by apply not_elem_of_nil in Hin.
  - cbn [fold_left fst snd]. rewrite Hget. cbn [default from_option].
    set (nv := new_variable fresh n name0 info g num_cells).
    destruct (IH (Dict.set g (Dict.set name0 nv inner) r) (n + 1) (Dict.set name0 nv inner))
      as (r' & inner' & Hfold & Hget' & Hother & Hgood' & Hkeys).
    { apply DictFacts.get_set_eq. }
    { intros name v. destruct (decide (name0 = name)) as [<-|Hne].
      - rewrite DictFacts.get_set_eq. by intros [= <-].
      - rewrite DictFacts.get_set_ne by done. apply Hgood. }
    exists r', inner'. split; [|split; [done|split; [|split; [done|]]]].
    + replace (n + length ((name0, info) :: vars)) with (n + 1 + length vars)
        by (simpl; lia).
      exact Hfold.
    + intros g' Hne. rewrite (Hother g' Hne). by apply DictFacts.get_set_ne.
    + intros name. rewrite Hkeys, elem_of_keys_set. unfold Dict.keys. cbn [map fst].
      rewrite elem_of_cons. tauto.
Qed.

Lemma register_entity_spec g num_cells vars (r : registry) n :
  exists r' inner',
    register_entity fresh g num_cells vars (r, n) = (r', n + length vars) /\
    Dict.get g r' = Some inner' /\
    (forall g', g' <> g -> Dict.get g' r' = Dict.get g' r) /\
    (forall name v, Dict.get name inner' = Some v -> var_name v = name /\ var_g v = g) /\
    (forall name, name ∈ Dict.keys inner' <-> name ∈ Dict.keys vars).
Proof.
  unfold register_entity. cbn [fst snd].
  destruct (register_fold g num_cells vars (Dict.set g [] r) n [])
    as (r' & inner' & Hfold & Hget & Hother & Hgood & Hkeys).
  { apply DictFacts.get_set_eq. }
  { done. }
  exists r', inner'. split; [done|]. split; [done|]. split; [|split; [done|]].
  - intros g' Hne. rewrite (Hother g' Hne). by apply DictFacts.get_set_ne.
  - intros name. rewrite Hkeys. split; [|by right].
    intros [Hin|?]; [|done]. by apply not_elem_of_nil in Hin.
Qed.

(** The loop over the entities returns when every entity declares its
    variables, and raises at the first one that does not. *)
Lemma set_entities_outcome ents (st : registry * nat) :
  match set_entities fresh ents st with
  | Ok st' =>
      Forall (fun x => is_Some x.2) ents /\
      st'.2 = st.2 + sum_list (map (fun x => num_declared x.2) ents)
  | Raise e =>
      e = KeyError (KStr "primary_variables") /\ Exists (fun x => x.2 = None) ents
  end.
Proof.
  revert st. induction ents as [|[[g nc] [vars|]] ents IH]; intros [r n]; cbn [set_entities].
  - split; [constructor|simpl; lia].
  - cbn [Gb.required rbind].
    destruct (register_entity_spec g nc vars r n) as (r' & _ & -> & _).
    specialize (IH (r', n + length vars)).
    destruct (set_entities fresh ents (r', n + length vars)) as [st'|e].
    + destruct IH as [Hall Hn]. split; [constructor; [by eexists|done]|].
      rewrite Hn. simpl. lia.
    + destruct IH as [-> Hex]. split; [done|by right].
  - split; [done|by left].
Qed.

Lemma set_entities_content ents (r r' : registry) n n' :
  NoDup (map (fun x => x.1.1) ents) ->
  set_entities fresh ents (r, n) = Ok (r', n') ->
  (forall g, g ∉ map (fun x => x.1.1) ents -> Dict.get g r' = Dict.get g r) /\
  (forall g nc vars, (g, nc, Some vars) ∈ ents ->
     exists inner, Dict.get g r' = Some inner /\
       (forall name v, Dict.get name inner = Some v -> var_name v = name /\ var_g v = g) /\
       (forall name, name ∈ Dict.keys inner <-> name ∈ Dict.keys vars)).
Proof.
  revert r n. induction ents as [|[[g nc] [vars|]] ents IH]; intros r n Hnd;
    cbn [set_entities]; [| |done].
  - intros [= <- <-]. split; [done|]. by intros g nc vars ?%not_elem_of_nil.
  - cbn [Gb.required rbind map fst] in *. apply NoDup_cons in Hnd as [Hnin Hnd].
    destruct (register_entity_spec g nc vars r n)
      as (r1 & inner1 & -> & Hget1 & Hother1 & Hgood1 & Hkeys1).
    intros Hrest. destruct (IH r1 (n + length vars) Hnd Hrest) as [Hout Hin]. split.
    + intros g' [Hne Hnin']%not_elem_of_cons. rewrite (Hout g' Hnin'). by apply Hother1.
    + intros g' nc' vars' [[= -> -> ->]|Hin']%elem_of_cons.
      * exists inner1. by rewrite (Hout g Hnin).
      * by apply Hin in Hin'.
Qed.

Lemma set_entities_app ents1 ents2 st :
  set_entities fresh (ents1 ++ ents2) st
  = (st' <- set_entities fresh ents1 st ;; set_entities fresh ents2 st').
Proof.
  revert st. induction ents1 as [|[[g nc] [vars|]] ents1 IH]; intros st; simpl; try done.
Qed.

Lemma set_variables_entities gb created :
  _set_variables fresh gb created = set_entities fresh (entities gb) ([], created).
Proof.
  unfold _set_variables, entities. rewrite set_entities_app.
  assert (Hnodes : forall nodes st,
            set_node_variables fresh nodes st
            = set_entities fresh
                (map (fun gd : Grid * node_data => (GNode gd.1, None, PRIMARY_VARIABLES gd.2))
                   nodes) st).
  { induction nodes as [|[g d] nodes IH]; intros st; simpl; [done|].
    destruct (PRIMARY_VARIABLES d); simpl; [apply IH|done]. }
  assert (Hedges : forall edges st,
            set_edge_variables fresh edges st
            = set_entities fresh
                (map (fun ed : (Grid * Grid) * edge_data =>
                        (GEdge ed.1.1 ed.1.2, Some (mortar_num_cells (mortar_grid ed.2)),
                         e_PRIMARY_VARIABLES ed.2)) edges) st).
  { induction edges as [|[e d] edges IH]; intros st; simpl; [done|].
    destruct (e_PRIMARY_VARIABLES d); simpl; [apply IH|done]. }
  rewrite Hnodes. destruct (set_entities fresh _ ([], created)) as [st|e]; simpl; [|done].
  apply Hedges.
Qed.
End registry.

(** The entities and the declared pairs of a bucket. *)
Lemma entities_NoDup gb : gb_wf gb -> NoDup (map (fun x => x.1.1) (entities gb)).
Proof.
  intros [Hn He _ _]. unfold entities. rewrite map_app, !map_map. cbn [fst].
  apply NoDup_app. split; [|split].
  - change (NoDup ((fun gd : Grid * node_data => GNode gd.1) <$> gb_nodes gb)).
    apply NoDup_fmap_2_strong; [|by apply NoDup_fmap_1 in Hn].
    intros [g d] [g' d'] Hin Hin' [= ->]. cbn [fst] in *.
    f_equal. eapply NoDup_fst_agree; [exact Hn|done..].
  - intros g Hg Hg'. change (map ?f ?l) with (f <$> l) in Hg, Hg'.
    apply list_elem_of_fmap in Hg as (gd & -> & _).
    by apply list_elem_of_fmap in Hg' as (ed & ? & _).
  - change (NoDup ((fun ed : (Grid * Grid) * edge_data => GEdge ed.1.1 ed.1.2)
                     <$> gb_edges gb)).
    apply NoDup_fmap_2_strong; [|by apply NoDup_fmap_1 in He].
    intros [[g1 g2] d] [[g1' g2'] d'] Hin Hin' [= -> ->]. cbn [fst] in *.
    f_equal. eapply NoDup_fst_agree; [exact He|done..].
Qed.

Lemma declared_entities gb g name :
  (g, name) ∈ map fst (declared gb) <->
  exists nc vars, (g, nc, Some vars) ∈ entities gb /\ name ∈ Dict.keys vars.
Proof.
  unfold declared, entities. rewrite map_app, elem_of_app. split.
  - intros [Hin|Hin].
    + apply elem_of_node_declared in Hin as (g0 & d & vars & name' & [= -> ->] & Hgd & Hv & Hn).
      exists None, vars. split; [|done]. apply elem_of_app. left.
      change (map ?f ?l) with (f <$> l). apply list_elem_of_fmap.
      exists (g0, d). by rewrite <- Hv.
    + apply elem_of_edge_declared in Hin
        as (g1 & g2 & d & vars & name' & [= -> ->] & Hgd & Hv & Hn).
      exists (Some (mortar_num_cells (mortar_grid d))), vars. split; [|done].
      apply elem_of_app. right.
      change (map ?f ?l) with (f <$> l). apply list_elem_of_fmap.
      exists ((g1, g2), d). by rewrite <- Hv.
  - intros (nc & vars & [Hin|Hin]%elem_of_app & Hname);
      change (map ?f ?l) with (f <$> l) in Hin;
      apply list_elem_of_fmap in Hin as ([k d] & [= -> -> Hv] & Hkd);
      change (name ∈ fst <$> vars) in Hname;
      apply list_elem_of_fmap in Hname as ([name' info] & -> & Hinfo); cbn [fst snd] in *.
    + left. change (map ?f ?l) with (f <$> l). apply list_elem_of_fmap.
      exists ((GNode k, name'), grid_block_size k info). split; [done|].
      apply list_elem_of_In, in_flat_map. exists (k, d). split; [by apply list_elem_of_In|].
      unfold node_declared. cbn [fst snd]. rewrite <- Hv.
      apply in_map_iff. exists (name', info). split; [done|by apply list_elem_of_In].
    + right. change (map ?f ?l) with (f <$> l). apply list_elem_of_fmap.
      exists ((GEdge k.1 k.2, name'), mortar_block_size (mortar_grid d) info).
      split; [done|].
      apply list_elem_of_In, in_flat_map. exists (k, d). split; [by apply list_elem_of_In|].
      unfold edge_declared. cbn [fst snd]. rewrite <- Hv.
      apply in_map_iff. exists (name', info). split; [done|by apply list_elem_of_In].
Qed.

Lemma length_declared gb :
  length (declared gb) = sum_list (map (fun x => num_declared x.2) (entities gb)).
Proof.
  unfold declared, entities. rewrite length_app, map_app, sum_list_with_app, !map_map.
  f_equal.
  - induction (gb_nodes gb) as [|[g d] nodes IH]; [done|].
    cbn [flat_map map]. rewrite length_app, IH. cbn [sum_list sum_list_with]. f_equal.
    unfold node_declared. cbn [snd]. destruct (PRIMARY_VARIABLES d); [|done].
    cbn [num_declared]. by rewrite length_map.
  - induction (gb_edges gb) as [|[e d] edges IH]; [done|].
    cbn [flat_map map]. rewrite length_app, IH. cbn [sum_list sum_list_with]. f_equal.
    unfold edge_declared. cbn [snd]. destruct (e_PRIMARY_VARIABLES d); [|done].
    cbn [num_declared]. by rewrite length_map.
Qed.

Lemma Forall_entities gb :
  Forall (fun x => is_Some x.2) (entities gb) <->
  Forall (fun gd => is_Some (PRIMARY_VARIABLES gd.2)) (gb_nodes gb) /\
  Forall (fun ed => is_Some (e_PRIMARY_VARIABLES ed.2)) (gb_edges gb).
Proof.
  unfold entities. rewrite Forall_app.
  change (map ?f ?l) with (f <$> l). by rewrite !Forall_fmap.
Qed.

Lemma Exists_entities gb :
  Exists (fun x => x.2 = None) (entities gb) <->
  Exists (fun gd => PRIMARY_VARIABLES gd.2 = None) (gb_nodes gb) \/
  Exists (fun ed => e_PRIMARY_VARIABLES ed.2 = None) (gb_edges gb).
Proof.
  unfold entities. rewrite Exists_app.
  change (map ?f ?l) with (f <$> l). by rewrite !Exists_fmap.
Qed.

(** The manager of the example is one that the constructor returns. *)
Lemma example_em_constructed :
  exists reg n,
    __init__ (fun i => i) Example.example_gb_all (Some [0; 1; 2; 2]) 0
    = Ok ({| manager := Example.example_em; variables := reg |}, n).
Proof. eexists _, _. reflexivity. Qed.

Lemma example_gb_single_wf : gb_wf Example.example_gb_single.
Proof.
  split; simpl.
  - apply NoDup_singleton.
  - constructor.
  - constructor; [|constructor]. simpl. apply NoDup_singleton.
  - constructor.
Qed.

End RegistryFacts.

Module RegistryMore.
Import DofManager DofManagerFacts LayoutMoreFacts EquationFacts Registry RegistryFacts.

(** X19. The constructor of the manager needs a declaration of variables on
    every node and on every edge of the bucket. It returns exactly when all of
    them have one (an empty one will do), and it then creates one variable per
    block of the layout; it raises the [KeyError] of [pp.PRIMARY_VARIABLES]
    when a node or an edge has none. The [DofManager] of the same bucket
    skips such a node or edge. *)
Theorem init_needs_variables (fresh : nat -> nat) (gb : GridBucket)
    (equations : option (list nat)) (created : nat) :
  match __init__ fresh gb equations created with
  | Ok (m, n) =>
      Forall (fun gd => is_Some (PRIMARY_VARIABLES gd.2)) (gb_nodes gb) /\
      Forall (fun ed => is_Some (e_PRIMARY_VARIABLES ed.2)) (gb_edges gb) /\
      manager m = EquationManager.attributes gb equations /\
      n = created + length (declared gb) /\
      (gb_wf gb -> n = created + length (full_dof (DofManager.init gb)))
  | Raise e =>
      e = KeyError (KStr "primary_variables") /\
      (Exists (fun gd => PRIMARY_VARIABLES gd.2 = None) (gb_nodes gb) \/
       Exists (fun ed => e_PRIMARY_VARIABLES ed.2 = None) (gb_edges gb))
  end.
Proof.
  unfold __init__. rewrite set_variables_entities.
  pose proof (set_entities_outcome fresh (entities gb) ([], created)) as Hout.
  destruct (set_entities fresh (entities gb) ([], created)) as [[reg n]|e]; cbn [rbind].
  - destruct Hout as [Hall Hn]. apply Forall_entities in Hall as [Hnodes Hedges].
    cbn [fst snd manager] in *. rewrite <- length_declared in Hn.
    repeat (split; [done|]). intros Hwf.
    destruct (init_spec gb (declared_NoDup gb Hwf)) as [-> _]. by rewrite length_map.
  - destruct Hout as [-> Hex]. split; [done|]. by apply Exists_entities.
Qed.

(** X20. The registry of a manager and the layout of its bucket agree. The
    registry has a variable for [(entity, name)] exactly when the pair is
    declared; the variable carries this name and this entity, so that
    [dof_ind] finds its dofs in the layout of the manager, and an equation
    built from registered variables refers to declared pairs only. *)
Theorem registry_declared (fresh : nat -> nat) (gb : GridBucket)
    (equations : option (list nat)) (created n : nat) (m : Manager) :
  gb_wf gb ->
  __init__ fresh gb equations created = Ok (m, n) ->
  (forall g name,
     (g, name) ∈ map fst (declared gb) <-> is_Some (registered (variables m) g name)) /\
  (forall g name v,
     registered (variables m) g name = Some v ->
     var_name v = name /\ var_g v = g /\
     exists ind,
       dof_ind (EquationManager.dof_manager (EquationManager._assembler (manager m)))
         (var_g v) (var_name v) = Ok ind).
Proof.
  intros Hwf. unfold __init__. rewrite set_variables_entities.
  destruct (set_entities fresh (entities gb) ([], created)) as [[reg n']|e] eqn:Hset;
    cbn [rbind]; [|done].
  intros [= <- <-]. cbn [variables manager fst].
  destruct (set_entities_content fresh (entities gb) [] reg created n'
              (entities_NoDup gb Hwf) Hset) as [Hout Hin].
  assert (Hreg : forall g name v, registered reg g name = Some v ->
            exists nc vars, (g, nc, Some vars) ∈ entities gb /\ name ∈ Dict.keys vars /\
              var_name v = name /\ var_g v = g).
  { intros g name v. unfold registered.
    destruct (Dict.get g reg) as [inner|] eqn:Hg; [|done]. intros Hv.
    destruct (decide (g ∈ map (fun x => x.1.1) (entities gb))) as [Hent|Hnent].
    - change (map ?f ?l) with (f <$> l) in Hent.
      apply list_elem_of_fmap in Hent as ([[g' nc] o] & -> & Hent). cbn [fst] in *.
      pose proof (set_entities_outcome fresh (entities gb) ([], created)) as Hall.
      rewrite Hset in Hall. destruct Hall as [Hall _].
      rewrite Forall_forall in Hall. destruct (Hall _ Hent) as [vars Hvars].
      cbn [snd] in Hvars. subst o.
      destruct (Hin g' nc vars Hent) as (inner' & Hg' & Hgood & Hkeys).
      rewrite Hg in Hg'. injection Hg' as <-.
      exists nc, vars. split; [done|]. split; [|by apply Hgood].
      apply Hkeys, get_is_Some. by eexists.
    - rewrite (Hout g Hnent) in Hg. done. }
  split.
  - intros g name. rewrite declared_entities. split.
    + intros (nc & vars & Hent & Hname).
      destruct (Hin g nc vars Hent) as (inner & Hg & _ & Hkeys).
      unfold registered. rewrite Hg. apply get_is_Some. by apply Hkeys.
    + intros [v Hv]. apply Hreg in Hv as (nc & vars & Hent & Hname & _).
      by exists nc, vars.
  - intros g name v Hv. apply Hreg in Hv as (nc & vars & Hent & Hname & <- & <-).
    split; [done|]. split; [done|].
    cbn [EquationManager.attributes EquationManager._assembler EquationManager.Assembler_init
         EquationManager.dof_manager].
    destruct (dof_ind_built gb (var_g v) (var_name v) Hwf)
      as [(k & size & _ & ->)|[Hnin _]]; [by eexists|].
    exfalso. apply Hnin. apply declared_entities. by exists nc, vars.
Qed.

Lemma registry_declared_witness :
  exists v,
    registered [(GNode Example.example_g1,
                 [("pressure"%string,
                   {| var_name := "pressure"; var_id := 5; var_g := GNode Example.example_g1 |})])]
      (GNode Example.example_g1) "pressure" = Some v /\
    var_name v = "pressure"%string /\ var_g v = GNode Example.example_g1.
Proof.
  eexists. split; [reflexivity|].
  destruct (proj2 (registry_declared (fun i => i) Example.example_gb_single None 5 6
                     {| manager := EquationManager.attributes Example.example_gb_single None;
                        variables :=
                          [(GNode Example.example_g1,
                            [("pressure"%string,
                              {| var_name := "pressure"; var_id := 5;
                                 var_g := GNode Example.example_g1 |})])] |}
                     example_gb_single_wf eq_refl)
              (GNode Example.example_g1) "pressure"%string _ eq_refl) as (Hname & Hg & _).
  by split.
Defined.

End RegistryMore.

(** ** What enters the matrix cache *)

Module CacheFacts.
Import Equation Rel EvalFacts EquationFacts EquationMoreFacts RegistryFacts.

Section parse.
Context (N : Numerics) (ad : Dict.t nat value) (gb : GridBucket).

Lemma stored_populates mo c v c' :
  stored gb mo c = (Ok v, c') -> is_Some (Dict.get mo c').
Proof.
  unfold stored. destruct (Dict.get mo c) as [m|] eqn:Hget.
  - intros [= _ <-]. by rewrite Hget.
  - destruct (merged_matrix gb mo) as [m|e]; [|done].
    intros [= _ <-]. rewrite DictFacts.get_set_eq. by eexists.
Qed.

Lemma stored_only mo c mo' :
  is_Some (Dict.get mo' (stored gb mo c).2) -> is_Some (Dict.get mo' c) \/ mo' = mo.
Proof.
  unfold stored. destruct (Dict.get mo c) as [m|] eqn:Hget; [by left|].
  destruct (merged_matrix gb mo) as [m|e]; [|by left]. cbn [snd].
  destruct (decide (mo = mo')) as [->|Hne]; [by right|].
  rewrite DictFacts.get_set_ne by done. by left.
Qed.

Lemma composite_Ok o (children : result (list value) * cache) v c' :
  composite N o children = (Ok v, c') -> exists rs, children = (Ok rs, c').
Proof.
  destruct children as [[rs|e] c1]; unfold composite; cbn [rbind]; [|done].
  intros [= _ <-]. by exists rs.
Qed.

Lemma composite_cache o (children : result (list value) * cache) :
  (composite N o children).2 = children.2.
Proof. by destruct children. Qed.

Lemma smap_populates ch :
  Forall (fun op => forall c v c', _parse_operator N ad gb op c = (Ok v, c') ->
            forall mo, mo ∈ merged_leaves op -> is_Some (Dict.get mo c')) ch ->
  forall c rs c', smap (_parse_operator N ad gb) ch c = (Ok rs, c') ->
    forall mo, mo ∈ flat_map merged_leaves ch -> is_Some (Dict.get mo c').
Proof.
  induction 1 as [|x ch Hx _ IH]; intros c rs c' Hs mo Hmo.
  - by apply not_elem_of_nil in Hmo.
  - cbn [smap] in Hs.
    destruct (_parse_operator N ad gb x c) as [[y|e] c1] eqn:Hpx; [|done].
    assert (Hext : cache_le gb c1 (smap (_parse_operator N ad gb) ch c1).2).
    { apply (smap_extends gb). apply Forall_forall. intros op _. apply parse_extends. }
    destruct (smap (_parse_operator N ad gb) ch c1) as [[ys|e] c2] eqn:Hsch; [|done].
    injection Hs as _ <-. cbn [flat_map] in Hmo. cbn [snd] in Hext.
    apply elem_of_app in Hmo as [Hmo|Hmo].
    + destruct (Hx c y c1 Hpx mo Hmo) as [m Hm]. exists m. by eapply cache_le_kept.
    + by eapply IH.
Qed.

Lemma smap_only ch :
  Forall (fun op => forall c mo, is_Some (Dict.get mo (_parse_operator N ad gb op c).2) ->
            is_Some (Dict.get mo c) \/ mo ∈ merged_leaves op) ch ->
  forall c mo, is_Some (Dict.get mo (smap (_parse_operator N ad gb) ch c).2) ->
    is_Some (Dict.get mo c) \/ mo ∈ flat_map merged_leaves ch.
Proof.
  induction 1 as [|x ch Hx _ IH]; intros c mo; cbn [smap flat_map]; [by left|].
  specialize (Hx c mo).
  destruct (_parse_operator N ad gb x c) as [[y|e] c1]; cbn [snd] in *.
  - specialize (IH c1 mo).
    destruct (smap (_parse_operator N ad gb) ch c1) as [rs c2]. cbn [snd] in *.
    intros [Hc1|Hin]%IH; [|right; apply elem_of_app; by right].
    destruct (Hx Hc1) as [?|?]; [by left|]. right. apply elem_of_app. by left.
  - intros [?|?]%Hx; [by left|]. right. apply elem_of_app. by left.
Qed.

Lemma parse_populates op c v c' :
  _parse_operator N ad gb op c = (Ok v, c') ->
  forall mo, mo ∈ merged_leaves op -> is_Some (Dict.get mo c').
Proof.
  revert c v c'. induction op as [cls o ch IH] using Operator_ind'.
  intros c v c' Hp mo Hmo.
  destruct cls; try by apply not_elem_of_nil in Hmo.
  - destruct ch as [|x ch'].
    + apply list_elem_of_singleton in Hmo as ->. by eapply stored_populates.
    + rewrite parse_composite in Hp; [|right; by eexists|done].
      apply composite_Ok in Hp as [rs Hs]. by eapply smap_populates.
  - destruct ch as [|x ch']; [by apply not_elem_of_nil in Hmo|].
    rewrite parse_composite in Hp; [|by left|done].
    apply composite_Ok in Hp as [rs Hs]. by eapply smap_populates.
Qed.

Lemma parse_only op c mo :
  is_Some (Dict.get mo (_parse_operator N ad gb op c).2) ->
  is_Some (Dict.get mo c) \/ mo ∈ merged_leaves op.
Proof.
  revert c mo. induction op as [cls o ch IH] using Operator_ind'. intros c mo.
  destruct cls; try (by left); try (destruct ch; by left).
  - destruct ch as [|x ch'].
    + intros [?| ->]%stored_only; [by left|]. right. by left.
    + rewrite parse_composite; [|right; by eexists|done].
      rewrite composite_cache. by apply smap_only.
  - destruct ch as [|x ch']; [by left|].
    rewrite parse_composite; [|by left|done].
    rewrite composite_cache. by apply smap_only.
Qed.
End parse.

End CacheFacts.

Module Cache.
Import Equation Rel EvalFacts EquationFacts EquationMoreFacts CacheFacts.

(** X21. The cache is filled by the evaluation, and by nothing else. After a
    call of [to_ad] that returns, every discretization-bound leaf that the
    evaluation of the tree reaches has its matrix in the cache of the
    equation. Whether the call returns or raises, an operator that has an
    entry afterwards either had one before or is such a leaf of the tree. *)
Theorem cache_populated (N : Numerics) (eq : Equation.t) (gb : GridBucket) (state : vec) :
  (forall v mo,
     (to_ad N eq gb state).1 = Ok v ->
     mo ∈ merged_leaves (_operator eq) ->
     is_Some (Dict.get mo (_stored_matrices (to_ad N eq gb state).2))) /\
  (forall mo,
     is_Some (Dict.get mo (_stored_matrices (to_ad N eq gb state).2)) ->
     is_Some (Dict.get mo (_stored_matrices eq)) \/ mo ∈ merged_leaves (_operator eq)).
Proof.
  unfold to_ad.
  destruct (slices <- rmap (Np.take_indices state) (_variable_dofs eq) ;;
            initAdArrays N slices) as [ad_vars|e]; [|split; [done|by left]].
  set (ad := dict_of_zip (_variable_ids eq) ad_vars).
  pose proof (parse_populates N ad gb (_operator eq) (_stored_matrices eq)) as Hpop.
  pose proof (parse_only N ad gb (_operator eq) (_stored_matrices eq)) as Honly.
  destruct (_parse_operator N ad gb (_operator eq) (_stored_matrices eq)) as [r c'].
  cbn [fst snd _stored_matrices] in *. split.
  - intros v mo -> Hmo. by eapply Hpop.
  - exact Honly.
Qed.

Lemma cache_populated_witness :
  is_Some (Dict.get Example.flux_operator
             (_stored_matrices
                (to_ad Example.numerics Example.eq3 Example.example_gb
                   Example.example_state).2)).
Proof.
  eapply (proj1 (cache_populated Example.numerics Example.eq3 Example.example_gb
                   Example.example_state)).
  - reflexivity.
  - by left.
Defined.

End Cache.

(** ** What an evaluation reads *)

Module ReadsFacts.
Import Equation EquationManager Rel EvalFacts EquationFacts EquationMoreFacts AssemblyFacts.

Lemma smap_ext {A B} (f g : A -> cache -> result B * cache) l :
  Forall (fun x => forall c, f x c = g x c) l -> forall c, smap f l c = smap g l c.
Proof.
  induction 1 as [|x l Hx _ IH]; intros c; simpl; [done|].
  rewrite Hx. destruct (g x c) as [[y|e] c1]; [|done]. by rewrite IH.
Qed.

Lemma Forall2_same_key {A B} (R : A -> B -> Prop) (l : list A) (l' : list B) i j a y y' :
  (forall x z z', R x z -> R x z' -> z = z') ->
  Forall2 R l l' -> l !! i = Some a -> l !! j = Some a ->
  l' !! i = Some y -> l' !! j = Some y' -> y = y'.
Proof.
  intros Hfun Hall Hi Hj Hy Hy'.
  destruct (Forall2_lookup_l _ _ _ _ _ Hall Hi) as (z & Hz & HR).
  destruct (Forall2_lookup_l _ _ _ _ _ Hall Hj) as (z' & Hz' & HR').
  rewrite Hy in Hz. rewrite Hy' in Hz'. injection Hz as <-. injection Hz' as <-.
  by eapply Hfun.
Qed.

End ReadsFacts.

Module Reads.
Import Equation EquationManager Rel EvalFacts EquationFacts EquationMoreFacts AssemblyFacts
  ReadsFacts.

(** X22. The evaluation of a tree reads the seeds of its own variables only.
    Two dictionaries of seeds that agree on the ids of the variable leaves of
    the tree give the same result, value or exception, and the same cache. In
    particular a tree without variable leaves evaluates to the same result
    whatever the state is. *)
Theorem parse_reads_own_seeds (N : Numerics) (gb : GridBucket) (ad ad' : Dict.t nat value)
    (op : Operator) :
  (forall x, x ∈ variable_leaves op -> Dict.get (leaf_id x) ad = Dict.get (leaf_id x) ad') ->
  forall c, _parse_operator N ad gb op c = _parse_operator N ad' gb op c.
Proof.
  induction op as [cls o ch IH] using Operator_ind'. intros Hagree c.
  assert (Hch : (cls = IsOperator \/ exists mo, cls = IsMergedOperator mo) ->
            smap (_parse_operator N ad gb) ch c = smap (_parse_operator N ad' gb) ch c).
  { intros Hcls. apply smap_ext. rewrite Forall_forall in IH. apply Forall_forall.
    intros x Hx c0. apply (IH x Hx). intros y Hy. apply Hagree.
    assert (Hleaves : variable_leaves (Node cls o ch) = flat_map variable_leaves ch)
      by (by destruct Hcls as [->|[mo ->]]).
    rewrite Hleaves. apply list_elem_of_In, in_flat_map. exists x.
    split; by apply list_elem_of_In. }
  destruct cls; try done.
  - destruct ch; [|done]. cbn [_parse_operator]. unfold ad_lookup.
    assert (Hv : Dict.get (var_id v) ad = Dict.get (var_id v) ad')
      by (apply (Hagree (Plain v)); by left).
    by rewrite Hv.
  - destruct ch; [|done]. cbn [_parse_operator]. unfold ad_lookup.
    assert (Hv : Dict.get (var_id (sub_vars_head mv)) ad
                 = Dict.get (var_id (sub_vars_head mv)) ad')
      by (apply (Hagree (Merged mv)); by left).
    by rewrite Hv.
  - destruct ch as [|x ch']; [done|].
    rewrite !parse_composite; try done; try (right; by eexists).
    rewrite Hch; [done|]. right. by eexists.
  - destruct ch as [|x ch']; [done|].
    rewrite !parse_composite; try done; try by left.
    rewrite Hch; [done|by left].
Qed.

Lemma parse_reads_own_seeds_witness :
  _parse_operator Example.numerics [(0, VNum 1); (2, VNum 2); (5, VNum 7)] Example.example_gb
    Example.tree1 []
  = _parse_operator Example.numerics [(2, VNum 2); (0, VNum 1)] Example.example_gb
      Example.tree1 [].
Proof.
  apply (parse_reads_own_seeds Example.numerics Example.example_gb
           [(0, VNum 1); (2, VNum 2); (5, VNum 7)] [(2, VNum 2); (0, VNum 1)] Example.tree1).
  intros x Hx.
  assert (Hall : Forall (fun x => Dict.get (leaf_id x) [(0, VNum 1); (2, VNum 2); (5, VNum 7)]
                                  = Dict.get (leaf_id x) [(2, VNum 2); (0, VNum 1)])
            [Plain Example.mortar_flux; Plain Example.pressure])
    by (by repeat constructor).
  rewrite Forall_forall in Hall. by apply Hall.
Defined.

(** X23. An equation object that is listed twice contributes the same block
    and the same part of the right-hand side at both places of a successful
    assembly, although the second evaluation runs on the object as the first
    one left it, with its cache filled and its seeds assigned. *)
Theorem repeated_equation_same_rows (N : Numerics) (em : EquationManager.t) (state : vec)
    (h : store) (A : spmatrix) (rhs : vec) (i j a : nat) :
  (assemble_matrix_rhs N em state h).1 = Ok (A, rhs) ->
  _equations em !! i = Some a ->
  _equations em !! j = Some a ->
  exists rows row,
    Sparse.bmat_column (map fst rows) = Ok A /\
    rhs = concat (map snd rows) /\
    length rows = length (_equations em) /\
    rows !! i = Some row /\ rows !! j = Some row /\
    (equation_row N em state (h a)).1 = Ok row.
Proof.
  intros HA Hi Hj. apply assemble_Ok in HA as (rws & Hrows & Hbmat & Hrhs).
  destruct (Forall2_lookup_l _ _ _ _ _ Hrows Hi) as (row & Hrow & Ha).
  destruct (Forall2_lookup_l _ _ _ _ _ Hrows Hj) as (row' & Hrow' & Ha').
  assert (row' = row) as -> by congruence.
  exists rws, row. split; [done|]. split; [by apply hstack_Ok in Hrhs|].
  split; [symmetry; by eapply Forall2_length|]. done.
Qed.

Lemma repeated_equation_same_rows_witness :
  exists A rhs (rws : list (spmatrix * vec)) row,
    (assemble_matrix_rhs Example.numerics Example.example_em Example.example_state
       Example.example_store).1 = Ok (A, rhs) /\
    rws !! 2 = Some row /\ rws !! 3 = Some row /\ length rws = 4.
Proof.
  destruct (assemble_matrix_rhs Example.numerics Example.example_em Example.example_state
              Example.example_store).1 as [[A rhs]|e] eqn:HA; [|by vm_compute in HA].
  destruct (repeated_equation_same_rows Example.numerics Example.example_em
              Example.example_state Example.example_store A rhs 2 3 2 HA eq_refl eq_refl)
    as (rows & row & _ & _ & Hlen & Hi & Hj & _).
  by exists A, rhs, rows, row.
Defined.

End Reads.
